(** * A set-associative cache simulator with miss classification

    Shallow embedding of [cache_sim.cpp]: the fully-associative LRU
    reference cache ([FullyAssocLRU]), one replacement set ([Set], here
    [CacheSet]), the simulator ([Cache]) with its constructor,
    [decompose] and [access], and the driver ([main]) with the reading of
    the command line and of the trace file, followed by the properties of
    the simulator and of the driver.

    Conventions.
    - [u64] values are integers in [0, 2^64); arithmetic on them wraps
      ([wrap64]).  [int] values are integers in [-2^31, 2^31); a narrowing
      cast [(int)x] is [to_int].
    - Operations on which C++ defines no behaviour (integer division by zero,
      a shift count outside [0, 64), signed overflow, indexing a vector out
      of range, [front()] of an empty list) yield [Undefined]; a thrown
      exception yields [Throw].  Statements about what an access or a run
      returns speak of executions that are defined; [run_defined] gives
      geometries on which every execution is.
    - [std::list] plus the iterator map is modelled as the list of keys
      together with the key set of the map; the iterator stored for a key
      designates the list node holding that key, so [order.erase(it->second)]
      removes that key's (only) node.
    - [round(log2(x))] is the integer nearest to the real logarithm
      ([round_log2]); libm is taken to be exact to that rounding, as it is
      on powers of two.
    - [std::stoull] and [std::stoi] are modelled after [strtoull] and
      [strtol] in the C locale.  The file system is a function from file
      names to contents; [main] ends with an exit status and the summary it
      printed, in an uncaught exception, or in undefined behaviour.
    - Diagnostic output, the hit rate printed by [summary] (a [double]) and
      allocation failure are not modelled. *)

From stdpp Require Import base numbers strings list gmap.
From Stdlib Require Import ZArith Lia Ascii.

Open Scope Z_scope.

(* [set_solver] clears hypotheses by names that are not always there. *)
#[local] Set Warnings "-clear-no-such-hyp".

(** ** Machine integers and undefined behaviour *)

Definition wrap64 (z : Z) : Z := z mod 2 ^ 64.

Definition to_int (z : Z) : Z := (z + 2 ^ 31) mod 2 ^ 32 - 2 ^ 31.

Definition is_u64 (z : Z) : Prop := 0 ≤ z < 2 ^ 64.

Definition is_int (z : Z) : Prop := - 2 ^ 31 ≤ z < 2 ^ 31.

Inductive ub : Set :=
| DivByZero
| ShiftTooWide
| SignedOverflow
| OutOfBounds
| EmptyFront.

Inductive result (A : Type) : Type :=
| Ok (a : A)
| Throw (msg : string)
| Undefined (why : ub).

Arguments Ok {A} a.
Arguments Throw {A} msg.
Arguments Undefined {A} why.

#[global] Instance result_ret : MRet result := λ A a, Ok a.

#[global] Instance result_bind : MBind result := λ A B f m,
  match m with
  | Ok a => f a
  | Throw msg => Throw msg
  | Undefined why => Undefined why
  end.

(** [x / y] on [u64]. *)
Definition udiv64 (x y : Z) : result Z :=
  if y =? 0 then Undefined DivByZero else Ok (x / y).

(** [x % y] on [u64]. *)
Definition urem64 (x y : Z) : result Z :=
  if y =? 0 then Undefined DivByZero else Ok (x mod y).

(** [x >> n] on [u64]. *)
Definition shr64 (x n : Z) : result Z :=
  if (0 <=? n) && (n <? 64) then Ok (Z.shiftr x n) else Undefined ShiftTooWide.

(** [x << n] on [u64]. *)
Definition shl64 (x n : Z) : result Z :=
  if (0 <=? n) && (n <? 64) then Ok (wrap64 (Z.shiftl x n))
  else Undefined ShiftTooWide.

(** [x - y] on [int]. *)
Definition sub_int (x y : Z) : result Z :=
  let r := x - y in
  if (- 2 ^ 31 <=? r) && (r <? 2 ^ 31) then Ok r else Undefined SignedOverflow.

(** [v[i]] on a [std::vector]. *)
Definition vec_at {A : Type} (v : list A) (i : Z) : result A :=
  if i <? 0 then Undefined OutOfBounds
  else match v !! Z.to_nat i with
       | Some x => Ok x
       | None => Undefined OutOfBounds
       end.

(** [(int)round(log2(x))] before the cast: the integer nearest to [log2 x].
    [x * x] lies in [[2^(2r-1), 2^(2r+1))] exactly when [r] is that integer,
    and no integer has an odd power of two as its square, so there are no
    ties. *)
Definition round_log2 (x : Z) : Z := (Z.log2 (x * x) + 1) / 2.

(** [order.erase(it)] where [it] designates the node holding [x]. *)
Fixpoint erase (x : Z) (l : list Z) : list Z :=
  match l with
  | [] => []
  | y :: l' => if decide (x = y) then l' else y :: erase x l'
  end.

(** [(int)order.size()] *)
Definition size_int (l : list Z) : Z := to_int (Z.of_nat (length l)).

(** ** The fully-associative LRU reference cache *)

Module FullyAssocLRU.

(** [calls] is a ghost counter of the invocations of [access]; the source
    has no such field. *)
Record t : Type := mk {
  capacity : Z;
  order : list Z;      (* front = oldest, back = newest *)
  pos : gset Z;
  calls : nat
}.

Definition new (cap : Z) : t := mk cap [] ∅ 0.

Definition access (fa : t) (block_addr : Z) : t * bool :=
  if bool_decide (block_addr ∈ pos fa) then
    (mk (capacity fa)
        (erase block_addr (order fa) ++ [block_addr])
        ({[block_addr]} ∪ pos fa)
        (S (calls fa)),
     true)
  else
    let '(order1, pos1) :=
      if (capacity fa <=? size_int (order fa)) && (0 <? capacity fa) then
        match order fa with
        | ev :: rest => (rest, pos fa ∖ {[ev]})
        | [] => ([], pos fa)      (* not reached: the size is positive *)
        end
      else (order fa, pos fa) in
    (mk (capacity fa) (order1 ++ [block_addr]) ({[block_addr]} ∪ pos1)
        (S (calls fa)),
     false).

(** The reference cache run on its own over a sequence of block ids. *)
Fixpoint run (fa : t) (blocks : list Z) : t * list bool :=
  match blocks with
  | [] => (fa, [])
  | b :: bs =>
      let '(fa1, h) := access fa b in
      let '(fa2, hs) := run fa1 bs in
      (fa2, h :: hs)
  end.

End FullyAssocLRU.

(** ** One set of the simulated cache ([struct Set]) *)

Module CacheSet.

Record t : Type := mk {
  assoc : Z;
  isLRU : bool;
  order : list Z;      (* front = oldest, back = newest *)
  pos : gset Z;        (* used only for LRU *)
  present : gset Z     (* used for FIFO membership *)
}.

Definition new (a : Z) (lru : bool) : t := mk a lru [] ∅ ∅.

Definition contains (s : t) (tag : Z) : bool :=
  if isLRU s then bool_decide (tag ∈ pos s)
  else bool_decide (tag ∈ present s).

Definition touch (s : t) (tag : Z) : t :=
  if negb (isLRU s) then s
  else if negb (bool_decide (tag ∈ pos s)) then s
  else mk (assoc s) (isLRU s) (erase tag (order s) ++ [tag])
          ({[tag]} ∪ pos s) (present s).

(** [order.push_back(tag)] followed by the membership update. *)
Definition push (s : t) (tag : Z) : t :=
  if isLRU s
  then mk (assoc s) (isLRU s) (order s ++ [tag]) ({[tag]} ∪ pos s) (present s)
  else mk (assoc s) (isLRU s) (order s ++ [tag]) (pos s) ({[tag]} ∪ present s).

Definition insert (s : t) (tag : Z) : result t :=
  if contains s tag then
    Ok (if isLRU s then touch s tag else s)
  else if size_int (order s) <? assoc s then
    Ok (push s tag)
  else
    match order s with
    | [] => Undefined EmptyFront
    | ev :: rest =>
        let s1 :=
          if isLRU s
          then mk (assoc s) (isLRU s) rest (pos s ∖ {[ev]}) (present s)
          else mk (assoc s) (isLRU s) rest (pos s) (present s ∖ {[ev]}) in
        Ok (push s1 tag)
    end.

(** What [Cache::access] does to the set it selects: a resident tag is
    touched (a no-op under FIFO), an absent one is inserted. *)
Definition reference (s : t) (tag : Z) : result t :=
  if contains s tag then Ok (touch s tag) else insert s tag.

Fixpoint references (s : t) (tags : list Z) : result t :=
  match tags with
  | [] => Ok s
  | tag :: rest => s1 ← reference s tag; references s1 rest
  end.

End CacheSet.

(** ** The simulator ([struct Cache]) *)

Inductive classification : Set :=
| HIT
| MISS_COMPULSORY
| MISS_CONFLICT
| MISS_CAPACITY.

(** The string [Cache::access] returns for each classification. *)
Definition classification_string (k : classification) : string :=
  match k with
  | HIT => "HIT"
  | MISS_COMPULSORY => "MISS-Compulsory"
  | MISS_CONFLICT => "MISS-Conflict"
  | MISS_CAPACITY => "MISS-Capacity"
  end.

Module Cache.

Record t : Type := mk {
  cache_size : Z;
  block_size : Z;
  assoc : Z;
  policy : string;
  num_sets : Z;
  offset_bits : Z;
  index_bits : Z;
  tag_bits : Z;
  sets : list CacheSet.t;
  fa_sim : FullyAssocLRU.t;
  accesses : Z;
  hits : Z;
  misses : Z;
  miss_compulsory : Z;
  miss_capacity : Z;
  miss_conflict : Z;
  seen_blocks : gset Z;
  verbose : bool
}.

(** [pol == "LRU" || pol == "lru"] *)
Definition is_lru (pol : string) : bool :=
  String.eqb pol "LRU" || String.eqb pol "lru".

(** The constructor.  The member initialiser [fa_sim((int)(cs / bs))] is
    evaluated before the body, hence before the test of [block_size].
    [sets.reserve(num_sets)] converts a negative [num_sets] to a size
    beyond [max_size()] and throws [std::length_error]. *)
Definition new (cs bs a : Z) (pol : string) (addr_bits : Z) (verb : bool)
  : result t :=
  cap ← udiv64 cs bs;
  let fa := FullyAssocLRU.new (to_int cap) in
  if bs =? 0 then Throw "block_size must be > 0" else
  let ways := wrap64 (bs * wrap64 a) in
  r ← urem64 cs ways;
  if negb (r =? 0)
  then Throw "cache_size must be divisible by (block_size * assoc)" else
  q ← udiv64 cs ways;
  let nsets := to_int q in
  let obits := to_int (round_log2 bs) in
  let ibits := if 1 <? nsets then to_int (round_log2 nsets) else 0 in
  d ← sub_int addr_bits ibits;
  tbits ← sub_int d obits;
  let lru := is_lru pol in
  if nsets <? 0 then Throw "vector::reserve" else
  Ok (mk cs bs a pol nsets obits ibits tbits
         (replicate (Z.to_nat nsets) (CacheSet.new a lru))
         fa 0 0 0 0 0 0 ∅ verb).

(** [addr >> offset_bits], the block id. *)
Definition block_id (c : t) (addr : Z) : result Z :=
  shr64 addr (offset_bits c).

Definition decompose (c : t) (addr : Z) : result (Z * Z) :=
  block_addr ← shr64 addr (offset_bits c);
  index ← (if 1 <? num_sets c
           then one ← shl64 1 (index_bits c);
                Ok (to_int (Z.land block_addr (wrap64 (one - 1))))
           else Ok 0);
  tag ← shr64 block_addr (index_bits c);
  Ok (tag, index).

(** The state after an access: new counters, sets, oracle and seen set. *)
Definition update (c : t) (h m mco mca mcf : Z) (ss : list CacheSet.t)
    (fa : FullyAssocLRU.t) (seen : gset Z) : t :=
  mk (cache_size c) (block_size c) (assoc c) (policy c) (num_sets c)
     (offset_bits c) (index_bits c) (tag_bits c) ss fa
     (wrap64 (accesses c + 1)) h m mco mca mcf seen (verbose c).

Definition access (c : t) (addr : Z) : result (t * (bool * classification)) :=
  block_addr ← shr64 addr (offset_bits c);
  '(tag, idx) ← decompose c addr;
  let first_time := bool_decide (block_addr ∉ seen_blocks c) in
  let seen := {[block_addr]} ∪ seen_blocks c in
  s ← vec_at (sets c) idx;
  if CacheSet.contains s tag then
    let s1 := if is_lru (policy c) then CacheSet.touch s tag else s in
    let '(fa, _) := FullyAssocLRU.access (fa_sim c) block_addr in
    Ok (update c (wrap64 (hits c + 1)) (misses c) (miss_compulsory c)
               (miss_capacity c) (miss_conflict c)
               (<[Z.to_nat idx := s1]> (sets c)) fa seen,
        (true, HIT))
  else
    let '(fa, fa_hit) := FullyAssocLRU.access (fa_sim c) block_addr in
    if first_time then
      s1 ← CacheSet.insert s tag;
      Ok (update c (hits c) (wrap64 (misses c + 1))
                 (wrap64 (miss_compulsory c + 1))
                 (miss_capacity c) (miss_conflict c)
                 (<[Z.to_nat idx := s1]> (sets c)) fa seen,
          (false, MISS_COMPULSORY))
    else if fa_hit then
      s1 ← CacheSet.insert s tag;
      Ok (update c (hits c) (wrap64 (misses c + 1)) (miss_compulsory c)
                 (miss_capacity c) (wrap64 (miss_conflict c + 1))
                 (<[Z.to_nat idx := s1]> (sets c)) fa seen,
          (false, MISS_CONFLICT))
    else
      s1 ← CacheSet.insert s tag;
      Ok (update c (hits c) (wrap64 (misses c + 1)) (miss_compulsory c)
                 (wrap64 (miss_capacity c + 1)) (miss_conflict c)
                 (<[Z.to_nat idx := s1]> (sets c)) fa seen,
          (false, MISS_CAPACITY)).

(** The trace loop of [main]: one [access] per address, in order. *)
Fixpoint run (c : t) (trace : list Z)
  : result (t * list (bool * classification)) :=
  match trace with
  | [] => Ok (c, [])
  | addr :: rest =>
      '(c1, o) ← access c addr;
      '(c2, os) ← run c1 rest;
      Ok (c2, o :: os)
  end.

End Cache.

(** ** The driver ([main]) and the library calls it makes

    [std::stoull] and [std::stoi] are the C++ library's, defined through
    [strtoull] and [strtol] in the C locale: leading [isspace] characters
    are skipped, a sign is accepted, with base 16 a prefix [0x] is
    accepted, the longest run of digits is converted and what follows it
    is ignored; [invalid_argument] is thrown when no digit was converted
    and [out_of_range] when the value does not fit. *)

Inductive conversion : Set :=
| Value (v : Z)
| InvalidArgument
| OutOfRange.

Definition code (ch : Ascii.ascii) : Z := Z.of_N (Ascii.N_of_ascii ch).

(** [isspace] in the C locale: space, [\t], [\n], [\v], [\f], [\r]. *)
Definition isspace (ch : Ascii.ascii) : bool :=
  (code ch =? 32) || ((9 <=? code ch) && (code ch <=? 13)).

(** The value of [ch] as a digit of [base], if it is one. *)
Definition digit_value (base : Z) (ch : Ascii.ascii) : option Z :=
  let n := code ch in
  let v := if (48 <=? n) && (n <=? 57) then Some (n - 48)
           else if (97 <=? n) && (n <=? 122) then Some (n - 87)
           else if (65 <=? n) && (n <=? 90) then Some (n - 55)
           else None in
  match v with
  | Some d => if d <? base then Some d else None
  | None => None
  end.

Fixpoint skip_spaces (s : string) : string :=
  match s with
  | String ch rest => if isspace ch then skip_spaces rest else s
  | EmptyString => s
  end.

(** The digits at the front of [s], accumulated onto [acc] without bound. *)
Fixpoint read_digits (base acc : Z) (s : string) : Z :=
  match s with
  | String ch rest =>
      match digit_value base ch with
      | Some d => read_digits base (acc * base + d) rest
      | None => acc
      end
  | EmptyString => acc
  end.

Definition starts_with_digit (base : Z) (s : string) : bool :=
  match s with
  | String ch _ => bool_decide (is_Some (digit_value base ch))
  | EmptyString => false
  end.

(** The sign and the magnitude [strtoull] and [strtol] read from [s], or
    [None] when they convert nothing.  A prefix [0x] that no hexadecimal
    digit follows converts its [0]. *)
Definition read_integer (base : Z) (s : string) : option (bool * Z) :=
  let s := skip_spaces s in
  let '(negative, s) :=
    match s with
    | String ch rest =>
        if Ascii.eqb ch "-" then (true, rest)
        else if Ascii.eqb ch "+" then (false, rest)
        else (false, s)
    | EmptyString => (false, s)
    end in
  let prefixed :=
    match s with
    | String z (String x rest) =>
        if (base =? 16) && Ascii.eqb z "0"
           && (Ascii.eqb x "x" || Ascii.eqb x "X")
        then Some rest else None
    | _ => None
    end in
  match prefixed with
  | Some rest => Some (negative, read_digits base 0 rest)
  | None =>
      if starts_with_digit base s
      then Some (negative, read_digits base 0 s)
      else None
  end.

(** [std::stoull(s, nullptr, base)]: a negative value is negated in
    [u64]. *)
Definition stoull (base : Z) (s : string) : conversion :=
  match read_integer base s with
  | None => InvalidArgument
  | Some (negative, m) =>
      if 2 ^ 64 <=? m then OutOfRange
      else Value (if negative then wrap64 (- m) else m)
  end.

(** [std::stoi(s)] *)
Definition stoi (s : string) : conversion :=
  match read_integer 10 s with
  | None => InvalidArgument
  | Some (negative, m) =>
      let v := if negative then - m else m in
      if (- 2 ^ 31 <=? v) && (v <? 2 ^ 31) then Value v else OutOfRange
  end.

(** [s.find(ch)] *)
Fixpoint find_char (ch : Ascii.ascii) (s : string) : option nat :=
  match s with
  | EmptyString => None
  | String c rest =>
      if Ascii.eqb c ch then Some 0%nat else S <$> find_char ch rest
  end.

(** The characters of [" \t\r\n"]. *)
Definition is_blank (ch : Ascii.ascii) : bool :=
  (code ch =? 32) || (code ch =? 9) || (code ch =? 13) || (code ch =? 10).

(** [s.find_first_not_of(" \t\r\n")] *)
Fixpoint find_first_not_of (s : string) : option nat :=
  match s with
  | EmptyString => None
  | String c rest =>
      if is_blank c then S <$> find_first_not_of rest else Some 0%nat
  end.

(** [s.find_last_not_of(" \t\r\n")] *)
Fixpoint find_last_not_of (s : string) : option nat :=
  match s with
  | EmptyString => None
  | String c rest =>
      match find_last_not_of rest with
      | Some i => Some (S i)
      | None => if is_blank c then None else Some 0%nat
      end
  end.

(** [token.rfind(p, 0) == 0]: [p] is a prefix of [token]. *)
Definition starts_with (p token : string) : bool := String.prefix p token.

(** [line.substr(0, posc)] when [line.find('#')] finds [posc], else
    [line]. *)
Definition strip_comment (line : string) : string :=
  match find_char "#"%char line with
  | Some posc => String.substring 0 posc line
  | None => line
  end.

(** [line.substr(l, r - l + 1)] for the first and the last character [l] and
    [r] of [line] that are not blank; [None] when all are blank. *)
Definition token_of (line : string) : option string :=
  match find_first_not_of line with
  | None => None
  | Some l =>
      match find_last_not_of line with
      | None => None
      | Some r => Some (String.substring l (r - l + 1) line)
      end
  end.

(** The body of the trace loop up to the call of [access]: the address on
    the line, or [None] when the line is skipped. *)
Definition parse_line (line : string) : option Z :=
  match token_of (strip_comment line) with
  | None => None
  | Some token =>
      if String.eqb token "" then None
      else
        let conv :=
          if starts_with "0x" token || starts_with "0X" token
          then stoull 16 token else stoull 10 token in
        match conv with
        | Value addr => Some addr
        | _ => None
        end
  end.

(** The lines [getline] delivers: the pieces of the contents between line
    feeds.  (A piece after the last line feed is delivered by [getline]
    only when it is not empty; an empty line is skipped by [parse_line]
    anyway.) *)
Fixpoint split_lines (contents : string) : list string :=
  match contents with
  | EmptyString => [EmptyString]
  | String c rest =>
      if Ascii.eqb c "010"%char then EmptyString :: split_lines rest
      else match split_lines rest with
           | line :: lines => String c line :: lines
           | [] => [String c EmptyString]
           end
  end.

(** The addresses the trace loop passes to [access], in order. *)
Definition addresses (contents : string) : list Z :=
  omap parse_line (split_lines contents).

(** What [Cache::summary] prints, the hit rate apart. *)
Record report : Type := mk_report {
  r_cache_size : Z;
  r_block_size : Z;
  r_assoc : Z;
  r_num_sets : Z;
  r_policy : string;
  r_offset_bits : Z;
  r_index_bits : Z;
  r_tag_bits : Z;
  r_accesses : Z;
  r_hits : Z;
  r_misses : Z;
  r_miss_compulsory : Z;
  r_miss_conflict : Z;
  r_miss_capacity : Z
}.

Definition summary (c : Cache.t) : report :=
  mk_report (Cache.cache_size c) (Cache.block_size c) (Cache.assoc c)
    (Cache.num_sets c) (Cache.policy c) (Cache.offset_bits c)
    (Cache.index_bits c) (Cache.tag_bits c) (Cache.accesses c)
    (Cache.hits c) (Cache.misses c) (Cache.miss_compulsory c)
    (Cache.miss_conflict c) (Cache.miss_capacity c).

(** How the process ends: by returning from [main] (with the summary it
    printed, if any), by an exception that leaves [main]
    ([std::terminate]), or in undefined behaviour. *)
Inductive ending : Type :=
| Exit (status : Z) (printed : option report)
| Terminate
| Undefined_ending (why : ub).

Definition is_verbose_flag (s : string) : bool :=
  String.eqb s "-v" || String.eqb s "--verbose".

(** The positional argument [i] converted by [conv], or [default]. *)
Definition positional (conv : string → conversion) (pos : list string)
    (i : nat) (default : Z) : option Z :=
  match pos !! i with
  | None => Some default
  | Some s => match conv s with Value v => Some v | _ => None end
  end.

(** [main].  [prog] is [argv[0]] and [args] are the arguments after it, so
    [argc] is one more than their number; [open] gives the contents of the
    files that can be opened. *)
Definition main (prog : string) (args : list string)
    (open : string → option string) : ending :=
  match args with
  | [] => Exit 1 None
  | trace :: rest =>
      let verbose := existsb is_verbose_flag rest in
      let pos := List.filter (λ s, negb (is_verbose_flag s)) rest in
      match positional (stoull 10) pos 0 32768,
            positional (stoull 10) pos 1 64,
            positional stoi pos 2 4,
            positional stoi pos 4 32 with
      | Some cache_size, Some block_size, Some assoc, Some addr_bits =>
          let policy := default "LRU" (pos !! 3%nat) in
          match Cache.new cache_size block_size assoc policy addr_bits
                  verbose with
          | Throw _ => Exit 3 None
          | Undefined why => Undefined_ending why
          | Ok sim =>
              match open trace with
              | None => Exit 2 None
              | Some contents =>
                  match Cache.run sim (addresses contents) with
                  | Ok (sim', _) => Exit 0 (Some (summary sim'))
                  | Throw _ => Exit 3 None
                  | Undefined why => Undefined_ending why
                  end
              end
          end
      | _, _, _, _ => Terminate
      end
  end.

(** ** Vocabulary of the statements *)

(** The part of the state that [access] never changes, as the constructor
    leaves it. *)
Record geometry (c : Cache.t) : Prop := mk_geometry {
  geom_index_bits : 0 ≤ Cache.index_bits c ≤ 31;
  geom_single : Cache.num_sets c ≤ 1 → Cache.index_bits c = 0;
  geom_num_sets : 0 ≤ Cache.num_sets c;
  geom_sets : length (Cache.sets c) = Z.to_nat (Cache.num_sets c)
}.

(** The counters after a hit, and after a miss of each kind. *)
Inductive outcome (c : Cache.t) (s : CacheSet.t) (tag b : Z)
  : CacheSet.t → Z → Z → Z → Z → Z → bool * classification → Prop :=
| outcome_hit :
    CacheSet.contains s tag = true →
    outcome c s tag b
      (if Cache.is_lru (Cache.policy c) then CacheSet.touch s tag else s)
      (wrap64 (Cache.hits c + 1)) (Cache.misses c) (Cache.miss_compulsory c)
      (Cache.miss_capacity c) (Cache.miss_conflict c) (true, HIT)
| outcome_compulsory s1 :
    CacheSet.contains s tag = false →
    CacheSet.insert s tag = Ok s1 →
    b ∉ Cache.seen_blocks c →
    outcome c s tag b s1
      (Cache.hits c) (wrap64 (Cache.misses c + 1))
      (wrap64 (Cache.miss_compulsory c + 1))
      (Cache.miss_capacity c) (Cache.miss_conflict c) (false, MISS_COMPULSORY)
| outcome_conflict s1 :
    CacheSet.contains s tag = false →
    CacheSet.insert s tag = Ok s1 →
    b ∈ Cache.seen_blocks c →
    (FullyAssocLRU.access (Cache.fa_sim c) b).2 = true →
    outcome c s tag b s1
      (Cache.hits c) (wrap64 (Cache.misses c + 1)) (Cache.miss_compulsory c)
      (Cache.miss_capacity c) (wrap64 (Cache.miss_conflict c + 1))
      (false, MISS_CONFLICT)
| outcome_capacity s1 :
    CacheSet.contains s tag = false →
    CacheSet.insert s tag = Ok s1 →
    b ∈ Cache.seen_blocks c →
    (FullyAssocLRU.access (Cache.fa_sim c) b).2 = false →
    outcome c s tag b s1
      (Cache.hits c) (wrap64 (Cache.misses c + 1)) (Cache.miss_compulsory c)
      (wrap64 (Cache.miss_capacity c + 1)) (Cache.miss_conflict c)
      (false, MISS_CAPACITY).

(** The two sums as the program would compare them, in [u64] arithmetic. *)
Definition counters_wrap (c : Cache.t) : Prop :=
  wrap64 (Cache.hits c + Cache.misses c) = Cache.accesses c ∧
  wrap64 (Cache.miss_compulsory c + Cache.miss_conflict c + Cache.miss_capacity c)
    = Cache.misses c.

(** The two sums as integers, after [n] accesses. *)
Definition counters_exact (n : Z) (c : Cache.t) : Prop :=
  0 ≤ Cache.hits c ∧ 0 ≤ Cache.miss_compulsory c ∧
  0 ≤ Cache.miss_conflict c ∧ 0 ≤ Cache.miss_capacity c ∧
  Cache.hits c + Cache.misses c = Cache.accesses c ∧
  Cache.miss_compulsory c + Cache.miss_conflict c + Cache.miss_capacity c
    = Cache.misses c ∧
  Cache.accesses c = n.

(** Tag and set index as functions of the block id. *)
Definition tag_of (c : Cache.t) (b : Z) : Z := Z.shiftr b (Cache.index_bits c).

Definition index_of (c : Cache.t) (b : Z) : Z :=
  if 1 <? Cache.num_sets c then b mod 2 ^ Cache.index_bits c else 0.

(** Every block with a line resident in its set has been seen. *)
Definition resident_seen (c : Cache.t) : Prop :=
  ∀ b s,
    Cache.sets c !! Z.to_nat (index_of c b) = Some s →
    CacheSet.contains s (tag_of c b) = true →
    b ∈ Cache.seen_blocks c.

(** The simulator state in which the single LRU set mirrors the oracle. *)
Definition mirrors (c : Cache.t) : Prop :=
  ∃ s,
    Cache.sets c = [s] ∧
    CacheSet.isLRU s = true ∧
    Cache.is_lru (Cache.policy c) = true ∧
    CacheSet.order s = FullyAssocLRU.order (Cache.fa_sim c) ∧
    CacheSet.pos s = FullyAssocLRU.pos (Cache.fa_sim c) ∧
    CacheSet.assoc s = FullyAssocLRU.capacity (Cache.fa_sim c) ∧
    0 < CacheSet.assoc s ∧
    Cache.num_sets c = 1 ∧
    Cache.index_bits c = 0 ∧
    0 ≤ Cache.offset_bits c < 64 ∧
    Cache.miss_conflict c = 0.

(** The same state under another policy string. *)
Definition with_policy (pol : string) (c : Cache.t) : Cache.t :=
  Cache.mk (Cache.cache_size c) (Cache.block_size c) (Cache.assoc c) pol
    (Cache.num_sets c) (Cache.offset_bits c) (Cache.index_bits c)
    (Cache.tag_bits c) (Cache.sets c) (Cache.fa_sim c) (Cache.accesses c)
    (Cache.hits c) (Cache.misses c) (Cache.miss_compulsory c)
    (Cache.miss_capacity c) (Cache.miss_conflict c) (Cache.seen_blocks c)
    (Cache.verbose c).

(** The order list after a reference to [t], for a set of [a] ways. *)
Definition next_order (a : Z) (lru : bool) (l : list Z) (t : Z) : list Z :=
  if bool_decide (t ∈ l) then (if lru then erase t l ++ [t] else l)
  else if Z.of_nat (length l) <? a then l ++ [t]
  else tail l ++ [t].

(** [s] is a set with room for its [assoc] ways that holds the tags [l],
    oldest first. *)
Definition holds (s : CacheSet.t) (l : list Z) : Prop :=
  CacheSet.order s = l ∧
  NoDup l ∧
  (∀ x, CacheSet.contains s x = true ↔ x ∈ l) ∧
  Z.of_nat (length l) ≤ CacheSet.assoc s < 2 ^ 31 ∧
  0 < CacheSet.assoc s.

(** A state in which every access is defined: the number of sets is the
    power of two [2^k], every set has at least one way, and the shift
    counts are valid. *)
Definition sound (k : Z) (c : Cache.t) : Prop :=
  geometry c ∧
  0 ≤ k ∧ Cache.num_sets c = 2 ^ k ∧ Cache.index_bits c = k ∧
  0 ≤ Cache.offset_bits c < 64 ∧
  Forall (λ s, 0 < CacheSet.assoc s) (Cache.sets c).

(** The list and the key set of the reference cache describe the same
    blocks, each once. *)
Definition oracle_consistent (fa : FullyAssocLRU.t) : Prop :=
  NoDup (FullyAssocLRU.order fa) ∧
  ∀ x, x ∈ FullyAssocLRU.pos fa ↔ x ∈ FullyAssocLRU.order fa.

(** The number of outcomes of classification [k] in a list of outcomes. *)
Fixpoint count_class (k : classification) (os : list (bool * classification))
  : nat :=
  match os with
  | [] => 0
  | (_, k') :: rest =>
      match k, k' with
      | HIT, HIT | MISS_COMPULSORY, MISS_COMPULSORY
      | MISS_CONFLICT, MISS_CONFLICT | MISS_CAPACITY, MISS_CAPACITY =>
          S (count_class k rest)
      | _, _ => count_class k rest
      end
  end.

(** Two sets of one way that hold the same line. *)
Definition same_line (s1 s2 : CacheSet.t) : Prop :=
  CacheSet.assoc s1 = 1 ∧ CacheSet.assoc s2 = 1 ∧
  ∃ l, holds s1 l ∧ holds s2 l.

(** Two simulator states that differ at most in the policy and in the
    representation of their one-way sets. *)
Definition same_but_policy (x1 x2 : Cache.t) : Prop :=
  Cache.offset_bits x1 = Cache.offset_bits x2 ∧
  Cache.index_bits x1 = Cache.index_bits x2 ∧
  Cache.num_sets x1 = Cache.num_sets x2 ∧
  Cache.fa_sim x1 = Cache.fa_sim x2 ∧
  Cache.seen_blocks x1 = Cache.seen_blocks x2 ∧
  Cache.accesses x1 = Cache.accesses x2 ∧
  Cache.hits x1 = Cache.hits x2 ∧
  Cache.misses x1 = Cache.misses x2 ∧
  Cache.miss_compulsory x1 = Cache.miss_compulsory x2 ∧
  Cache.miss_capacity x1 = Cache.miss_capacity x2 ∧
  Cache.miss_conflict x1 = Cache.miss_conflict x2 ∧
  Forall2 same_line (Cache.sets x1) (Cache.sets x2).

(** The same state with another value of the flag [verbose]. *)
Definition with_verbose (verb : bool) (c : Cache.t) : Cache.t :=
  Cache.mk (Cache.cache_size c) (Cache.block_size c) (Cache.assoc c)
    (Cache.policy c) (Cache.num_sets c) (Cache.offset_bits c)
    (Cache.index_bits c) (Cache.tag_bits c) (Cache.sets c) (Cache.fa_sim c)
    (Cache.accesses c) (Cache.hits c) (Cache.misses c)
    (Cache.miss_compulsory c) (Cache.miss_capacity c) (Cache.miss_conflict c)
    (Cache.seen_blocks c) verb.


(** Every block seen so far is resident in its set, or that set is full. *)
Definition kept_or_full (c : Cache.t) : Prop :=
  ∀ b s,
    b ∈ Cache.seen_blocks c →
    Cache.sets c !! Z.to_nat (index_of c b) = Some s →
    tag_of c b ∈ CacheSet.order s
    ∨ Z.of_nat (length (CacheSet.order s)) = CacheSet.assoc s.

(** The decimal digit [d] as a character. *)
Definition digit_char (d : Z) : Ascii.ascii :=
  Ascii.ascii_of_N (Z.to_N (48 + d)).

(** The hexadecimal digit [d] as a character, in upper or lower case. *)
Definition hex_char (upper : bool) (d : Z) : Ascii.ascii :=
  Ascii.ascii_of_N
    (Z.to_N (if d <? 10 then 48 + d else if upper then 55 + d else 87 + d)).

(** The digits [ds] written out, each by [to_char]. *)
Fixpoint numeral (to_char : Z → Ascii.ascii) (ds : list Z) : string :=
  match ds with
  | [] => EmptyString
  | d :: rest => String (to_char d) (numeral to_char rest)
  end.

(** The number that the digits [ds] write in base [base]. *)
Definition digits_value (base : Z) (ds : list Z) : Z :=
  foldl (λ acc d, acc * base + d) 0 ds.

(** Every character of [s] is one of [" \t\r\n"]. *)
Fixpoint all_blank (s : string) : bool :=
  match s with
  | EmptyString => true
  | String c rest => is_blank c && all_blank rest
  end.

(** The line feed. *)
Definition newline : string := String "010"%char EmptyString.

(** A token: not empty, and neither its first nor its last character is
    blank. *)
Definition solid (tok : string) : Prop :=
  find_first_not_of tok = Some 0%nat ∧
  find_last_not_of tok = Some (String.length tok - 1)%nat ∧
  (0 < String.length tok)%nat.

(** The conversion [conv] rejects the positional argument [i], which is
    present. *)
Definition rejected (conv : string → conversion) (pos : list string)
    (i : nat) : Prop :=
  ∃ s, pos !! i = Some s ∧ ∀ v, conv s ≠ Value v.

(** ** Basic facts about the machine model *)

Lemma bind_Ok {A B : Type} (m : result A) (f : A → result B) (b : B) :
  m ≫= f = Ok b → ∃ a, m = Ok a ∧ f a = Ok b.
Proof. destruct m as [a| |]; simpl; intros H; [eauto | done | done]. Qed.

Lemma to_int_small (z : Z) : - 2 ^ 31 ≤ z < 2 ^ 31 → to_int z = z.
Proof. intros H. unfold to_int. rewrite Z.mod_small; lia. Qed.

Lemma to_int_range (z : Z) : - 2 ^ 31 ≤ to_int z < 2 ^ 31.
Proof.
  unfold to_int. pose proof (Z.mod_pos_bound (z + 2 ^ 31) (2 ^ 32)). lia.
Qed.

Lemma wrap64_small (z : Z) : 0 ≤ z < 2 ^ 64 → wrap64 z = z.
Proof. intros H. unfold wrap64. rewrite Z.mod_small; lia. Qed.

Lemma wrap64_add_l (x y : Z) : wrap64 (wrap64 x + y) = wrap64 (x + y).
Proof. unfold wrap64. by rewrite Zplus_mod_idemp_l. Qed.

Lemma wrap64_add_r (x y : Z) : wrap64 (x + wrap64 y) = wrap64 (x + y).
Proof. unfold wrap64. by rewrite Zplus_mod_idemp_r. Qed.

Lemma wrap64_add_l2 (x y z : Z) : wrap64 (wrap64 x + y + z) = wrap64 (x + y + z).
Proof. by rewrite <- !Z.add_assoc, wrap64_add_l. Qed.

Lemma wrap64_add_mid (x y z : Z) : wrap64 (x + wrap64 y + z) = wrap64 (x + y + z).
Proof.
  rewrite (Z.add_comm x (wrap64 y)), wrap64_add_l2. f_equal. lia.
Qed.

(** Equations between wrapped sums of counters. *)
Ltac wrap_solve :=
  repeat first [ rewrite wrap64_add_l2 | rewrite wrap64_add_mid
               | rewrite wrap64_add_l | rewrite wrap64_add_r ];
  f_equal; lia.

Lemma round_log2_pow2 (k : Z) : 0 ≤ k → round_log2 (2 ^ k) = k.
Proof.
  intros Hk. unfold round_log2.
  rewrite <- Z.pow_add_r, Z.log2_pow2 by lia.
  replace (k + k + 1) with (1 + k * 2) by lia.
  rewrite Z.div_add by lia. reflexivity.
Qed.

Lemma round_log2_small (n : Z) : 1 ≤ n < 2 ^ 31 → 0 ≤ round_log2 n ≤ 31.
Proof.
  intros Hn. unfold round_log2.
  assert (Hsq : 0 < n * n < 2 ^ 62) by nia.
  pose proof (Z.log2_nonneg (n * n)) as H0.
  assert (H1 : Z.log2 (n * n) < 62) by (apply Z.log2_lt_pow2; lia).
  split.
  - apply Z.div_pos; lia.
  - apply Z.div_le_upper_bound; lia.
Qed.

Lemma shr64_Ok (x n : Z) : 0 ≤ n < 64 → shr64 x n = Ok (Z.shiftr x n).
Proof.
  intros Hn. unfold shr64.
  destruct (Z.leb_spec 0 n), (Z.ltb_spec n 64); simpl; try lia. reflexivity.
Qed.

Lemma shr64_inv (x n r : Z) : shr64 x n = Ok r → 0 ≤ n < 64 ∧ r = Z.shiftr x n.
Proof.
  unfold shr64.
  destruct (Z.leb_spec 0 n), (Z.ltb_spec n 64); simpl; intros Hr;
    inversion Hr; lia.
Qed.

Lemma shl64_inv (x n r : Z) :
  shl64 x n = Ok r → 0 ≤ n < 64 ∧ r = wrap64 (Z.shiftl x n).
Proof.
  unfold shl64.
  destruct (Z.leb_spec 0 n), (Z.ltb_spec n 64); simpl; intros Hr;
    inversion Hr; lia.
Qed.

Lemma vec_at_inv {A : Type} (v : list A) (i : Z) (x : A) :
  vec_at v i = Ok x → 0 ≤ i ∧ v !! Z.to_nat i = Some x.
Proof.
  unfold vec_at. destruct (Z.ltb_spec i 0); [done |].
  destruct (v !! Z.to_nat i); [| done]. intros Hr; inversion Hr; auto.
Qed.

Lemma vec_at_Ok {A : Type} (v : list A) (i : Z) (x : A) :
  0 ≤ i → v !! Z.to_nat i = Some x → vec_at v i = Ok x.
Proof.
  intros Hi Hx. unfold vec_at. destruct (Z.ltb_spec i 0); [lia |].
  by rewrite Hx.
Qed.

(** ** The constructor *)

(** What a successful construction has computed. *)
Lemma new_inv (cs bs a : Z) (pol : string) (bits : Z) (verb : bool) (c : Cache.t) :
  Cache.new cs bs a pol bits verb = Ok c →
  ∃ tbits : Z,
    let ways := wrap64 (bs * wrap64 a) in
    let nsets := to_int (cs / ways) in
    bs ≠ 0 ∧ ways ≠ 0 ∧ cs mod ways = 0 ∧ 0 ≤ nsets ∧
    c = Cache.mk cs bs a pol nsets (to_int (round_log2 bs))
          (if 1 <? nsets then to_int (round_log2 nsets) else 0) tbits
          (replicate (Z.to_nat nsets) (CacheSet.new a (Cache.is_lru pol)))
          (FullyAssocLRU.new (to_int (cs / bs))) 0 0 0 0 0 0 ∅ verb.
Proof.
  unfold Cache.new, udiv64, urem64. simpl.
  destruct (Z.eqb_spec bs 0) as [Hbs | Hbs]; [done |]. simpl.
  destruct (Z.eqb_spec (wrap64 (bs * wrap64 a)) 0) as [Hw | Hw]; [done |]. simpl.
  destruct (Z.eqb_spec (cs mod wrap64 (bs * wrap64 a)) 0) as [Hr | Hr];
    [| done]. simpl.
  intros H. apply bind_Ok in H as (d & _ & H).
  apply bind_Ok in H as (tbits & _ & H).
  destruct (Z.ltb_spec (to_int (cs / wrap64 (bs * wrap64 a))) 0) as [Hn | Hn];
    [done |].
  inversion H. exists tbits. repeat split; auto.
Qed.

Lemma new_geometry (cs bs a : Z) (pol : string) (bits : Z) (verb : bool) (c : Cache.t) :
  Cache.new cs bs a pol bits verb = Ok c → geometry c.
Proof.
  intros H. apply new_inv in H as (tbits & Hbs & Hw & Hr & Hn & ->).
  set (nsets := to_int (cs / wrap64 (bs * wrap64 a))) in *.
  pose proof (to_int_range (cs / wrap64 (bs * wrap64 a))) as Hrange.
  fold nsets in Hrange.
  split; simpl.
  - destruct (Z.ltb_spec 1 nsets); [| lia].
    pose proof (round_log2_small nsets ltac:(lia)).
    rewrite to_int_small; lia.
  - intros Hle. destruct (Z.ltb_spec 1 nsets); [lia | done].
  - done.
  - by rewrite length_replicate.
Qed.

(** ** One access, case by case *)

Lemma access_inv (c : Cache.t) (addr : Z) (c' : Cache.t) (o : bool * classification) :
  Cache.access c addr = Ok (c', o) →
  ∃ b tag idx s s1 h m mco mca mcf,
    Cache.block_id c addr = Ok b ∧
    Cache.decompose c addr = Ok (tag, idx) ∧
    0 ≤ idx ∧ Cache.sets c !! Z.to_nat idx = Some s ∧
    outcome c s tag b s1 h m mco mca mcf o ∧
    c' = Cache.update c h m mco mca mcf (<[Z.to_nat idx := s1]> (Cache.sets c))
           (FullyAssocLRU.access (Cache.fa_sim c) b).1
           ({[b]} ∪ Cache.seen_blocks c).
Proof.
  unfold Cache.access, Cache.block_id. intros H.
  apply bind_Ok in H as (b & Hb & H).
  apply bind_Ok in H as ([tag idx] & Hd & H).
  apply bind_Ok in H as (s & Hs & H).
  apply vec_at_inv in Hs as [Hidx Hs].
  destruct (FullyAssocLRU.access (Cache.fa_sim c) b) as [fa fa_hit] eqn:Hfa.
  destruct (CacheSet.contains s tag) eqn:Hc.
  - inversion H; subst c' o.
    eexists b, tag, idx, s, _, _, _, _, _, _.
    repeat split; eauto; [by apply outcome_hit | by rewrite Hfa].
  - destruct (bool_decide (b ∉ Cache.seen_blocks c)) eqn:Hseen.
    + apply bool_decide_eq_true in Hseen.
      apply bind_Ok in H as (s1 & Hins & H). inversion H; subst c' o.
      eexists b, tag, idx, s, s1, _, _, _, _, _.
      repeat split; eauto; [apply outcome_compulsory; rewrite ?Hfa; done | by rewrite Hfa].
    + apply bool_decide_eq_false in Hseen.
      assert (Hin : b ∈ Cache.seen_blocks c).
      { destruct (decide (b ∈ Cache.seen_blocks c)); [done | contradiction]. }
      destruct fa_hit.
      * apply bind_Ok in H as (s1 & Hins & H). inversion H; subst c' o.
        eexists b, tag, idx, s, s1, _, _, _, _, _.
        repeat split; eauto; [apply outcome_conflict; rewrite ?Hfa; done | by rewrite Hfa].
      * apply bind_Ok in H as (s1 & Hins & H). inversion H; subst c' o.
        eexists b, tag, idx, s, s1, _, _, _, _, _.
        repeat split; eauto; [apply outcome_capacity; rewrite ?Hfa; done | by rewrite Hfa].
Qed.

(** ** Runs *)

Lemma run_cons_inv (c : Cache.t) (addr : Z) (rest : list Z) (c' : Cache.t)
    (os : list (bool * classification)) :
  Cache.run c (addr :: rest) = Ok (c', os) →
  ∃ c1 o os1,
    Cache.access c addr = Ok (c1, o) ∧ Cache.run c1 rest = Ok (c', os1) ∧
    os = o :: os1.
Proof.
  simpl. intros H.
  apply bind_Ok in H as ([c1 o] & Ha & H).
  apply bind_Ok in H as ([c2 os1] & Hr & H).
  inversion H; subst. eauto 6.
Qed.

Lemma run_app_inv (pre post : list Z) (c c' : Cache.t)
    (os : list (bool * classification)) :
  Cache.run c (pre ++ post) = Ok (c', os) →
  ∃ c1 os1 os2,
    Cache.run c pre = Ok (c1, os1) ∧ Cache.run c1 post = Ok (c', os2) ∧
    os = os1 ++ os2 ∧ length os1 = length pre.
Proof.
  revert c os. induction pre as [| addr pre IH]; intros c os H.
  - exists c, [], os. simpl. auto.
  - rewrite <- app_comm_cons in H.
    apply run_cons_inv in H as (c1 & o & os1 & Ha & Hr & ->).
    apply IH in Hr as (c2 & os2 & os3 & Hpre & Hpost & -> & Hlen).
    exists c2, (o :: os2), os3. simpl. rewrite Ha. simpl. rewrite Hpre. simpl.
    auto.
Qed.

(** A property kept by every access holds after every run. *)
Lemma run_invariant (P : Cache.t → Prop) :
  (∀ c addr c' o, P c → Cache.access c addr = Ok (c', o) → P c') →
  ∀ trace c c' os, P c → Cache.run c trace = Ok (c', os) → P c'.
Proof.
  intros Hstep trace. induction trace as [| addr trace IH]; intros c c' os HP H.
  - simpl in H. inversion H; subst. done.
  - apply run_cons_inv in H as (c1 & o & os1 & Ha & Hr & ->).
    eapply IH; [| exact Hr]. eapply Hstep; eauto.
Qed.

Lemma access_geometry (c : Cache.t) (addr : Z) (c' : Cache.t)
    (o : bool * classification) :
  geometry c → Cache.access c addr = Ok (c', o) → geometry c'.
Proof.
  intros [H1 H2 H3 H4] H.
  apply access_inv in H
    as (b & tag & idx & s & s1 & h & m & mco & mca & mcf & _ & _ & _ & _ & _ & ->).
  split; simpl; auto. by rewrite length_insert.
Qed.

Lemma access_fixed (c : Cache.t) (addr : Z) (c' : Cache.t)
    (o : bool * classification) :
  Cache.access c addr = Ok (c', o) →
  Cache.offset_bits c' = Cache.offset_bits c ∧
  Cache.index_bits c' = Cache.index_bits c ∧
  Cache.num_sets c' = Cache.num_sets c ∧
  Cache.policy c' = Cache.policy c.
Proof.
  intros H.
  apply access_inv in H
    as (b & tag & idx & s & s1 & h & m & mco & mca & mcf & _ & _ & _ & _ & _ & ->).
  auto.
Qed.

Lemma run_fixed (trace : list Z) (c c' : Cache.t)
    (os : list (bool * classification)) :
  Cache.run c trace = Ok (c', os) →
  Cache.offset_bits c' = Cache.offset_bits c ∧
  Cache.index_bits c' = Cache.index_bits c ∧
  Cache.num_sets c' = Cache.num_sets c ∧
  Cache.policy c' = Cache.policy c.
Proof.
  intros H.
  eapply (run_invariant (λ x,
    Cache.offset_bits x = Cache.offset_bits c ∧
    Cache.index_bits x = Cache.index_bits c ∧
    Cache.num_sets x = Cache.num_sets c ∧
    Cache.policy x = Cache.policy c)); [| | exact H]; [| done].
  intros c0 addr c1 o (<- & <- & <- & <-) Ha.
  eapply access_fixed; eauto.
Qed.

Lemma run_geometry (trace : list Z) (c c' : Cache.t)
    (os : list (bool * classification)) :
  geometry c → Cache.run c trace = Ok (c', os) → geometry c'.
Proof.
  intros Hg H. eapply (run_invariant geometry); eauto.
  intros; eapply access_geometry; eauto.
Qed.

(** ** Counters *)

Lemma access_counters_wrap (c : Cache.t) (addr : Z) (c' : Cache.t)
    (o : bool * classification) :
  counters_wrap c → Cache.access c addr = Ok (c', o) → counters_wrap c'.
Proof.
  intros [H1 H2] H.
  apply access_inv in H
    as (b & tag & idx & s & s1 & h & m & mco & mca & mcf & _ & _ & _ & _ & Ho & ->).
  unfold counters_wrap. simpl.
  destruct Ho; split; rewrite <- ?H1; try done; try (rewrite <- H2 at 2);
    try (rewrite <- H2); wrap_solve.
Qed.

Lemma access_counters_exact (n : Z) (c : Cache.t) (addr : Z) (c' : Cache.t)
    (o : bool * classification) :
  0 ≤ n → n + 1 < 2 ^ 64 →
  counters_exact n c → Cache.access c addr = Ok (c', o) →
  counters_exact (n + 1) c'.
Proof.
  intros Hn0 Hn (H1 & H2 & H3 & H4 & H5 & H6 & H7) H.
  apply access_inv in H
    as (b & tag & idx & s & s1 & h & m & mco & mca & mcf & _ & _ & _ & _ & Ho & ->).
  unfold counters_exact. simpl.
  destruct Ho; rewrite !wrap64_small by lia; lia.
Qed.

Lemma run_counters_exact (trace : list Z) (n : Z) (c c' : Cache.t)
    (os : list (bool * classification)) :
  0 ≤ n → n + Z.of_nat (length trace) < 2 ^ 64 →
  counters_exact n c → Cache.run c trace = Ok (c', os) →
  counters_exact (n + Z.of_nat (length trace)) c'.
Proof.
  revert n c os. induction trace as [| addr trace IH]; intros n c os Hn0 Hn Hc H.
  - simpl in *. inversion H; subst. by rewrite Z.add_0_r.
  - apply run_cons_inv in H as (c1 & o & os1 & Ha & Hr & ->).
    rewrite length_cons, Nat2Z.inj_succ in *.
    replace (n + Z.succ (Z.of_nat (length trace)))
      with (n + 1 + Z.of_nat (length trace)) by lia.
    eapply IH; [lia | lia | | exact Hr].
    eapply access_counters_exact; [| | exact Hc | exact Ha]; lia.
Qed.

(** C3. After any sequence of accesses to a constructed simulator,
    [hits + misses == accesses] and
    [miss_compulsory + miss_conflict + miss_capacity == misses] hold as the
    program evaluates them on [u64]; and they hold as equalities of integers
    as long as fewer than 2^64 accesses were made, when [accesses] is the
    length of the trace. *)
Theorem counters_consistent (cs bs a : Z) (pol : string) (bits : Z) (verb : bool)
    (c : Cache.t) (trace : list Z) (c' : Cache.t)
    (os : list (bool * classification)) :
  Cache.new cs bs a pol bits verb = Ok c →
  Cache.run c trace = Ok (c', os) →
  wrap64 (Cache.hits c' + Cache.misses c') = Cache.accesses c' ∧
  wrap64 (Cache.miss_compulsory c' + Cache.miss_conflict c'
          + Cache.miss_capacity c') = Cache.misses c' ∧
  (Z.of_nat (length trace) < 2 ^ 64 →
   Cache.hits c' + Cache.misses c' = Cache.accesses c' ∧
   Cache.miss_compulsory c' + Cache.miss_conflict c' + Cache.miss_capacity c'
     = Cache.misses c' ∧
   Cache.accesses c' = Z.of_nat (length trace)).
Proof.
  intros Hnew Hrun.
  apply new_inv in Hnew as (tbits & _ & _ & _ & _ & ->).
  assert (Hw : counters_wrap c').
  { eapply (run_invariant counters_wrap); [| | exact Hrun].
    - intros; eapply access_counters_wrap; eauto.
    - split; reflexivity. }
  destruct Hw as [Hw1 Hw2]. split; [done |]. split; [done |].
  intros Hlen.
  eapply (run_counters_exact trace 0) in Hrun; [| lia | lia |].
  - destruct Hrun as (_ & _ & _ & _ & H5 & H6 & H7). auto.
  - unfold counters_exact. simpl. lia.
Qed.

(** The trace [0, 64, 0] on a two-set direct-mapped cache. *)
Lemma counters_consistent_witness :
  ∃ c c' os,
    Cache.new 128 64 1 "LRU" 32 false = Ok c ∧
    Cache.run c [0; 64; 0] = Ok (c', os) ∧
    wrap64 (Cache.hits c' + Cache.misses c') = Cache.accesses c' ∧
    wrap64 (Cache.miss_compulsory c' + Cache.miss_conflict c'
            + Cache.miss_capacity c') = Cache.misses c' ∧
    Cache.hits c' + Cache.misses c' = Cache.accesses c' ∧
    Cache.miss_compulsory c' + Cache.miss_conflict c' + Cache.miss_capacity c'
      = Cache.misses c' ∧
    Cache.accesses c' = 3.
Proof.
  destruct (Cache.new 128 64 1 "LRU" 32 false) as [c | |] eqn:Hnew;
    [| vm_compute in Hnew; discriminate Hnew ..].
  destruct (Cache.run c [0; 64; 0]) as [[c' os] | |] eqn:Hrun;
    [| exfalso; vm_compute in Hnew; inversion Hnew; subst c;
       vm_compute in Hrun; discriminate Hrun ..].
  exists c, c', os. split; [reflexivity |]. split; [exact Hrun |].
  destruct (counters_consistent 128 64 1 "LRU" 32 false c [0; 64; 0] c' os
              Hnew Hrun) as (H1 & H2 & H3).
  destruct (H3 ltac:(simpl; lia)) as (H4 & H5 & H6).
  repeat split; assumption.
Defined.

(** ** The oracle is consulted once per access *)

Lemma oracle_calls (fa : FullyAssocLRU.t) (b : Z) :
  FullyAssocLRU.calls (FullyAssocLRU.access fa b).1 = S (FullyAssocLRU.calls fa).
Proof.
  unfold FullyAssocLRU.access.
  destruct (bool_decide (b ∈ FullyAssocLRU.pos fa)); [done |].
  destruct (_ && _); [destruct (FullyAssocLRU.order fa) |]; done.
Qed.

Lemma oracle_capacity (fa : FullyAssocLRU.t) (b : Z) :
  FullyAssocLRU.capacity (FullyAssocLRU.access fa b).1
  = FullyAssocLRU.capacity fa.
Proof.
  unfold FullyAssocLRU.access.
  destruct (bool_decide (b ∈ FullyAssocLRU.pos fa)); [done |].
  destruct (_ && _); [destruct (FullyAssocLRU.order fa) |]; done.
Qed.

(** The oracle after a run is the reference cache run over the block ids of
    the whole trace, hits and misses alike. *)
Lemma run_oracle (trace : list Z) (c c' : Cache.t)
    (os : list (bool * classification)) :
  Cache.run c trace = Ok (c', os) →
  Cache.fa_sim c'
  = (FullyAssocLRU.run (Cache.fa_sim c)
       (map (λ x, Z.shiftr x (Cache.offset_bits c)) trace)).1.
Proof.
  revert c os. induction trace as [| addr trace IH]; intros c os H.
  - simpl in H. by inversion H.
  - apply run_cons_inv in H as (c1 & o & os1 & Ha & Hr & ->).
    apply IH in Hr. rewrite Hr. simpl.
    destruct (access_fixed _ _ _ _ Ha) as (-> & _).
    apply access_inv in Ha
      as (b & tag & idx & s & s1 & h & m & mco & mca & mcf & Hb & _ & _ & _ & _ & ->).
    apply shr64_inv in Hb as [_ ->]. simpl.
    destruct (FullyAssocLRU.access _ _) as [fa1 h1]. simpl.
    by destruct (FullyAssocLRU.run fa1 _).
Qed.

(** Every block referenced by the trace is in the seen set afterwards. *)
Lemma run_seen_blocks_complete (trace : list Z) (c c' : Cache.t)
    (os : list (bool * classification)) (a b : Z) :
  Cache.run c trace = Ok (c', os) →
  a ∈ trace → Cache.block_id c a = Ok b →
  b ∈ Cache.seen_blocks c'.
Proof.
  intros Hrun Hin Hb.
  assert (Hmono : ∀ t x x' os', Cache.run x t = Ok (x', os') →
                    Cache.seen_blocks x ⊆ Cache.seen_blocks x').
  { induction t as [| y t IHt]; intros x x' os' H.
    - simpl in H. by inversion H.
    - apply run_cons_inv in H as (x1 & o & os1 & Ha & Hr & ->).
      apply IHt in Hr.
      apply access_inv in Ha
        as (b0 & tag & idx & s & s1 & h & m & mco & mca & mcf
            & _ & _ & _ & _ & _ & ->).
      simpl in Hr. set_solver. }
  revert c os Hrun Hb. induction trace as [| y trace IH]; intros c os Hrun Hb.
  - by inversion Hin.
  - apply run_cons_inv in Hrun as (c1 & o & os1 & Ha & Hr & ->).
    apply elem_of_cons in Hin as [-> | Hin].
    + apply (Hmono _ _ _ _ Hr).
      apply access_inv in Ha
        as (b0 & tag & idx & s & s1 & h & m & mco & mca & mcf
            & Hb0 & _ & _ & _ & _ & ->).
      rewrite Hb in Hb0. inversion Hb0. simpl. set_solver.
    + apply (IH Hin c1 os1 Hr).
      unfold Cache.block_id in *.
      by destruct (access_fixed _ _ _ _ Ha) as (-> & _).
Qed.

(** C1. In a run of a constructed simulator the oracle is the reference
    cache of capacity [(int)(cache_size / block_size)] on which [access] has
    been called once for each address of the trace so far, in order; an
    access that completes adds exactly one call, on the block id of its
    address, on a hit as on a miss; and a miss on a block id referenced
    earlier in the trace is classified [MISS_CONFLICT] exactly when that call
    reports a hit, [MISS_CAPACITY] exactly when it reports a miss. *)
Theorem oracle_classification (cs bs a : Z) (pol : string) (bits : Z)
    (verb : bool) (c0 : Cache.t) (pre : list Z) (c : Cache.t)
    (os : list (bool * classification)) (addr : Z) (c' : Cache.t)
    (hit : bool) (k : classification) :
  Cache.new cs bs a pol bits verb = Ok c0 →
  Cache.run c0 pre = Ok (c, os) →
  Cache.access c addr = Ok (c', (hit, k)) →
  ∃ b,
    Cache.block_id c0 addr = Ok b ∧
    Cache.fa_sim c
    = (FullyAssocLRU.run (FullyAssocLRU.new (to_int (cs / bs)))
         (map (λ x, Z.shiftr x (Cache.offset_bits c0)) pre)).1 ∧
    FullyAssocLRU.calls (Cache.fa_sim c) = length pre ∧
    Cache.fa_sim c' = (FullyAssocLRU.access (Cache.fa_sim c) b).1 ∧
    FullyAssocLRU.calls (Cache.fa_sim c') = S (length pre) ∧
    (hit = true ↔ k = HIT) ∧
    (hit = false →
     (∃ a', a' ∈ pre ∧ Cache.block_id c0 a' = Ok b) →
     (k = MISS_CONFLICT ↔ (FullyAssocLRU.access (Cache.fa_sim c) b).2 = true) ∧
     (k = MISS_CAPACITY ↔ (FullyAssocLRU.access (Cache.fa_sim c) b).2 = false)).
Proof.
  intros Hnew Hrun H.
  pose proof (run_oracle _ _ _ _ Hrun) as Hfa.
  assert (Hcalls : FullyAssocLRU.calls (Cache.fa_sim c)
                   = (FullyAssocLRU.calls (Cache.fa_sim c0) + length pre)%nat).
  { clear Hnew Hfa H. revert c0 os Hrun.
    induction pre as [| y pre IH]; intros c0 os Hrun.
    - simpl in Hrun. inversion Hrun. simpl. lia.
    - apply run_cons_inv in Hrun as (c1 & o & os1 & Ha & Hr & ->).
      rewrite (IH _ _ Hr).
      apply access_inv in Ha
        as (b0 & tag & idx & s & s1 & h & m & mco & mca & mcf
            & _ & _ & _ & _ & _ & ->).
      simpl. rewrite oracle_calls. lia. }
  assert (Hfa0 : Cache.fa_sim c0 = FullyAssocLRU.new (to_int (cs / bs))).
  { apply new_inv in Hnew as (tbits & _ & _ & _ & _ & ->). done. }
  rewrite Hfa0 in Hfa, Hcalls. simpl in Hcalls.
  destruct (run_fixed _ _ _ _ Hrun) as (Hob & _).
  pose proof H as Hacc.
  apply access_inv in H
    as (b & tag & idx & s & s1 & h & m & mco & mca & mcf & Hb & _ & _ & _ & Ho & ->).
  exists b. unfold Cache.block_id in *. rewrite Hob in Hb.
  split; [done |]. split; [done |]. split; [done |]. simpl.
  split; [done |]. split; [by rewrite oracle_calls, Hcalls |].
  assert (Hseen : (∃ a', a' ∈ pre ∧ shr64 a' (Cache.offset_bits c0) = Ok b) →
                  b ∈ Cache.seen_blocks c).
  { intros (a' & Hin & Ha').
    by apply (run_seen_blocks_complete pre c0 c os a' b Hrun Hin). }
  inversion Ho; subst; (split; [split; done |]); intros Hmiss Hearlier;
    try done; specialize (Hseen Hearlier); try done;
    split; split; try done; congruence.
Qed.

(** The second pass over address 0 in the trace [0, 64, 128, 0] on a
    two-set direct-mapped cache: a capacity miss, the fourth call of the
    oracle. *)
Lemma oracle_classification_witness :
  ∃ c0 c os c',
    Cache.new 128 64 1 "LRU" 32 false = Ok c0 ∧
    Cache.run c0 [0; 64; 128] = Ok (c, os) ∧
    Cache.access c 0 = Ok (c', (false, MISS_CAPACITY)) ∧
    Cache.fa_sim c' = (FullyAssocLRU.access (Cache.fa_sim c) 0).1 ∧
    FullyAssocLRU.calls (Cache.fa_sim c') = 4%nat ∧
    (FullyAssocLRU.access (Cache.fa_sim c) 0).2 = false.
Proof.
  destruct (Cache.new 128 64 1 "LRU" 32 false) as [c0 | |] eqn:Hnew;
    [| vm_compute in Hnew; discriminate Hnew ..].
  destruct (Cache.run c0 [0; 64; 128]) as [[c os] | |] eqn:Hrun;
    [| exfalso; vm_compute in Hnew; inversion Hnew; subst c0;
       vm_compute in Hrun; discriminate Hrun ..].
  assert (Hacc : ∃ c', Cache.access c 0 = Ok (c', (false, MISS_CAPACITY))).
  { vm_compute in Hnew; inversion Hnew; subst c0.
    vm_compute in Hrun; inversion Hrun; subst c os.
    vm_compute. eexists; reflexivity. }
  destruct Hacc as [c' Hacc].
  exists c0, c, os, c'. split; [reflexivity |]. split; [exact Hrun |].
  split; [exact Hacc |].
  destruct (oracle_classification 128 64 1 "LRU" 32 false c0 [0; 64; 128] c os
              0 c' false MISS_CAPACITY Hnew Hrun Hacc)
    as (b & Hb & _ & _ & Hfa & Hcalls & _ & Hk).
  assert (Hb0 : b = 0).
  { vm_compute in Hnew; inversion Hnew; subst c0.
    vm_compute in Hb. by inversion Hb. }
  subst b. split; [exact Hfa |]. split; [exact Hcalls |].
  apply Hk; [reflexivity | | reflexivity].
  exists 0. split; [apply list_elem_of_here | exact Hb].
Defined.

(** ** Residency in a set *)

Lemma touch_contains (s : CacheSet.t) (tag t : Z) :
  CacheSet.contains (CacheSet.touch s tag) t = true →
  t = tag ∨ CacheSet.contains s t = true.
Proof.
  unfold CacheSet.touch.
  destruct (CacheSet.isLRU s) eqn:Hlru; simpl; [| by auto].
  destruct (bool_decide (tag ∈ CacheSet.pos s)) eqn:Hin; simpl; [| by auto].
  unfold CacheSet.contains. simpl. rewrite Hlru.
  intros H. apply bool_decide_eq_true in H.
  apply elem_of_union in H as [H | H].
  - left. by apply elem_of_singleton in H.
  - right. by apply bool_decide_eq_true.
Qed.

Lemma push_contains (s : CacheSet.t) (tag t : Z) :
  CacheSet.contains (CacheSet.push s tag) t = true →
  t = tag ∨ CacheSet.contains s t = true.
Proof.
  unfold CacheSet.push, CacheSet.contains.
  destruct (CacheSet.isLRU s) eqn:Hlru; simpl; intros H;
    apply bool_decide_eq_true in H; apply elem_of_union in H as [H | H];
    (by left; apply elem_of_singleton in H) ||
    (by right; apply bool_decide_eq_true).
Qed.

Lemma insert_contains (s : CacheSet.t) (tag : Z) (s1 : CacheSet.t) (t : Z) :
  CacheSet.insert s tag = Ok s1 →
  CacheSet.contains s1 t = true →
  t = tag ∨ CacheSet.contains s t = true.
Proof.
  unfold CacheSet.insert.
  destruct (CacheSet.contains s tag) eqn:Hc.
  - intros H; inversion H; subst s1.
    destruct (CacheSet.isLRU s); [apply touch_contains | auto].
  - destruct (size_int (CacheSet.order s) <? CacheSet.assoc s).
    + intros H; inversion H; subst s1. apply push_contains.
    + destruct (CacheSet.order s) as [| ev rest]; [done |].
      intros H; inversion H; subst s1. intros Hin.
      apply push_contains in Hin as [Ht | Hold]; [by left | right].
      revert Hold. unfold CacheSet.contains.
      destruct (CacheSet.isLRU s); simpl; rewrite !bool_decide_eq_true;
        set_solver.
Qed.

Lemma new_contains (a : Z) (lru : bool) (t : Z) :
  CacheSet.contains (CacheSet.new a lru) t = false.
Proof. unfold CacheSet.contains, CacheSet.new. by destruct lru. Qed.

(** ** Address decomposition *)

Lemma mask_index (b ibits : Z) :
  0 ≤ ibits ≤ 31 →
  to_int (Z.land b (wrap64 (wrap64 (Z.shiftl 1 ibits) - 1))) = b mod 2 ^ ibits.
Proof.
  intros Hi.
  assert (Hpow : 0 < 2 ^ ibits ≤ 2 ^ 31).
  { split; [apply Z.pow_pos_nonneg; lia | apply Z.pow_le_mono_r; lia]. }
  rewrite Z.shiftl_1_l.
  rewrite (wrap64_small (2 ^ ibits)) by lia.
  rewrite wrap64_small by lia.
  replace (2 ^ ibits - 1) with (Z.ones ibits) by (rewrite Z.ones_equiv; lia).
  rewrite Z.land_ones by lia.
  pose proof (Z.mod_pos_bound b (2 ^ ibits)).
  apply to_int_small. lia.
Qed.

Lemma decompose_inv (c : Cache.t) (addr tag idx : Z) :
  geometry c →
  Cache.decompose c addr = Ok (tag, idx) →
  ∃ b, Cache.block_id c addr = Ok b ∧ tag = tag_of c b ∧ idx = index_of c b.
Proof.
  intros Hg. unfold Cache.decompose, Cache.block_id, tag_of, index_of. intros H.
  apply bind_Ok in H as (b & Hb & H). exists b. split; [done |].
  apply bind_Ok in H as (index & Hi & H).
  apply bind_Ok in H as (t & Ht & H).
  inversion H; subst t index.
  apply shr64_inv in Ht as [_ ->]. split; [done |].
  destruct (1 <? Cache.num_sets c); [| by inversion Hi].
  apply bind_Ok in Hi as (one & Hone & Hi).
  apply shl64_inv in Hone as [_ ->]. inversion Hi.
  apply mask_index, Hg.
Qed.

Lemma decompose_Ok (c : Cache.t) (addr : Z) :
  geometry c → 0 ≤ Cache.offset_bits c < 64 →
  Cache.decompose c addr
  = Ok (tag_of c (Z.shiftr addr (Cache.offset_bits c)),
        index_of c (Z.shiftr addr (Cache.offset_bits c))).
Proof.
  intros Hg Ho. pose proof (geom_index_bits c Hg) as Hi.
  unfold Cache.decompose, tag_of, index_of.
  rewrite shr64_Ok by done. simpl.
  destruct (1 <? Cache.num_sets c).
  - unfold shl64.
    destruct (Z.leb_spec 0 (Cache.index_bits c)),
      (Z.ltb_spec (Cache.index_bits c) 64); try lia.
    simpl. rewrite shr64_Ok by lia. simpl. by rewrite mask_index.
  - simpl. rewrite shr64_Ok by lia. done.
Qed.

Lemma index_of_range (c : Cache.t) (b : Z) :
  geometry c → 0 ≤ index_of c b.
Proof.
  intros Hg. unfold index_of. destruct (1 <? Cache.num_sets c); [| lia].
  apply Z.mod_pos_bound, Z.pow_pos_nonneg; [lia | apply Hg].
Qed.

(** The pair (tag, set index) determines the block id. *)
Lemma tag_index_inj (c : Cache.t) (b b' : Z) :
  geometry c →
  tag_of c b = tag_of c b' → index_of c b = index_of c b' → b = b'.
Proof.
  intros Hg. unfold tag_of, index_of.
  pose proof (geom_index_bits c Hg) as Hi.
  destruct (Z.ltb_spec 1 (Cache.num_sets c)) as [Hn | Hn].
  - rewrite !Z.shiftr_div_pow2 by lia. intros Ht Hm.
    rewrite (Z.div_mod b (2 ^ Cache.index_bits c)),
            (Z.div_mod b' (2 ^ Cache.index_bits c))
      by (apply Z.pow_nonzero; lia).
    by rewrite Ht, Hm.
  - rewrite (geom_single c Hg Hn), !Z.shiftr_0_r. auto.
Qed.

(** ** Runs on a well-formed geometry complete *)

(** With a power of two as number of sets, [index_bits] is its exponent. *)
Lemma pow2_index_bits (cs bs a : Z) (pol : string) (bits : Z) (verb : bool)
    (c : Cache.t) (k : Z) :
  Cache.new cs bs a pol bits verb = Ok c →
  0 ≤ k → Cache.num_sets c = 2 ^ k →
  Cache.index_bits c = k.
Proof.
  intros Hnew Hk Hn.
  apply new_inv in Hnew as (tbits & _ & _ & _ & _ & ->). simpl in *.
  pose proof (to_int_range (cs / wrap64 (bs * wrap64 a))) as Hr.
  rewrite Hn in *.
  assert (Hk31 : k < 31).
  { apply (Z.pow_lt_mono_r_iff 2); lia. }
  destruct (Z.ltb_spec 1 (2 ^ k)) as [Hgt | Hle].
  - rewrite round_log2_pow2 by done. apply to_int_small. lia.
  - destruct (Z.eq_dec k 0) as [-> | Hne]; [done |].
    assert (2 ^ 1 ≤ 2 ^ k) by (apply Z.pow_le_mono_r; lia). lia.
Qed.

Lemma insert_defined (s : CacheSet.t) (tag : Z) :
  0 < CacheSet.assoc s →
  ∃ s1, CacheSet.insert s tag = Ok s1 ∧ CacheSet.assoc s1 = CacheSet.assoc s.
Proof.
  intros Ha. unfold CacheSet.insert, CacheSet.touch, CacheSet.push.
  destruct (CacheSet.contains s tag).
  - eexists. split; [reflexivity |].
    destruct (CacheSet.isLRU s); simpl; [| done].
    by destruct (bool_decide (tag ∈ CacheSet.pos s)).
  - destruct (Z.ltb_spec (size_int (CacheSet.order s)) (CacheSet.assoc s))
      as [Hlt | Hge].
    + eexists. split; [reflexivity |]. by destruct (CacheSet.isLRU s).
    + destruct (CacheSet.order s) as [| ev rest].
      * exfalso. unfold size_int in Hge. simpl in Hge.
        rewrite to_int_small in Hge; lia.
      * eexists. split; [reflexivity |]. by destruct (CacheSet.isLRU s).
Qed.

Lemma touch_assoc (s : CacheSet.t) (tag : Z) :
  CacheSet.assoc (CacheSet.touch s tag) = CacheSet.assoc s.
Proof.
  unfold CacheSet.touch. destruct (CacheSet.isLRU s); simpl; [| done].
  by destruct (bool_decide (tag ∈ CacheSet.pos s)).
Qed.

Lemma access_defined (k : Z) (c : Cache.t) (addr : Z) :
  sound k c → ∃ c' o, Cache.access c addr = Ok (c', o) ∧ sound k c'.
Proof.
  intros (Hg & Hk & Hn & Hib & Hob & Hall).
  assert (Hpow : 0 < 2 ^ k) by (apply Z.pow_pos_nonneg; lia).
  set (b := Z.shiftr addr (Cache.offset_bits c)).
  assert (Hidx : 0 ≤ index_of c b < Cache.num_sets c).
  { unfold index_of. rewrite Hn, Hib.
    destruct (Z.ltb_spec 1 (2 ^ k)); [by apply Z.mod_pos_bound | lia]. }
  destruct (lookup_lt_is_Some_2 (Cache.sets c) (Z.to_nat (index_of c b)))
    as [s Hs]; [rewrite (geom_sets c Hg); lia |].
  pose proof (Forall_lookup_1 _ _ _ _ Hall Hs) as Hassoc. simpl in Hassoc.
  destruct (insert_defined s (tag_of c b) Hassoc) as (s1 & Hins & Hassoc1).
  assert (Hsound : ∀ h m mco mca mcf s2 fa seen,
            CacheSet.assoc s2 = CacheSet.assoc s →
            sound k (Cache.update c h m mco mca mcf
                       (<[Z.to_nat (index_of c b) := s2]> (Cache.sets c))
                       fa seen)).
  { intros h m mco mca mcf s2 fa seen Hs2.
    destruct Hg as [G1 G2 G3 G4].
    split; [split; simpl; auto; by rewrite length_insert |].
    simpl. repeat split; auto; try lia.
    apply Forall_insert; [done | lia]. }
  unfold Cache.access.
  rewrite shr64_Ok, decompose_Ok by done. fold b. simpl.
  rewrite (vec_at_Ok _ _ s) by (done || lia). simpl.
  destruct (FullyAssocLRU.access (Cache.fa_sim c) b) as [fa fa_hit].
  destruct (CacheSet.contains s (tag_of c b)).
  - eexists _, _. split; [reflexivity |]. apply Hsound.
    destruct (Cache.is_lru (Cache.policy c)); [apply touch_assoc | done].
  - rewrite Hins. simpl.
    destruct (bool_decide (b ∉ Cache.seen_blocks c)); [| destruct fa_hit];
      (eexists _, _; split; [reflexivity | by apply Hsound]).
Qed.

(** With a power of two as number of sets, a positive associativity and a
    block size whose logarithm is a valid shift count, every trace runs to
    completion. *)
Lemma run_defined (cs bs a : Z) (pol : string) (bits : Z) (verb : bool)
    (c : Cache.t) (k : Z) (trace : list Z) :
  Cache.new cs bs a pol bits verb = Ok c →
  0 ≤ k → Cache.num_sets c = 2 ^ k →
  0 < a → 0 ≤ Cache.offset_bits c < 64 →
  ∃ c' os, Cache.run c trace = Ok (c', os).
Proof.
  intros Hnew Hk Hn Ha Hob.
  assert (Hs : sound k c).
  { split; [by eapply new_geometry |].
    split; [done |]. split; [done |].
    split; [by eapply pow2_index_bits |]. split; [done |].
    apply new_inv in Hnew as (tbits & _ & _ & _ & _ & ->). simpl.
    by apply Forall_replicate. }
  clear Hnew Hn Hob. revert c Hs.
  induction trace as [| addr trace IH]; intros c Hs.
  - by exists c, [].
  - destruct (access_defined k c addr Hs) as (c1 & o & Ha1 & Hs1).
    destruct (IH c1 Hs1) as (c' & os & Hr).
    exists c', (o :: os). simpl. rewrite Ha1. simpl. by rewrite Hr.
Qed.

(** ** Blocks resident in the cache have been seen *)

Lemma new_resident_seen (cs bs a : Z) (pol : string) (bits : Z) (verb : bool)
    (c : Cache.t) :
  Cache.new cs bs a pol bits verb = Ok c → resident_seen c.
Proof.
  intros H. apply new_inv in H as (tbits & _ & _ & _ & _ & ->).
  intros b s. simpl. intros Hs Hc.
  apply lookup_replicate in Hs as [-> _].
  by rewrite new_contains in Hc.
Qed.

Lemma access_resident_seen (c : Cache.t) (addr : Z) (c' : Cache.t)
    (o : bool * classification) :
  geometry c → resident_seen c →
  Cache.access c addr = Ok (c', o) → resident_seen c'.
Proof.
  intros Hg Hres H.
  apply access_inv in H
    as (b0 & tag & idx & s0 & s1 & h & m & mco & mca & mcf
        & Hb & Hd & Hidx & Hs0 & Ho & ->).
  apply decompose_inv in Hd as (b1 & Hb1 & -> & ->); [| done].
  rewrite Hb in Hb1. inversion Hb1; subst b1.
  intros b s. unfold tag_of, index_of. simpl.
  fold (tag_of c b) (index_of c b) (tag_of c b0) (index_of c b0).
  intros Hs Hc.
  destruct (decide (Z.to_nat (index_of c b) = Z.to_nat (index_of c b0)))
    as [Heq | Hne].
  - rewrite Heq, list_lookup_insert_eq in Hs
      by (by apply lookup_lt_Some in Hs0).
    inversion Hs; subst s.
    assert (Hcase : tag_of c b = tag_of c b0
                    ∨ CacheSet.contains s0 (tag_of c b) = true).
    { inversion Ho; subst.
      - destruct (Cache.is_lru (Cache.policy c));
          [by apply touch_contains | by right].
      - eapply insert_contains; eauto.
      - eapply insert_contains; eauto.
      - eapply insert_contains; eauto. }
    destruct Hcase as [Ht | Hold].
    + assert (b = b0); [| set_solver].
      apply (tag_index_inj c); [done | done |].
      pose proof (index_of_range c b Hg). pose proof (index_of_range c b0 Hg).
      lia.
    + apply elem_of_union_r. apply (Hres b s0); [| done]. by rewrite Heq.
  - rewrite list_lookup_insert_ne in Hs by done.
    apply elem_of_union_r. by apply (Hres b s).
Qed.

(** Every block in the seen set was referenced by the trace so far. *)
Lemma run_seen_blocks (trace : list Z) (c c' : Cache.t)
    (os : list (bool * classification)) (b : Z) :
  Cache.run c trace = Ok (c', os) →
  b ∈ Cache.seen_blocks c' →
  b ∈ Cache.seen_blocks c ∨ ∃ a, a ∈ trace ∧ Cache.block_id c a = Ok b.
Proof.
  revert c os. induction trace as [| addr trace IH]; intros c os H Hb.
  - simpl in H. inversion H; subst. by left.
  - apply run_cons_inv in H as (c1 & o & os1 & Ha & Hr & ->).
    destruct (IH _ _ Hr Hb) as [Hin | (a & Hin & Hblk)].
    + apply access_inv in Ha
        as (b0 & tag & idx & s0 & s1 & h & m & mco & mca & mcf
            & Hb0 & _ & _ & _ & _ & ->).
      simpl in Hin. apply elem_of_union in Hin as [Hin | Hin]; [| by left].
      apply elem_of_singleton in Hin as ->.
      right. exists addr. split; [apply list_elem_of_here | done].
    + right. exists a. split; [by apply list_elem_of_further |].
      unfold Cache.block_id in *.
      by destruct (access_fixed _ _ _ _ Ha) as (<- & _).
Qed.

(** C2. In a run of a constructed simulator, an access whose block id
    differs from the block id of every earlier address of the trace is a
    miss classified [MISS_COMPULSORY], whatever the reference cache
    reports; and the run does reach that access and complete when the
    number of sets is a power of two, the associativity positive and
    [offset_bits] a valid shift count. *)
Theorem first_reference_compulsory (cs bs a : Z) (pol : string) (bits : Z)
    (verb : bool) (c : Cache.t) (pre : list Z) (addr : Z) (post : list Z) :
  Cache.new cs bs a pol bits verb = Ok c →
  (∀ a', a' ∈ pre → Cache.block_id c a' ≠ Cache.block_id c addr) →
  (∀ c' os,
     Cache.run c (pre ++ addr :: post) = Ok (c', os) →
     os !! length pre = Some (false, MISS_COMPULSORY)) ∧
  (∀ k,
     0 ≤ k → Cache.num_sets c = 2 ^ k →
     0 < a → 0 ≤ Cache.offset_bits c < 64 →
     ∃ c' os,
       Cache.run c (pre ++ addr :: post) = Ok (c', os) ∧
       os !! length pre = Some (false, MISS_COMPULSORY)).
Proof.
  intros Hnew Hfirst.
  assert (Hmain : ∀ c' os,
            Cache.run c (pre ++ addr :: post) = Ok (c', os) →
            os !! length pre = Some (false, MISS_COMPULSORY)).
  { intros c' os Hrun.
    apply run_app_inv in Hrun as (c1 & os1 & os2 & Hpre & Hpost & -> & Hlen).
    apply run_cons_inv in Hpost as (c2 & o & os3 & Ha & _ & ->).
    rewrite lookup_app_r, Hlen, Nat.sub_diag by lia. simpl. f_equal.
    assert (Hg : geometry c1).
    { eapply run_geometry; [| exact Hpre]. eapply new_geometry; eauto. }
    assert (Hres : resident_seen c1).
    { eapply (run_invariant (λ x, geometry x ∧ resident_seen x));
        [| | exact Hpre].
      - intros x y x' o' [Hgx Hrx] Hx. split.
        + eapply access_geometry; eauto.
        + eapply access_resident_seen; eauto.
      - split; [eapply new_geometry | eapply new_resident_seen]; eauto. }
    assert (Hfresh : ∀ b, Cache.block_id c1 addr = Ok b →
                       b ∉ Cache.seen_blocks c1).
    { intros b Hb Hin.
      destruct (run_seen_blocks _ _ _ _ _ Hpre Hin)
        as [Hin0 | (a0 & Hin0 & Hblk)].
      - apply new_inv in Hnew as (tbits & _ & _ & _ & _ & ->).
        simpl in Hin0. set_solver.
      - apply (Hfirst a0 Hin0). rewrite Hblk, <- Hb.
        unfold Cache.block_id.
        by destruct (run_fixed _ _ _ _ Hpre) as (-> & _). }
    apply access_inv in Ha
      as (b & tag & idx & s & s1 & h & m & mco & mca & mcf
          & Hb & Hd & Hidx & Hs & Ho & ->).
    specialize (Hfresh b Hb).
    apply decompose_inv in Hd as (b1 & Hb1 & -> & ->); [| done].
    rewrite Hb in Hb1. inversion Hb1; subst b1.
    inversion Ho; subst; try done.
    exfalso. apply Hfresh. by apply (Hres b s). }
  split; [exact Hmain |].
  intros k Hk Hn Ha Hob.
  destruct (run_defined cs bs a pol bits verb c k (pre ++ addr :: post)
              Hnew Hk Hn Ha Hob) as (c' & os & Hrun).
  exists c', os. split; [done |]. by apply (Hmain c' os).
Qed.

(** In [0, 64, 0, 4096] on the default geometry (128 sets), address 4096 is
    the first reference to its block. *)
Lemma first_reference_compulsory_witness :
  ∃ c c' os,
    Cache.new 32768 64 4 "LRU" 32 false = Ok c ∧
    Cache.run c ([0; 64; 0] ++ 4096 :: []) = Ok (c', os) ∧
    os !! 3%nat = Some (false, MISS_COMPULSORY).
Proof.
  destruct (Cache.new 32768 64 4 "LRU" 32 false) as [c | |] eqn:Hnew;
    [| vm_compute in Hnew; discriminate Hnew ..].
  assert (Hfirst : ∀ a', a' ∈ [0; 64; 0] →
                     Cache.block_id c a' ≠ Cache.block_id c 4096).
  { intros a' Hin.
    vm_compute in Hnew; inversion Hnew; subst c.
    repeat (apply elem_of_cons in Hin as [-> | Hin]); [| | | by inversion Hin];
      vm_compute; discriminate. }
  destruct (first_reference_compulsory 32768 64 4 "LRU" 32 false c
              [0; 64; 0] 4096 [] Hnew Hfirst) as [_ Htotal].
  assert (Hn : Cache.num_sets c = 2 ^ 7).
  { vm_compute in Hnew. inversion Hnew. reflexivity. }
  assert (Hob : 0 ≤ Cache.offset_bits c < 64).
  { vm_compute in Hnew. inversion Hnew. simpl. lia. }
  destruct (Htotal 7 ltac:(lia) Hn ltac:(lia) Hob) as (c' & os & Hrun & Hos).
  exists c, c', os. auto.
Defined.

(** ** One LRU set against the reference cache *)

(** An LRU set and a reference cache that hold the same order and have the
    same positive capacity answer a reference alike and stay alike. *)
Lemma lru_set_mirrors_oracle (s : CacheSet.t) (fa : FullyAssocLRU.t) (b : Z) :
  CacheSet.isLRU s = true →
  CacheSet.order s = FullyAssocLRU.order fa →
  CacheSet.pos s = FullyAssocLRU.pos fa →
  CacheSet.assoc s = FullyAssocLRU.capacity fa →
  0 < CacheSet.assoc s →
  CacheSet.contains s b = (FullyAssocLRU.access fa b).2 ∧
  ∃ s1,
    (if CacheSet.contains s b then Ok (CacheSet.touch s b)
     else CacheSet.insert s b) = Ok s1 ∧
    CacheSet.isLRU s1 = true ∧
    CacheSet.assoc s1 = CacheSet.assoc s ∧
    CacheSet.order s1 = FullyAssocLRU.order (FullyAssocLRU.access fa b).1 ∧
    CacheSet.pos s1 = FullyAssocLRU.pos (FullyAssocLRU.access fa b).1.
Proof.
  intros Hlru Hord Hpos Hcap Hpos_assoc.
  unfold CacheSet.insert, CacheSet.contains, CacheSet.touch, CacheSet.push,
    FullyAssocLRU.access.
  rewrite Hlru, <- Hpos, <- Hord, <- Hcap. simpl.
  destruct (bool_decide (b ∈ CacheSet.pos s)) eqn:Hin; simpl.
  - split; [done |]. eexists. split; [reflexivity |]. simpl. auto.
  - split.
    { destruct (_ && _); [destruct (CacheSet.order s) |]; done. }
    destruct (Z.ltb_spec (size_int (CacheSet.order s)) (CacheSet.assoc s))
      as [Hlt | Hge].
    + destruct (Z.leb_spec (CacheSet.assoc s) (size_int (CacheSet.order s)));
        [lia |].
      simpl. eexists. split; [reflexivity |]. simpl. auto.
    + destruct (Z.leb_spec (CacheSet.assoc s) (size_int (CacheSet.order s)));
        [| lia].
      destruct (Z.ltb_spec 0 (CacheSet.assoc s)); [| lia]. simpl.
      destruct (CacheSet.order s) as [| ev rest] eqn:Horder.
      * exfalso. unfold size_int in Hge. simpl in Hge.
        rewrite to_int_small in Hge; lia.
      * simpl. eexists. split; [reflexivity |]. simpl. auto.
Qed.

Lemma access_mirrors (c : Cache.t) (addr : Z) :
  mirrors c →
  ∃ c' k,
    Cache.access c addr
    = Ok (c', ((FullyAssocLRU.access (Cache.fa_sim c)
                  (Z.shiftr addr (Cache.offset_bits c))).2, k)) ∧
    k ≠ MISS_CONFLICT ∧
    Cache.fa_sim c'
    = (FullyAssocLRU.access (Cache.fa_sim c)
         (Z.shiftr addr (Cache.offset_bits c))).1 ∧
    Cache.offset_bits c' = Cache.offset_bits c ∧
    mirrors c'.
Proof.
  intros (s & Hsets & Hlru & Hpol & Hord & Hpos & Hcap & Hassoc & Hn & Hi & Ho
          & Hcf).
  set (b := Z.shiftr addr (Cache.offset_bits c)).
  destruct (lru_set_mirrors_oracle s (Cache.fa_sim c) b Hlru Hord Hpos Hcap Hassoc)
    as (Hhit & s1 & Hs1 & Hlru1 & Hassoc1 & Hord1 & Hpos1).
  pose proof (oracle_capacity (Cache.fa_sim c) b) as Hcap1.
  rewrite <- Hcap in Hcap1.
  unfold Cache.access, Cache.decompose.
  rewrite shr64_Ok by done. fold b. simpl.
  rewrite Hn, Hi. simpl.
  rewrite Z.shiftr_0_r, Hsets. simpl. rewrite Hpol.
  rewrite <- Hhit.
  destruct (FullyAssocLRU.access (Cache.fa_sim c) b) as [fa fa_hit] eqn:Hfa.
  simpl in *.
  assert (Hm : ∀ h m mco mca mcf seen,
             mcf = 0 →
             mirrors (Cache.update c h m mco mca mcf [s1] fa seen)).
  { intros. exists s1. simpl. rewrite Hassoc1. repeat split; auto; lia. }
  destruct (CacheSet.contains s b) eqn:Hc.
  - inversion Hs1; subst s1. eexists _, HIT. repeat split; auto; done.
  - rewrite Hs1. subst fa_hit. simpl.
    destruct (bool_decide (b ∉ Cache.seen_blocks c)).
    + eexists _, MISS_COMPULSORY. repeat split; auto; done.
    + eexists _, MISS_CAPACITY. repeat split; auto; done.
Qed.

Lemma run_mirrors (trace : list Z) (c : Cache.t) :
  mirrors c →
  ∃ c' os,
    Cache.run c trace = Ok (c', os) ∧
    Forall (λ o, o.2 ≠ MISS_CONFLICT) os ∧
    FullyAssocLRU.run (Cache.fa_sim c)
      (map (λ addr, Z.shiftr addr (Cache.offset_bits c)) trace)
    = (Cache.fa_sim c', os.*1) ∧
    mirrors c'.
Proof.
  revert c. induction trace as [| addr trace IH]; intros c Hm.
  - exists c, []. simpl. auto.
  - destruct (access_mirrors c addr Hm) as (c1 & k & Ha & Hk & Hfa & Hob & Hm1).
    destruct (IH c1 Hm1) as (c' & os & Hr & Hall & Hrun & Hm').
    eexists c', (_ :: os). simpl. rewrite Ha. simpl. rewrite Hr. simpl.
    split; [reflexivity |]. split; [by constructor |]. split; [| done].
    rewrite Hob, Hfa in Hrun.
    destruct (FullyAssocLRU.access _ _) as [fa1 h1]. simpl in *.
    by rewrite Hrun.
Qed.

Lemma round_log2_u64 (x : Z) : 1 ≤ x < 2 ^ 64 → 0 ≤ round_log2 x ≤ 64.
Proof.
  intros Hx. unfold round_log2.
  assert (Hsq : 0 < x * x < 2 ^ 128) by nia.
  pose proof (Z.log2_nonneg (x * x)) as H0.
  assert (H1 : Z.log2 (x * x) < 128) by (apply Z.log2_lt_pow2; lia).
  split.
  - apply Z.div_pos; lia.
  - apply Z.div_le_upper_bound; lia.
Qed.

(** A cast to [int] keeps a multiple of a value by a factor that is itself
    cast to 1. *)
Lemma to_int_scaled (a q : Z) : is_int a → to_int q = 1 → to_int (a * q) = a.
Proof.
  unfold is_int, to_int. intros Ha Hq.
  assert (Hq' : (q + 2 ^ 31) mod 2 ^ 32 = 2 ^ 31 + 1) by lia.
  pose proof (Z.div_mod (q + 2 ^ 31) (2 ^ 32) ltac:(lia)) as Hdm.
  rewrite Hq' in Hdm.
  replace (a * q + 2 ^ 31)
    with (a + 2 ^ 31 + (a * ((q + 2 ^ 31) / 2 ^ 32)) * 2 ^ 32) by lia.
  rewrite Z_mod_plus_full, Z.mod_small; lia.
Qed.

(** Without overflow in [block_size * assoc], a single set has as many ways
    as the reference cache has blocks. *)
Lemma single_set_capacity (cs bs a : Z) (pol : string) (bits : Z) (verb : bool)
    (c : Cache.t) :
  is_u64 bs → is_int a → 0 < a → bs * a < 2 ^ 64 →
  Cache.new cs bs a pol bits verb = Ok c →
  Cache.num_sets c = 1 →
  FullyAssocLRU.capacity (Cache.fa_sim c) = a.
Proof.
  unfold is_u64. intros Hbs Ha Ha0 Hno Hnew Hn. pose proof Ha as Ha'.
  unfold is_int in Ha'.
  apply new_inv in Hnew as (tbits & Hbs0 & Hw & Hr & _ & ->).
  simpl in *.
  rewrite (wrap64_small a) in * by lia.
  rewrite (wrap64_small (bs * a)) in * by nia.
  apply Z.div_exact in Hr; [| done].
  set (q := cs / (bs * a)) in *.
  replace (cs / bs) with (a * q).
  - by apply to_int_scaled.
  - rewrite Hr. replace (bs * a * q) with (a * q * bs) by lia.
    by rewrite Z.div_mul.
Qed.

Lemma new_mirrors (cs bs a : Z) (pol : string) (bits : Z) (verb : bool)
    (c : Cache.t) :
  is_u64 bs → is_int a → 0 < a → bs * a < 2 ^ 64 →
  Cache.is_lru pol = true →
  Cache.new cs bs a pol bits verb = Ok c →
  Cache.num_sets c = 1 →
  Cache.offset_bits c < 64 →
  mirrors c.
Proof.
  intros Hbs Ha Ha0 Hno Hpol Hnew Hn Hob.
  pose proof (single_set_capacity _ _ _ _ _ _ _ Hbs Ha Ha0 Hno Hnew Hn) as Hcap.
  apply new_inv in Hnew as (tbits & Hbs0 & Hw & Hr & _ & ->).
  simpl in *. rewrite Hn in *. simpl in *.
  exists (CacheSet.new a (Cache.is_lru pol)).
  rewrite Hpol. simpl. repeat split; auto.
  unfold is_u64 in Hbs.
  pose proof (round_log2_u64 bs ltac:(lia)).
  rewrite to_int_small; lia.
Qed.

(** C4, as the code has it.  With one set, the LRU policy, a positive
    associativity and no overflow in [block_size * assoc], every trace runs
    to completion, no access is classified [MISS_CONFLICT], the conflict
    counter stays 0, every access hits exactly when the reference cache
    hits, and the set ends with the order of the reference cache. *)
Theorem single_set_lru_no_conflict (cs bs a : Z) (pol : string) (bits : Z)
    (verb : bool) (c : Cache.t) (trace : list Z) :
  is_u64 bs → is_int a → 0 < a → bs * a < 2 ^ 64 →
  Cache.is_lru pol = true →
  Cache.new cs bs a pol bits verb = Ok c →
  Cache.num_sets c = 1 →
  Cache.offset_bits c < 64 →
  ∃ c' os s,
    Cache.run c trace = Ok (c', os) ∧
    Cache.miss_conflict c' = 0 ∧
    Forall (λ o, o.2 ≠ MISS_CONFLICT) os ∧
    FullyAssocLRU.run (Cache.fa_sim c)
      (map (λ addr, Z.shiftr addr (Cache.offset_bits c)) trace)
    = (Cache.fa_sim c', os.*1) ∧
    Cache.sets c' = [s] ∧
    CacheSet.order s = FullyAssocLRU.order (Cache.fa_sim c').
Proof.
  intros Hbs Ha Ha0 Hno Hpol Hnew Hn Hob.
  pose proof (new_mirrors _ _ _ _ _ _ _ Hbs Ha Ha0 Hno Hpol Hnew Hn Hob) as Hm.
  destruct (run_mirrors trace c Hm) as (c' & os & Hrun & Hall & Hfa & Hm').
  destruct Hm' as (s & Hsets & _ & _ & Hord & _ & _ & _ & _ & _ & _ & Hcf).
  exists c', os, s. auto 10.
Qed.

(** A two-way single-set LRU cache on [0, 64, 0, 128, 0, 64]. *)
Lemma single_set_lru_no_conflict_witness :
  ∃ c c' os s,
    Cache.new 128 64 2 "LRU" 32 false = Ok c ∧
    Cache.num_sets c = 1 ∧
    Cache.run c [0; 64; 0; 128; 0; 64] = Ok (c', os) ∧
    Cache.miss_conflict c' = 0 ∧
    Forall (λ o, o.2 ≠ MISS_CONFLICT) os ∧
    Cache.sets c' = [s] ∧
    CacheSet.order s = FullyAssocLRU.order (Cache.fa_sim c').
Proof.
  destruct (Cache.new 128 64 2 "LRU" 32 false) as [c | |] eqn:Hnew;
    [| vm_compute in Hnew; discriminate Hnew ..].
  assert (Hn : Cache.num_sets c = 1).
  { vm_compute in Hnew. inversion Hnew. reflexivity. }
  assert (Hob : Cache.offset_bits c < 64).
  { vm_compute in Hnew. inversion Hnew. reflexivity. }
  destruct (single_set_lru_no_conflict 128 64 2 "LRU" 32 false c
              [0; 64; 0; 128; 0; 64]
              ltac:(unfold is_u64; lia) ltac:(unfold is_int; lia)
              ltac:(lia) ltac:(lia) eq_refl Hnew Hn Hob)
    as (c' & os & s & Hrun & Hcf & Hall & _ & Hsets & Hord).
  exists c, c', os, s. auto 10.
Defined.

(** The same geometry under FIFO: the last access of [0, 64, 0, 128, 0]
    misses in the set, hits in the reference cache, and is counted as a
    conflict miss. *)
Lemma single_set_fifo_conflict :
  ∃ c c' os,
    Cache.new 128 64 2 "FIFO" 32 false = Ok c ∧
    Cache.num_sets c = 1 ∧
    Cache.run c [0; 64; 0; 128; 0] = Ok (c', os) ∧
    os !! 4%nat = Some (false, MISS_CONFLICT) ∧
    Cache.miss_conflict c' = 1.
Proof.
  eexists _, _, _.
  split; [vm_compute; reflexivity |].
  split; [reflexivity |].
  split; [vm_compute; reflexivity |].
  split; reflexivity.
Qed.

(** ** Malformed geometry *)

Lemma udiv64_no_throw (x y : Z) (m : string) : udiv64 x y ≠ Throw m.
Proof. unfold udiv64. by destruct (y =? 0). Qed.

Lemma urem64_no_throw (x y : Z) (m : string) : urem64 x y ≠ Throw m.
Proof. unfold urem64. by destruct (y =? 0). Qed.

Lemma sub_int_no_throw (x y : Z) (m : string) : sub_int x y ≠ Throw m.
Proof. unfold sub_int. by destruct (_ && _). Qed.

(** C5. With [block_size == 0] the constructor divides by zero in the
    initialiser of the reference cache, before its body tests the block
    size: no configuration error is raised, and no input at all makes the
    constructor throw the message of that test. *)
Theorem zero_block_size_undefined (cs bs a : Z) (pol : string) (bits : Z)
    (verb : bool) :
  Cache.new cs 0 a pol bits verb = Undefined DivByZero ∧
  Cache.new cs bs a pol bits verb ≠ Throw "block_size must be > 0".
Proof.
  split; [reflexivity |].
  unfold Cache.new.
  destruct (udiv64 cs bs) as [cap | m | u] eqn:Hcap; simpl;
    [| by apply udiv64_no_throw in Hcap | done].
  unfold udiv64 in Hcap. destruct (bs =? 0); [done |].
  destruct (urem64 _ _) as [r | m | u] eqn:Hr; simpl;
    [| by apply urem64_no_throw in Hr | done].
  destruct (negb _); [done |].
  destruct (udiv64 _ _) as [q | m | u] eqn:Hq; simpl;
    [| by apply udiv64_no_throw in Hq | done].
  destruct (sub_int bits _) as [d | m | u] eqn:Hd; simpl;
    [| by apply sub_int_no_throw in Hd | done].
  destruct (sub_int d _) as [tb | m | u] eqn:Htb; simpl;
    [| by apply sub_int_no_throw in Htb | done].
  by destruct (_ <? 0).
Qed.

(** The divisibility test does raise its error when it is reached with a
    non-zero divisor. *)
Lemma indivisible_cache_size_throws (cs bs a : Z) (pol : string) (bits : Z)
    (verb : bool) :
  bs ≠ 0 → wrap64 (bs * wrap64 a) ≠ 0 → cs mod wrap64 (bs * wrap64 a) ≠ 0 →
  Cache.new cs bs a pol bits verb
  = Throw "cache_size must be divisible by (block_size * assoc)".
Proof.
  intros Hbs Hw Hr. unfold Cache.new, udiv64, urem64.
  destruct (Z.eqb_spec bs 0); [done |]. simpl.
  destruct (Z.eqb_spec (wrap64 (bs * wrap64 a)) 0); [done |]. simpl.
  by destruct (Z.eqb_spec (cs mod wrap64 (bs * wrap64 a)) 0).
Qed.

(** C6. With [cache_size = 192], [block_size = 64], [assoc = 1] the
    constructor succeeds with three sets and two index bits, and the access
    to address 192 indexes the vector of sets at 3, out of range. *)
Theorem three_sets_accepted :
  ∃ c,
    Cache.new 192 64 1 "LRU" 32 false = Ok c ∧
    Cache.num_sets c = 3 ∧
    Cache.index_bits c = 2 ∧
    length (Cache.sets c) = 3%nat ∧
    Cache.decompose c 192 = Ok (0, 3) ∧
    Cache.access c 192 = Undefined OutOfBounds.
Proof.
  eexists. split; [vm_compute; reflexivity |].
  repeat split; vm_compute; reflexivity.
Qed.

(** ** The policy string matters only through [is_lru] *)

Lemma new_with_policy (cs bs a : Z) (pol pol' : string) (bits : Z) (verb : bool) :
  Cache.is_lru pol' = Cache.is_lru pol →
  Cache.new cs bs a pol' bits verb
  = c ← Cache.new cs bs a pol bits verb; Ok (with_policy pol' c).
Proof.
  intros H. unfold Cache.new. rewrite H.
  destruct (udiv64 cs bs) as [cap | |]; simpl; [| done | done].
  destruct (bs =? 0); [done |].
  destruct (urem64 _ _) as [r | |]; simpl; [| done | done].
  destruct (negb _); [done |].
  destruct (udiv64 _ _) as [q | |]; simpl; [| done | done].
  destruct (sub_int bits _) as [d | |]; simpl; [| done | done].
  destruct (sub_int d _) as [tb | |]; simpl; [| done | done].
  by destruct (_ <? 0).
Qed.

Lemma access_with_policy (pol' : string) (c : Cache.t) (addr : Z) :
  Cache.is_lru pol' = Cache.is_lru (Cache.policy c) →
  Cache.access (with_policy pol' c) addr
  = '(c1, o) ← Cache.access c addr; Ok (with_policy pol' c1, o).
Proof.
  intros H. unfold Cache.access, Cache.decompose. simpl. rewrite H.
  destruct (shr64 addr (Cache.offset_bits c)) as [b | |]; simpl; [| done | done].
  destruct (if 1 <? Cache.num_sets c then _ else _) as [idx | |]; simpl;
    [| done | done].
  destruct (shr64 b (Cache.index_bits c)) as [tag | |]; simpl; [| done | done].
  destruct (vec_at (Cache.sets c) idx) as [s | |]; simpl; [| done | done].
  destruct (FullyAssocLRU.access (Cache.fa_sim c) b) as [fa fa_hit].
  destruct (CacheSet.contains s tag); [done |].
  destruct (bool_decide (b ∉ Cache.seen_blocks c)); [| destruct fa_hit];
    by destruct (CacheSet.insert s tag).
Qed.

Lemma run_with_policy (pol' : string) (trace : list Z) (c : Cache.t) :
  Cache.is_lru pol' = Cache.is_lru (Cache.policy c) →
  Cache.run (with_policy pol' c) trace
  = '(c1, os) ← Cache.run c trace; Ok (with_policy pol' c1, os).
Proof.
  revert c. induction trace as [| addr trace IH]; intros c H; [done |].
  simpl. rewrite access_with_policy by done.
  destruct (Cache.access c addr) as [[c1 o] | |] eqn:Ha; simpl; [| done | done].
  rewrite IH.
  - by destruct (Cache.run c1 trace) as [[c2 os] | |].
  - by destruct (access_fixed _ _ _ _ Ha) as (_ & _ & _ & ->).
Qed.

(** Every policy string behaves as ["LRU"] or as ["FIFO"]. *)
Lemma policy_cases (pol : string) :
  Cache.is_lru pol = Cache.is_lru "LRU" ∨ Cache.is_lru pol = Cache.is_lru "FIFO".
Proof. destruct (Cache.is_lru pol); [by left | by right]. Qed.

(** ** The aliasing scenario *)

(** C7, as the code has it.  On [0, 64, 128, 0, 64, 128] with
    [cache_size = 128], [block_size = 64], [assoc = 1], under any policy:
    there are two sets; 0 and 64 map to sets 0 and 1, 128 maps to set 0 with
    another tag; the first pass is three compulsory misses; on the second
    pass 0 misses, 64 hits and 128 misses, and both misses are classified
    [MISS_CAPACITY]: the reference cache holds two blocks and has evicted
    them as well. *)
Theorem aliasing_trace (pol : string) (verb : bool) :
  ∃ c c',
    Cache.new 128 64 1 pol 32 verb = Ok c ∧
    Cache.num_sets c = 2 ∧
    Cache.decompose c 0 = Ok (0, 0) ∧
    Cache.decompose c 64 = Ok (0, 1) ∧
    Cache.decompose c 128 = Ok (1, 0) ∧
    Cache.run c [0; 64; 128; 0; 64; 128]
    = Ok (c', [(false, MISS_COMPULSORY); (false, MISS_COMPULSORY);
               (false, MISS_COMPULSORY); (false, MISS_CAPACITY);
               (true, HIT); (false, MISS_CAPACITY)]) ∧
    Cache.miss_conflict c' = 0.
Proof.
  destruct (policy_cases pol) as [H | H].
  - rewrite (new_with_policy 128 64 1 "LRU" pol 32 verb H).
    destruct (Cache.new 128 64 1 "LRU" 32 verb) as [c0 | |] eqn:Hnew;
      [| vm_compute in Hnew; discriminate Hnew ..].
    vm_compute in Hnew. inversion Hnew; subst c0. clear Hnew.
    eexists _, _. split; [reflexivity |].
    rewrite run_with_policy by exact H.
    do 5 (split; [vm_compute; reflexivity |]). reflexivity.
  - rewrite (new_with_policy 128 64 1 "FIFO" pol 32 verb H).
    destruct (Cache.new 128 64 1 "FIFO" 32 verb) as [c0 | |] eqn:Hnew;
      [| vm_compute in Hnew; discriminate Hnew ..].
    vm_compute in Hnew. inversion Hnew; subst c0. clear Hnew.
    eexists _, _. split; [reflexivity |].
    rewrite run_with_policy by exact H.
    do 5 (split; [vm_compute; reflexivity |]). reflexivity.
Qed.

(** On the second pass the evicted address 0 is a capacity miss, not a
    conflict miss, and 128 is a miss, not a hit. *)
Lemma aliasing_trace_capacity :
  ∃ c c' os,
    Cache.new 128 64 1 "LRU" 32 false = Ok c ∧
    Cache.run c [0; 64; 128; 0; 64; 128] = Ok (c', os) ∧
    os !! 3%nat = Some (false, MISS_CAPACITY) ∧
    os !! 5%nat = Some (false, MISS_CAPACITY) ∧
    Cache.miss_conflict c' = 0.
Proof.
  eexists _, _, _.
  split; [vm_compute; reflexivity |].
  split; [vm_compute; reflexivity |].
  repeat split; reflexivity.
Qed.

(** ** A set as the list of its resident tags *)

Lemma elem_of_erase (x y : Z) (l : list Z) :
  NoDup l → y ∈ erase x l ↔ y ∈ l ∧ y ≠ x.
Proof.
  induction l as [| z l IH]; intros Hnd; simpl.
  - set_solver.
  - apply NoDup_cons in Hnd as [Hz Hnd].
    destruct (decide (x = z)) as [-> | Hne].
    + split; [| set_solver].
      intros Hy. split; [set_solver |]. intros ->. done.
    + rewrite elem_of_cons, IH by done. set_solver.
Qed.

Lemma NoDup_erase (x : Z) (l : list Z) : NoDup l → NoDup (erase x l).
Proof.
  induction l as [| z l IH]; intros Hnd; simpl; [done |].
  apply NoDup_cons in Hnd as [Hz Hnd].
  destruct (decide (x = z)); [done |].
  apply NoDup_cons. split; [| auto].
  rewrite elem_of_erase by done. tauto.
Qed.

Lemma length_erase (x : Z) (l : list Z) :
  x ∈ l → S (length (erase x l)) = length l.
Proof.
  induction l as [| z l IH]; intros Hin; simpl; [by inversion Hin |].
  destruct (decide (x = z)); [done |].
  simpl. f_equal. apply IH. set_solver.
Qed.

Lemma size_int_small (l : list Z) :
  Z.of_nat (length l) < 2 ^ 31 → size_int l = Z.of_nat (length l).
Proof. intros H. unfold size_int. apply to_int_small. lia. Qed.

Lemma new_holds (a : Z) (lru : bool) :
  0 < a < 2 ^ 31 → holds (CacheSet.new a lru) [].
Proof.
  intros Ha. unfold holds. simpl. repeat split; try lia.
  - constructor.
  - by rewrite new_contains.
  - intros Hx. by inversion Hx.
Qed.

Lemma contains_not_elem (s : CacheSet.t) (l : list Z) (t : Z) :
  holds s l → t ∉ l → CacheSet.contains s t = false.
Proof.
  intros (_ & _ & Hc & _) Ht.
  destruct (CacheSet.contains s t) eqn:E; [| done].
  by apply Hc in E.
Qed.

Lemma touch_holds (s : CacheSet.t) (l : list Z) (t : Z) :
  holds s l → t ∈ l →
  CacheSet.assoc (CacheSet.touch s t) = CacheSet.assoc s ∧
  CacheSet.isLRU (CacheSet.touch s t) = CacheSet.isLRU s ∧
  holds (CacheSet.touch s t)
    (if CacheSet.isLRU s then erase t l ++ [t] else l).
Proof.
  intros Hs Ht. pose proof Hs as (Hord & Hnd & Hc & Hlen & Ha).
  pose proof (proj2 (Hc t) Ht) as Hct.
  unfold CacheSet.touch.
  destruct (CacheSet.isLRU s) eqn:Hlru; simpl; [| done].
  unfold CacheSet.contains in Hct, Hc. rewrite Hlru in Hct, Hc. rewrite Hct.
  simpl. split; [done |]. split; [done |].
  unfold holds, CacheSet.contains. simpl. rewrite Hord.
  split; [done |]. split; [| split].
  - apply NoDup_app. split; [by apply NoDup_erase |]. split; [| apply NoDup_singleton].
    intros x Hx Hx'. apply elem_of_erase in Hx as [_ Hx]; [| done].
    by apply list_elem_of_singleton in Hx'.
  - intros x. rewrite bool_decide_eq_true, elem_of_union, elem_of_singleton,
      elem_of_app, elem_of_erase, list_elem_of_singleton by done.
    specialize (Hc x). rewrite bool_decide_eq_true in Hc. rewrite Hc.
    destruct (decide (x = t)) as [-> | Hne]; tauto.
  - rewrite length_app. simpl. pose proof (length_erase t l Ht). lia.
Qed.

Lemma insert_holds (s : CacheSet.t) (l : list Z) (t : Z) :
  holds s l → t ∉ l →
  ∃ s',
    CacheSet.insert s t = Ok s' ∧
    CacheSet.assoc s' = CacheSet.assoc s ∧
    CacheSet.isLRU s' = CacheSet.isLRU s ∧
    holds s'
      (if Z.of_nat (length l) <? CacheSet.assoc s then l ++ [t]
       else tail l ++ [t]).
Proof.
  intros Hs Ht. pose proof Hs as (Hord & Hnd & Hc & Hlen & Ha).
  unfold CacheSet.insert. rewrite (contains_not_elem s l t Hs Ht).
  rewrite Hord, size_int_small by lia.
  assert (Hpush : ∀ s0 l0,
            CacheSet.order s0 = l0 → NoDup l0 → t ∉ l0 →
            (∀ x, CacheSet.contains s0 x = true ↔ x ∈ l0) →
            CacheSet.order (CacheSet.push s0 t) = l0 ++ [t] ∧
            NoDup (l0 ++ [t]) ∧
            ∀ x, CacheSet.contains (CacheSet.push s0 t) x = true ↔ x ∈ l0 ++ [t]).
  { intros s0 l0 Ho0 Hnd0 Ht0 Hc0. split; [| split].
    - unfold CacheSet.push. destruct (CacheSet.isLRU s0); simpl; by rewrite Ho0.
    - apply NoDup_app. split; [done |]. split; [| apply NoDup_singleton].
      intros x Hx Hx'. apply list_elem_of_singleton in Hx' as ->. done.
    - intros x. rewrite elem_of_app, list_elem_of_singleton, <- Hc0.
      unfold CacheSet.push, CacheSet.contains.
      destruct (CacheSet.isLRU s0) eqn:E; simpl;
        rewrite !bool_decide_eq_true, elem_of_union, elem_of_singleton; tauto. }
  destruct (Z.ltb_spec (Z.of_nat (length l)) (CacheSet.assoc s)) as [Hroom | Hfull].
  - destruct (Hpush s l Hord Hnd Ht Hc) as (Ho' & Hnd' & Hc').
    exists (CacheSet.push s t). split; [done |].
    split; [unfold CacheSet.push; by destruct (CacheSet.isLRU s) |].
    split; [unfold CacheSet.push; by destruct (CacheSet.isLRU s) eqn:E |].
    unfold holds. rewrite length_app. simpl.
    replace (CacheSet.assoc (CacheSet.push s t)) with (CacheSet.assoc s)
      by (unfold CacheSet.push; by destruct (CacheSet.isLRU s)).
    repeat split; auto; try apply Hc'; lia.
  - destruct l as [| ev rest]; [simpl in *; lia |]. simpl.
    apply NoDup_cons in Hnd as [Hev Hnd].
    set (s0 := if CacheSet.isLRU s
               then CacheSet.mk (CacheSet.assoc s) (CacheSet.isLRU s) rest
                      (CacheSet.pos s ∖ {[ev]}) (CacheSet.present s)
               else CacheSet.mk (CacheSet.assoc s) (CacheSet.isLRU s) rest
                      (CacheSet.pos s) (CacheSet.present s ∖ {[ev]})).
    assert (Hs0 : CacheSet.order s0 = rest ∧ CacheSet.assoc s0 = CacheSet.assoc s
                  ∧ CacheSet.isLRU s0 = CacheSet.isLRU s).
    { unfold s0. by destruct (CacheSet.isLRU s). }
    destruct Hs0 as (Ho0 & Ha0 & Hl0).
    assert (Hc0 : ∀ x, CacheSet.contains s0 x = true ↔ x ∈ rest).
    { intros x. specialize (Hc x). rewrite elem_of_cons in Hc.
      revert Hc. unfold s0, CacheSet.contains.
      destruct (CacheSet.isLRU s) eqn:E; simpl;
        rewrite !bool_decide_eq_true, elem_of_difference, elem_of_singleton;
        intros Hc; rewrite Hc; split.
      - intros [[-> | Hx] Hne]; done.
      - intros Hx. split; [by right |]. intros ->. done.
      - intros [[-> | Hx] Hne]; done.
      - intros Hx. split; [by right |]. intros ->. done. }
    assert (Ht0 : t ∉ rest) by set_solver.
    destruct (Hpush s0 rest Ho0 Hnd Ht0 Hc0) as (Ho' & Hnd' & Hc').
    exists (CacheSet.push s0 t). split; [done |].
    assert (Ha' : CacheSet.assoc (CacheSet.push s0 t) = CacheSet.assoc s).
    { unfold CacheSet.push. by destruct (CacheSet.isLRU s0). }
    split; [done |].
    split; [unfold CacheSet.push; rewrite <- Hl0; by destruct (CacheSet.isLRU s0) |].
    unfold holds. rewrite Ha', length_app. simpl in *.
    repeat split; auto; try apply Hc'; lia.
Qed.

Lemma reference_holds (s : CacheSet.t) (l : list Z) (t : Z) :
  holds s l →
  ∃ s',
    CacheSet.reference s t = Ok s' ∧
    CacheSet.assoc s' = CacheSet.assoc s ∧
    CacheSet.isLRU s' = CacheSet.isLRU s ∧
    holds s' (next_order (CacheSet.assoc s) (CacheSet.isLRU s) l t).
Proof.
  intros Hs. unfold CacheSet.reference, next_order.
  destruct (decide (t ∈ l)) as [Hin | Hout].
  - rewrite bool_decide_eq_true_2 by done.
    rewrite (proj2 (proj1 (proj2 (proj2 Hs)) t) Hin).
    exists (CacheSet.touch s t). split; [done |].
    by apply touch_holds.
  - rewrite bool_decide_eq_false_2 by done.
    rewrite (contains_not_elem s l t Hs Hout).
    by apply insert_holds.
Qed.

Lemma references_holds (ts : list Z) (s : CacheSet.t) (l : list Z) :
  holds s l →
  ∃ s',
    CacheSet.references s ts = Ok s' ∧
    CacheSet.assoc s' = CacheSet.assoc s ∧
    CacheSet.isLRU s' = CacheSet.isLRU s ∧
    holds s' (foldl (next_order (CacheSet.assoc s) (CacheSet.isLRU s)) l ts).
Proof.
  revert s l. induction ts as [| t ts IH]; intros s l Hs; simpl.
  - exists s. auto.
  - destruct (reference_holds s l t Hs) as (s1 & E1 & Ha1 & Hl1 & Hs1).
    destruct (IH s1 _ Hs1) as (s' & E' & Ha' & Hl' & Hs').
    exists s'. rewrite E1. simpl. rewrite E'. rewrite Ha1, Hl1 in *. auto.
Qed.

(** ** LRU and FIFO ordering *)

(** A fresh set of [a] ways referenced by [ts], then missing on [D]. *)
Lemma reference_scenario (a : Z) (lru : bool) (ts : list Z) (D : Z)
    (l l' : list Z) :
  0 < a < 2 ^ 31 →
  foldl (next_order a lru) [] ts = l →
  D ∉ l →
  (if Z.of_nat (length l) <? a then l ++ [D] else tail l ++ [D]) = l' →
  ∃ s s',
    CacheSet.references (CacheSet.new a lru) ts = Ok s ∧
    CacheSet.order s = l ∧
    CacheSet.insert s D = Ok s' ∧
    CacheSet.order s' = l' ∧
    (∀ x, CacheSet.contains s x = true ↔ x ∈ l) ∧
    (∀ x, CacheSet.contains s' x = true ↔ x ∈ l').
Proof.
  intros Ha Hl HD Hl'.
  destruct (references_holds ts (CacheSet.new a lru) [] (new_holds a lru Ha))
    as (s & Hs & Hassoc & _ & Hh).
  simpl in Hassoc, Hh. rewrite Hl in Hh.
  destruct (insert_holds s l D Hh HD) as (s' & Hs' & _ & _ & Hh').
  rewrite Hassoc, Hl' in Hh'.
  exists s, s'. split; [done |].
  destruct Hh as (Ho & _ & Hc & _). destruct Hh' as (Ho' & _ & Hc' & _).
  auto 10.
Qed.

Lemma next_order_hit (a : Z) (lru : bool) (l : list Z) (t : Z) :
  t ∈ l → next_order a lru l t = if lru then erase t l ++ [t] else l.
Proof. intros H. unfold next_order. by rewrite bool_decide_eq_true_2. Qed.

Lemma next_order_room (a : Z) (lru : bool) (l : list Z) (t : Z) :
  t ∉ l → Z.of_nat (length l) < a → next_order a lru l t = l ++ [t].
Proof.
  intros H Hlen. unfold next_order. rewrite bool_decide_eq_false_2 by done.
  by destruct (Z.ltb_spec (Z.of_nat (length l)) a); [| lia].
Qed.

Lemma next_order_full (a : Z) (lru : bool) (l : list Z) (t : Z) :
  t ∉ l → a ≤ Z.of_nat (length l) → next_order a lru l t = tail l ++ [t].
Proof.
  intros H Hlen. unfold next_order. rewrite bool_decide_eq_false_2 by done.
  by destruct (Z.ltb_spec (Z.of_nat (length l)) a); [lia |].
Qed.

(** One reference to an explicit list of tags known to be distinct. *)
Ltac order_step :=
  match goal with
  | |- context [next_order ?a ?lru ?l ?t] =>
      lazymatch l with
      | context [next_order] => fail
      | _ =>
          first
            [ rewrite (next_order_hit a lru l t) by set_solver
            | rewrite (next_order_room a lru l t) by (set_solver || (simpl; lia))
            | rewrite (next_order_full a lru l t) by (set_solver || (simpl; lia)) ]
      end
  end;
  simpl;
  repeat first [ rewrite decide_True by done | rewrite decide_False by done ];
  simpl.

Lemma contains_false (s : CacheSet.t) (l : list Z) (x : Z) :
  (∀ y, CacheSet.contains s y = true ↔ y ∈ l) → x ∉ l →
  CacheSet.contains s x = false.
Proof.
  intros Hc Hx. destruct (CacheSet.contains s x) eqn:E; [| done].
  by apply Hc in E.
Qed.

(** C8, as the code has it.  For distinct tags A, B, C, D referenced in the
    order A, B, C, A:
    - in a set of three ways under LRU the order becomes B, C, A and the next
      miss evicts B, A staying resident; under FIFO the order stays A, B, C
      and the next miss evicts A;
    - in a set of two ways, under either policy, C evicts A and the second
      reference to A is a miss that evicts B: the order becomes C, A, and the
      next miss evicts C. *)
Theorem touch_ordering (A B C D : Z) :
  A ≠ B → A ≠ C → A ≠ D → B ≠ C → B ≠ D → C ≠ D →
  (∃ s s',
     CacheSet.references (CacheSet.new 3 true) [A; B; C; A] = Ok s ∧
     CacheSet.order s = [B; C; A] ∧
     CacheSet.insert s D = Ok s' ∧
     CacheSet.order s' = [C; A; D] ∧
     CacheSet.contains s' B = false ∧
     CacheSet.contains s' A = true) ∧
  (∃ s s',
     CacheSet.references (CacheSet.new 3 false) [A; B; C; A] = Ok s ∧
     CacheSet.order s = [A; B; C] ∧
     CacheSet.insert s D = Ok s' ∧
     CacheSet.order s' = [B; C; D] ∧
     CacheSet.contains s' A = false ∧
     CacheSet.contains s' B = true) ∧
  (∀ lru, ∃ s s',
     CacheSet.references (CacheSet.new 2 lru) [A; B; C; A] = Ok s ∧
     CacheSet.order s = [C; A] ∧
     CacheSet.contains s B = false ∧
     CacheSet.insert s D = Ok s' ∧
     CacheSet.order s' = [A; D] ∧
     CacheSet.contains s' C = false ∧
     CacheSet.contains s' A = true).
Proof.
  intros AB AC AD BC BD CD.
  split; [| split; [| intros lru]].
  - destruct (reference_scenario 3 true [A; B; C; A] D [B; C; A] [C; A; D])
      as (s & s' & Hs & Ho & Hs' & Ho' & Hc & Hc');
      [lia | cbn [foldl]; repeat order_step; done
      | set_solver | done |].
    exists s, s'. repeat split; auto.
    + apply (contains_false s' [C; A; D]); [done | set_solver].
    + apply Hc'. set_solver.
  - destruct (reference_scenario 3 false [A; B; C; A] D [A; B; C] [B; C; D])
      as (s & s' & Hs & Ho & Hs' & Ho' & Hc & Hc');
      [lia | cbn [foldl]; repeat order_step; done
      | set_solver | done |].
    exists s, s'. repeat split; auto.
    + apply (contains_false s' [B; C; D]); [done | set_solver].
    + apply Hc'. set_solver.
  - destruct (reference_scenario 2 lru [A; B; C; A] D [C; A] [A; D])
      as (s & s' & Hs & Ho & Hs' & Ho' & Hc & Hc');
      [lia | cbn [foldl]; repeat order_step; done
      | set_solver | done |].
    exists s, s'. repeat split; auto.
    + apply (contains_false s [C; A]); [done | set_solver].
    + apply (contains_false s' [A; D]); [done | set_solver].
    + apply Hc'. set_solver.
Qed.

(** Tags 1, 2, 3, 1 and then 4, in a set of three ways under LRU. *)
Lemma touch_ordering_witness :
  ∃ s s',
    CacheSet.references (CacheSet.new 3 true) [1; 2; 3; 1] = Ok s ∧
    CacheSet.order s = [2; 3; 1] ∧
    CacheSet.insert s 4 = Ok s' ∧
    CacheSet.order s' = [3; 1; 4] ∧
    CacheSet.contains s' 2 = false ∧
    CacheSet.contains s' 1 = true.
Proof.
  exact (proj1 (touch_ordering 1 2 3 4
                  ltac:(lia) ltac:(lia) ltac:(lia)
                  ltac:(lia) ltac:(lia) ltac:(lia))).
Defined.

(** In a set of two ways the references 1, 2, 3, 1 leave tags 3 and 1, under
    LRU as under FIFO: tag 2 is already gone, and the next miss evicts
    tag 3, neither 2 (as claimed for LRU) nor 1 (as claimed for FIFO). *)
Lemma two_way_evicts_third :
  (∃ s s',
     CacheSet.references (CacheSet.new 2 true) [1; 2; 3; 1] = Ok s ∧
     CacheSet.order s = [3; 1] ∧
     CacheSet.contains s 2 = false ∧
     CacheSet.insert s 4 = Ok s' ∧
     CacheSet.order s' = [1; 4] ∧
     CacheSet.contains s' 3 = false) ∧
  (∃ s s',
     CacheSet.references (CacheSet.new 2 false) [1; 2; 3; 1] = Ok s ∧
     CacheSet.order s = [3; 1] ∧
     CacheSet.insert s 4 = Ok s' ∧
     CacheSet.order s' = [1; 4] ∧
     CacheSet.contains s' 1 = true ∧
     CacheSet.contains s' 3 = false).
Proof.
  split; eexists _, _.
  - split; [vm_compute; reflexivity |].
    split; [reflexivity |]. split; [reflexivity |].
    split; [vm_compute; reflexivity |].
    split; reflexivity.
  - split; [vm_compute; reflexivity |].
    split; [reflexivity |].
    split; [vm_compute; reflexivity |].
    split; [reflexivity |]. split; reflexivity.
Qed.

(** ** Addresses wider than the configured width *)

Lemma shiftr_above (x s W : Z) :
  0 ≤ s ≤ W → 2 ^ W ≤ x → Z.shiftr (x mod 2 ^ W) s < Z.shiftr x s.
Proof.
  intros Hs Hx. rewrite !Z.shiftr_div_pow2 by lia.
  assert (Hps : 0 < 2 ^ s) by (apply Z.pow_pos_nonneg; lia).
  assert (Hpw : 0 < 2 ^ (W - s)) by (apply Z.pow_pos_nonneg; lia).
  assert (Hsplit : 2 ^ W = 2 ^ s * 2 ^ (W - s)).
  { rewrite <- Z.pow_add_r by lia. f_equal. lia. }
  pose proof (Z.mod_pos_bound x (2 ^ W) ltac:(lia)) as Hmod.
  apply Z.lt_le_trans with (2 ^ (W - s)).
  - apply Z.div_lt_upper_bound; lia.
  - apply Z.div_le_lower_bound; lia.
Qed.

Lemma index_below (x ob ib W : Z) :
  0 ≤ ob → 0 ≤ ib → ob + ib ≤ W →
  Z.shiftr (x mod 2 ^ W) ob mod 2 ^ ib = Z.shiftr x ob mod 2 ^ ib.
Proof.
  intros Hob Hib HW. apply Z.bits_inj'. intros n Hn.
  destruct (Z.lt_ge_cases n ib) as [Hlt | Hge].
  - rewrite !Z.mod_pow2_bits_low, !Z.shiftr_spec by lia.
    rewrite Z.mod_pow2_bits_low by lia. reflexivity.
  - rewrite !Z.mod_pow2_bits_high by lia. reflexivity.
Qed.

(** C9, as the code has it.  [decompose] never consults the configured
    address width.  For an address below [2^W] masking changes nothing; for
    an address of [2^W] or more (with [offset_bits + index_bits <= W]) the
    block id is the whole address shifted by [offset_bits] and the tag the
    whole address shifted by [offset_bits + index_bits], both strictly
    greater than those of the address masked to [W] bits; only the set index
    is that of the masked address. *)
Theorem decompose_ignores_width (cs bs a : Z) (pol : string) (W : Z)
    (verb : bool) (c : Cache.t) (addr : Z) :
  Cache.new cs bs a pol W verb = Ok c →
  0 ≤ Cache.offset_bits c < 64 →
  Cache.offset_bits c + Cache.index_bits c ≤ W →
  (0 ≤ addr < 2 ^ W →
   Cache.decompose c (addr mod 2 ^ W) = Cache.decompose c addr) ∧
  (2 ^ W ≤ addr →
   ∃ b tag idx b' tag',
     Cache.block_id c addr = Ok b ∧
     Cache.decompose c addr = Ok (tag, idx) ∧
     Cache.block_id c (addr mod 2 ^ W) = Ok b' ∧
     Cache.decompose c (addr mod 2 ^ W) = Ok (tag', idx) ∧
     b = Z.shiftr addr (Cache.offset_bits c) ∧
     tag = Z.shiftr addr (Cache.offset_bits c + Cache.index_bits c) ∧
     b' < b ∧ tag' < tag).
Proof.
  intros Hnew Hob HW. pose proof (new_geometry _ _ _ _ _ _ _ Hnew) as Hg.
  pose proof (geom_index_bits c Hg) as Hib.
  split.
  - intros Ha. by rewrite Z.mod_small.
  - intros Ha.
    exists (Z.shiftr addr (Cache.offset_bits c)),
      (tag_of c (Z.shiftr addr (Cache.offset_bits c))),
      (index_of c (Z.shiftr addr (Cache.offset_bits c))),
      (Z.shiftr (addr mod 2 ^ W) (Cache.offset_bits c)),
      (tag_of c (Z.shiftr (addr mod 2 ^ W) (Cache.offset_bits c))).
    unfold Cache.block_id. rewrite !shr64_Ok, !decompose_Ok by done.
    split; [done |]. split; [done |]. split; [done |].
    split.
    { do 2 f_equal. unfold index_of.
      destruct (1 <? Cache.num_sets c); [| done].
      apply index_below; lia. }
    split; [done |]. unfold tag_of. rewrite !Z.shiftr_shiftr by lia.
    split; [done |].
    split; apply shiftr_above; lia.
Qed.

(** The default geometry (6 offset bits, 7 index bits, 32 address bits) at
    the 34-bit address [2^33 + 4096]. *)
Lemma decompose_ignores_width_witness :
  ∃ c b tag idx b' tag',
    Cache.new 32768 64 4 "LRU" 32 false = Ok c ∧
    Cache.block_id c 8589938688 = Ok b ∧
    Cache.decompose c 8589938688 = Ok (tag, idx) ∧
    Cache.block_id c (8589938688 mod 2 ^ 32) = Ok b' ∧
    Cache.decompose c (8589938688 mod 2 ^ 32) = Ok (tag', idx) ∧
    b' < b ∧ tag' < tag.
Proof.
  destruct (Cache.new 32768 64 4 "LRU" 32 false) as [c | |] eqn:Hnew;
    [| vm_compute in Hnew; discriminate Hnew ..].
  assert (Hob : 0 ≤ Cache.offset_bits c < 64).
  { vm_compute in Hnew. inversion Hnew. simpl. lia. }
  assert (HW : Cache.offset_bits c + Cache.index_bits c ≤ 32).
  { vm_compute in Hnew. inversion Hnew. simpl. lia. }
  destruct (decompose_ignores_width 32768 64 4 "LRU" 32 false c 8589938688
              Hnew Hob HW) as [_ Hwide].
  destruct (Hwide ltac:(lia))
    as (b & tag & idx & b' & tag' & H1 & H2 & H3 & H4 & _ & _ & H5 & H6).
  exists c, b, tag, idx, b', tag'. auto 10.
Defined.

(** With 32 address bits configured, the 33-bit address [2^32] gets tag
    [2^19], while the address masked to 32 bits, 0, gets tag 0. *)
Lemma decompose_keeps_high_bits :
  ∃ c,
    Cache.new 32768 64 4 "LRU" 32 false = Ok c ∧
    Cache.decompose c 4294967296 = Ok (524288, 0) ∧
    Cache.decompose c (4294967296 mod 2 ^ 32) = Ok (0, 0) ∧
    Cache.block_id c 4294967296 = Ok 67108864 ∧
    Cache.block_id c (4294967296 mod 2 ^ 32) = Ok 0.
Proof.
  eexists. split; [vm_compute; reflexivity |].
  split; [vm_compute; reflexivity |].
  split; [vm_compute; reflexivity |].
  split; vm_compute; reflexivity.
Qed.

(** ** The set index is in bounds *)

Lemma shr64_not_out_of_bounds (x n : Z) : shr64 x n ≠ Undefined OutOfBounds.
Proof. unfold shr64. by destruct (_ && _). Qed.

Lemma shl64_not_out_of_bounds (x n : Z) : shl64 x n ≠ Undefined OutOfBounds.
Proof. unfold shl64. by destruct (_ && _). Qed.

Lemma bind_not_undefined {A B : Type} (m : result A) (f : A → result B) (u : ub) :
  m ≠ Undefined u → (∀ x, m = Ok x → f x ≠ Undefined u) → m ≫= f ≠ Undefined u.
Proof.
  intros Hm Hf. destruct m as [x | msg | v]; simpl; [by apply Hf | done |].
  intros E. apply Hm. by inversion E.
Qed.

Lemma decompose_not_out_of_bounds (c : Cache.t) (addr : Z) :
  Cache.decompose c addr ≠ Undefined OutOfBounds.
Proof.
  unfold Cache.decompose.
  apply bind_not_undefined; [apply shr64_not_out_of_bounds |]. intros b _.
  apply bind_not_undefined.
  - destruct (1 <? Cache.num_sets c); [| done].
    apply bind_not_undefined; [apply shl64_not_out_of_bounds | done].
  - intros idx _.
    apply bind_not_undefined; [apply shr64_not_out_of_bounds | done].
Qed.

Lemma insert_not_out_of_bounds (s : CacheSet.t) (tag : Z) :
  CacheSet.insert s tag ≠ Undefined OutOfBounds.
Proof.
  unfold CacheSet.insert.
  destruct (CacheSet.contains s tag); [done |].
  destruct (_ <? _); [done |]. by destruct (CacheSet.order s).
Qed.

(** C10.  In every state a constructed simulator reaches, if the number of
    sets is a power of two then the set index that [decompose] computes for
    any address is the block id modulo the number of sets, hence
    non-negative and below it (0 when there is one set), and designates an
    element of the vector of sets; [decompose] does compute it when
    [offset_bits] is a valid shift count; and [access] never indexes the
    vector out of range. *)
Theorem set_index_in_bounds (cs bs a : Z) (pol : string) (bits : Z)
    (verb : bool) (c : Cache.t) (k : Z) (trace : list Z) (c' : Cache.t)
    (os : list (bool * classification)) (addr : Z) :
  Cache.new cs bs a pol bits verb = Ok c →
  0 ≤ k → Cache.num_sets c = 2 ^ k →
  Cache.run c trace = Ok (c', os) →
  (∀ tag idx,
     Cache.decompose c' addr = Ok (tag, idx) →
     0 ≤ idx < Cache.num_sets c' ∧
     (∃ b, Cache.block_id c' addr = Ok b ∧ idx = b mod Cache.num_sets c') ∧
     (Cache.num_sets c' = 1 → idx = 0) ∧
     is_Some (Cache.sets c' !! Z.to_nat idx)) ∧
  (0 ≤ Cache.offset_bits c' < 64 →
   ∃ tag idx, Cache.decompose c' addr = Ok (tag, idx)) ∧
  Cache.access c' addr ≠ Undefined OutOfBounds.
Proof.
  intros Hnew Hk Hn Hrun.
  pose proof (pow2_index_bits _ _ _ _ _ _ _ _ Hnew Hk Hn) as Hib.
  pose proof (new_geometry _ _ _ _ _ _ _ Hnew) as Hg.
  pose proof (run_geometry _ _ _ _ Hg Hrun) as Hg'.
  destruct (run_fixed _ _ _ _ Hrun) as (Hob' & Hib' & Hn' & _).
  rewrite Hib in Hib'. rewrite Hn in Hn'.
  assert (Hpow : 0 < 2 ^ k) by (apply Z.pow_pos_nonneg; lia).
  assert (Hidx : ∀ tag idx,
            Cache.decompose c' addr = Ok (tag, idx) →
            0 ≤ idx < Cache.num_sets c' ∧
            (∃ b, Cache.block_id c' addr = Ok b ∧ idx = b mod Cache.num_sets c') ∧
            (Cache.num_sets c' = 1 → idx = 0) ∧
            is_Some (Cache.sets c' !! Z.to_nat idx)).
  { intros tag idx Hd.
    apply decompose_inv in Hd as (b & Hb & _ & ->); [| done].
    assert (Hmod : index_of c' b = b mod 2 ^ k).
    { unfold index_of. rewrite Hn', Hib'.
      destruct (Z.ltb_spec 1 (2 ^ k)); [done |].
      replace (2 ^ k) with 1 by lia. by rewrite Z.mod_1_r. }
    rewrite Hmod, Hn'.
    pose proof (Z.mod_pos_bound b (2 ^ k) Hpow) as Hbound.
    split; [done |]. split; [by exists b |].
    split; [intros ->; by rewrite Z.mod_1_r |].
    apply lookup_lt_is_Some. rewrite (geom_sets c' Hg'), Hn'. lia. }
  split; [exact Hidx |]. split.
  - intros Ho. eexists _, _. by apply decompose_Ok.
  - unfold Cache.access.
    apply bind_not_undefined; [apply shr64_not_out_of_bounds |]. intros b _.
    apply bind_not_undefined; [apply decompose_not_out_of_bounds |].
    intros [tag idx] Hd.
    destruct (Hidx tag idx Hd) as (Hrange & _ & _ & [s Hs]).
    rewrite (vec_at_Ok _ _ s) by (done || lia). simpl.
    destruct (FullyAssocLRU.access (Cache.fa_sim c') b) as [fa fa_hit].
    destruct (CacheSet.contains s tag); [done |].
    pose proof (insert_not_out_of_bounds s tag) as Hins.
    destruct (bool_decide (b ∉ Cache.seen_blocks c')); [| destruct fa_hit];
      (apply bind_not_undefined; [done | done]).
Qed.

(** The default geometry (128 sets) after the trace [0, 64], at address
    12345678. *)
Lemma set_index_in_bounds_witness :
  ∃ c c' os tag idx,
    Cache.new 32768 64 4 "LRU" 32 false = Ok c ∧
    Cache.num_sets c = 2 ^ 7 ∧
    Cache.run c [0; 64] = Ok (c', os) ∧
    Cache.decompose c' 12345678 = Ok (tag, idx) ∧
    0 ≤ idx < Cache.num_sets c' ∧
    is_Some (Cache.sets c' !! Z.to_nat idx) ∧
    Cache.access c' 12345678 ≠ Undefined OutOfBounds.
Proof.
  destruct (Cache.new 32768 64 4 "LRU" 32 false) as [c | |] eqn:Hnew;
    [| vm_compute in Hnew; discriminate Hnew ..].
  assert (Hn : Cache.num_sets c = 2 ^ 7).
  { vm_compute in Hnew. inversion Hnew. reflexivity. }
  destruct (Cache.run c [0; 64]) as [[c' os] | |] eqn:Hrun;
    [| exfalso; vm_compute in Hnew; inversion Hnew; subst c;
       vm_compute in Hrun; discriminate Hrun ..].
  destruct (set_index_in_bounds 32768 64 4 "LRU" 32 false c 7 [0; 64] c' os
              12345678 Hnew ltac:(lia) Hn Hrun) as (Hidx & Htotal & Hsafe).
  assert (Hob : 0 ≤ Cache.offset_bits c' < 64).
  { vm_compute in Hnew; inversion Hnew; subst c.
    vm_compute in Hrun; inversion Hrun. simpl. lia. }
  destruct (Htotal Hob) as (tag & idx & Hd).
  destruct (Hidx tag idx Hd) as (Hrange & _ & _ & Hsome).
  exists c, c', os, tag, idx. auto 10.
Defined.

(** ** The list and the map of the reference cache agree *)

(** The eviction of the reference cache always finds a front element. *)
Lemma oracle_evicts_front (fa : FullyAssocLRU.t) :
  (FullyAssocLRU.capacity fa <=? size_int (FullyAssocLRU.order fa))
  && (0 <? FullyAssocLRU.capacity fa) = true →
  FullyAssocLRU.order fa ≠ [].
Proof.
  intros H Hnil. rewrite Hnil in H.
  apply andb_true_iff in H as [H1 H2].
  apply Z.leb_le in H1. apply Z.ltb_lt in H2.
  unfold size_int in H1. simpl in H1. rewrite to_int_small in H1; lia.
Qed.

Lemma new_oracle_consistent (cap : Z) :
  oracle_consistent (FullyAssocLRU.new cap).
Proof. split; simpl; [constructor | set_solver]. Qed.

Lemma access_oracle_consistent (fa : FullyAssocLRU.t) (b : Z) :
  oracle_consistent fa → oracle_consistent (FullyAssocLRU.access fa b).1.
Proof.
  intros [Hnd Hpos]. unfold FullyAssocLRU.access.
  assert (Hpush : ∀ l (P : gset Z),
            NoDup l → b ∉ l → (∀ x, x ∈ P ↔ x ∈ l) →
            NoDup (l ++ [b]) ∧ ∀ x, x ∈ ({[b]} ∪ P : gset Z) ↔ x ∈ l ++ [b]).
  { intros l P Hl Hb HP. split.
    - apply NoDup_app. split; [done |]. split; [| apply NoDup_singleton].
      intros x Hx Hx'. apply list_elem_of_singleton in Hx' as ->. done.
    - intros x. rewrite elem_of_union, elem_of_singleton, elem_of_app,
        list_elem_of_singleton, HP. tauto. }
  destruct (bool_decide (b ∈ FullyAssocLRU.pos fa)) eqn:Hin; simpl.
  - apply bool_decide_eq_true in Hin. split; simpl.
    + apply NoDup_app. split; [by apply NoDup_erase |].
      split; [| apply NoDup_singleton].
      intros x Hx Hx'. apply elem_of_erase in Hx as [_ Hx]; [| done].
      by apply list_elem_of_singleton in Hx'.
    + intros x. rewrite elem_of_union, elem_of_singleton, elem_of_app,
        elem_of_erase, list_elem_of_singleton, Hpos by done.
      destruct (decide (x = b)) as [-> | Hne]; [| tauto].
      apply Hpos in Hin. tauto.
  - apply bool_decide_eq_false in Hin.
    assert (Hb : b ∉ FullyAssocLRU.order fa) by (by rewrite <- Hpos).
    destruct (_ && _); [| by apply Hpush].
    destruct (FullyAssocLRU.order fa) as [| ev rest] eqn:Horder;
      [by apply Hpush |].
    apply NoDup_cons in Hnd as [Hev Hnd]. simpl.
    apply Hpush; [done | set_solver |].
    intros x. rewrite elem_of_difference, elem_of_singleton, Hpos, elem_of_cons.
    split; [intros [[-> | Hx] Hne]; done |].
    intros Hx. split; [by right |]. intros ->. done.
Qed.

(** ** An access leaves its line resident *)

Lemma touch_keeps (s : CacheSet.t) (tag : Z) :
  CacheSet.contains s tag = true →
  CacheSet.contains (CacheSet.touch s tag) tag = true.
Proof.
  intros H. unfold CacheSet.touch.
  destruct (CacheSet.isLRU s) eqn:Hlru; simpl; [| done].
  assert (Hp : bool_decide (tag ∈ CacheSet.pos s) = true).
  { unfold CacheSet.contains in H. by rewrite Hlru in H. }
  rewrite Hp. simpl. unfold CacheSet.contains. simpl.
  apply bool_decide_eq_true. set_solver.
Qed.

Lemma push_contains_self (s : CacheSet.t) (tag : Z) :
  CacheSet.contains (CacheSet.push s tag) tag = true.
Proof.
  unfold CacheSet.push, CacheSet.contains.
  destruct (CacheSet.isLRU s) eqn:Hlru; simpl;
    apply bool_decide_eq_true; set_solver.
Qed.

Lemma insert_contains_self (s : CacheSet.t) (tag : Z) (s1 : CacheSet.t) :
  CacheSet.insert s tag = Ok s1 → CacheSet.contains s1 tag = true.
Proof.
  unfold CacheSet.insert.
  destruct (CacheSet.contains s tag) eqn:Hc.
  - intros H; inversion H; subst s1.
    destruct (CacheSet.isLRU s); [by apply touch_keeps | done].
  - destruct (size_int (CacheSet.order s) <? CacheSet.assoc s).
    + intros H; inversion H. apply push_contains_self.
    + destruct (CacheSet.order s) as [| ev rest]; [done |].
      intros H; inversion H. apply push_contains_self.
Qed.

(** X1. Whenever an access completes, the access to the same address that
    follows it completes as well and is a hit. *)
Theorem repeated_access_hits (c : Cache.t) (addr : Z) (c1 : Cache.t)
    (o : bool * classification) :
  Cache.access c addr = Ok (c1, o) →
  ∃ c2, Cache.access c1 addr = Ok (c2, (true, HIT)).
Proof.
  intros H.
  apply access_inv in H
    as (b & tag & idx & s & s1 & h & m & mco & mca & mcf
        & Hb & Hd & Hidx & Hs & Ho & ->).
  assert (Hres : CacheSet.contains s1 tag = true).
  { inversion Ho; subst; try (by eapply insert_contains_self).
    destruct (Cache.is_lru (Cache.policy c)); [by apply touch_keeps | done]. }
  unfold Cache.access, Cache.block_id in *.
  change (Cache.decompose (Cache.update _ _ _ _ _ _ _ _ _) addr)
    with (Cache.decompose c addr).
  simpl. rewrite Hb, Hd. simpl.
  rewrite (vec_at_Ok _ _ s1);
    [| done | apply list_lookup_insert_eq; by apply lookup_lt_Some in Hs].
  simpl. rewrite Hres.
  destruct (FullyAssocLRU.access _ b) as [fa fa_hit]. eauto.
Qed.

(** The default geometry, address 4096 twice. *)
Lemma repeated_access_hits_witness :
  ∃ c c1 o c2,
    Cache.new 32768 64 4 "FIFO" 32 false = Ok c ∧
    Cache.access c 4096 = Ok (c1, o) ∧
    Cache.access c1 4096 = Ok (c2, (true, HIT)).
Proof.
  destruct (Cache.new 32768 64 4 "FIFO" 32 false) as [c | |] eqn:Hnew;
    [| vm_compute in Hnew; discriminate Hnew ..].
  destruct (Cache.access c 4096) as [[c1 o] | |] eqn:Ha;
    [| exfalso; vm_compute in Hnew; inversion Hnew; subst c;
       vm_compute in Ha; discriminate Ha ..].
  destruct (repeated_access_hits c 4096 c1 o Ha) as [c2 H2].
  exists c, c1, o, c2. auto.
Defined.

(** ** Compulsory misses count the distinct blocks *)

Lemma access_compulsory_count (c : Cache.t) (addr : Z) (c' : Cache.t)
    (o : bool * classification) :
  geometry c → resident_seen c →
  Cache.access c addr = Ok (c', o) →
  size (Cache.seen_blocks c')
  = (size (Cache.seen_blocks c) + count_class MISS_COMPULSORY [o])%nat ∧
  (Cache.miss_compulsory c
   = wrap64 (Z.of_nat (size (Cache.seen_blocks c))) →
   Cache.miss_compulsory c'
   = wrap64 (Z.of_nat (size (Cache.seen_blocks c')))).
Proof.
  intros Hg Hres H.
  apply access_inv in H
    as (b & tag & idx & s & s1 & h & m & mco & mca & mcf
        & Hb & Hd & Hidx & Hs & Ho & ->).
  apply decompose_inv in Hd as (b1 & Hb1 & -> & ->); [| done].
  rewrite Hb in Hb1. inversion Hb1; subst b1. simpl.
  assert (Hold : b ∈ Cache.seen_blocks c →
                 {[b]} ∪ Cache.seen_blocks c = Cache.seen_blocks c)
    by set_solver.
  inversion Ho; subst; simpl.
  - rewrite Hold by (by apply (Hres b s)). split; [lia | done].
  - rewrite size_union, size_singleton by set_solver. split; [lia |].
    intros ->. rewrite wrap64_add_l. f_equal. lia.
  - rewrite Hold by done. split; [lia | done].
  - rewrite Hold by done. split; [lia | done].
Qed.

Lemma count_class_cons (k : classification) (o : bool * classification)
    (os : list (bool * classification)) :
  count_class k (o :: os) = (count_class k [o] + count_class k os)%nat.
Proof. destruct o as [h k']. simpl. by destruct k, k'. Qed.

Lemma run_compulsory_count (trace : list Z) (c c' : Cache.t)
    (os : list (bool * classification)) :
  geometry c → resident_seen c →
  Cache.run c trace = Ok (c', os) →
  size (Cache.seen_blocks c')
  = (size (Cache.seen_blocks c) + count_class MISS_COMPULSORY os)%nat ∧
  (Cache.miss_compulsory c
   = wrap64 (Z.of_nat (size (Cache.seen_blocks c))) →
   Cache.miss_compulsory c'
   = wrap64 (Z.of_nat (size (Cache.seen_blocks c')))).
Proof.
  revert c os. induction trace as [| addr trace IH]; intros c os Hg Hres H.
  - simpl in H. inversion H; subst. simpl. split; [lia | done].
  - apply run_cons_inv in H as (c1 & o & os1 & Ha & Hr & ->).
    destruct (access_compulsory_count c addr c1 o Hg Hres Ha) as [Hsz Hmc].
    destruct (IH c1 os1
                (access_geometry _ _ _ _ Hg Ha)
                (access_resident_seen _ _ _ _ Hg Hres Ha) Hr) as [Hsz' Hmc'].
    rewrite count_class_cons. split; [lia | auto].
Qed.

(** X2. After any run of a constructed simulator the seen set holds exactly
    the block ids of the addresses of the trace, the number of accesses
    classified [MISS_COMPULSORY] is the number of these distinct block ids,
    and the counter [miss_compulsory] is that number as a [u64]. *)
Theorem compulsory_counts_blocks (cs bs a : Z) (pol : string) (bits : Z)
    (verb : bool) (c : Cache.t) (trace : list Z) (c' : Cache.t)
    (os : list (bool * classification)) :
  Cache.new cs bs a pol bits verb = Ok c →
  Cache.run c trace = Ok (c', os) →
  (∀ b, b ∈ Cache.seen_blocks c'
        ↔ ∃ x, x ∈ trace ∧ Cache.block_id c x = Ok b) ∧
  count_class MISS_COMPULSORY os = size (Cache.seen_blocks c') ∧
  Cache.miss_compulsory c' = wrap64 (Z.of_nat (size (Cache.seen_blocks c'))).
Proof.
  intros Hnew Hrun.
  pose proof (new_geometry _ _ _ _ _ _ _ Hnew) as Hg.
  pose proof (new_resident_seen _ _ _ _ _ _ _ Hnew) as Hres.
  destruct (run_compulsory_count trace c c' os Hg Hres Hrun) as [Hsz Hmc].
  assert (Hc : Cache.seen_blocks c = ∅ ∧ Cache.miss_compulsory c = 0).
  { apply new_inv in Hnew as (tbits & _ & _ & _ & _ & ->). done. }
  destruct Hc as [Hseen0 Hmc0].
  rewrite Hseen0, size_empty in Hsz, Hmc.
  split; [| split; [lia | by apply Hmc]].
  intros b. split.
  - intros Hb.
    destruct (run_seen_blocks _ _ _ _ _ Hrun Hb) as [Hin | Hex]; [| done].
    rewrite Hseen0 in Hin. set_solver.
  - intros (x & Hx & Hb). by eapply run_seen_blocks_complete.
Qed.

(** The trace [0, 64, 0, 32, 128] on the default geometry: three blocks. *)
Lemma compulsory_counts_blocks_witness :
  ∃ c c' os,
    Cache.new 32768 64 4 "LRU" 32 false = Ok c ∧
    Cache.run c [0; 64; 0; 32; 128] = Ok (c', os) ∧
    count_class MISS_COMPULSORY os = size (Cache.seen_blocks c') ∧
    Cache.miss_compulsory c' = wrap64 (Z.of_nat (size (Cache.seen_blocks c'))).
Proof.
  destruct (Cache.new 32768 64 4 "LRU" 32 false) as [c | |] eqn:Hnew;
    [| vm_compute in Hnew; discriminate Hnew ..].
  destruct (Cache.run c [0; 64; 0; 32; 128]) as [[c' os] | |] eqn:Hrun;
    [| exfalso; vm_compute in Hnew; inversion Hnew; subst c;
       vm_compute in Hrun; discriminate Hrun ..].
  destruct (compulsory_counts_blocks 32768 64 4 "LRU" 32 false c
              [0; 64; 0; 32; 128] c' os Hnew Hrun) as (_ & H1 & H2).
  exists c, c', os. auto.
Defined.

(** ** Every set stays within its associativity *)

Lemma access_sets_hold (a : Z) (c : Cache.t) (addr : Z) (c' : Cache.t)
    (o : bool * classification) :
  Forall (λ s, CacheSet.assoc s = a ∧ holds s (CacheSet.order s)) (Cache.sets c) →
  Cache.access c addr = Ok (c', o) →
  Forall (λ s, CacheSet.assoc s = a ∧ holds s (CacheSet.order s)) (Cache.sets c').
Proof.
  intros Hall H.
  apply access_inv in H
    as (b & tag & idx & s & s1 & h & m & mco & mca & mcf
        & Hb & Hd & Hidx & Hs & Ho & ->).
  simpl. apply Forall_insert; [done |].
  destruct (Forall_lookup_1 _ _ _ _ Hall Hs) as [Ha Hh].
  assert (Hmiss : CacheSet.contains s tag = false →
                  CacheSet.insert s tag = Ok s1 →
                  CacheSet.assoc s1 = a ∧ holds s1 (CacheSet.order s1)).
  { intros Hc Hins.
    assert (Hout : tag ∉ CacheSet.order s).
    { intros Hin. apply Hh in Hin. congruence. }
    destruct (insert_holds s _ tag Hh Hout) as (s' & Hs' & Ha' & _ & Hh').
    rewrite Hins in Hs'. inversion Hs'; subst s'.
    split; [congruence |].
    by rewrite (proj1 Hh'). }
  inversion Ho; subst; auto.
  destruct (Cache.is_lru (Cache.policy c)); [| done].
  assert (Hin : tag ∈ CacheSet.order s) by (by apply Hh).
  destruct (touch_holds s _ tag Hh Hin) as (Ha' & _ & Hh').
  split; [done |]. by rewrite (proj1 Hh').
Qed.

(** X3. In every state a constructed simulator with a positive
    associativity reaches, each set holds at most [assoc] tags, holds no tag
    twice, and [contains] answers true exactly for the tags in its order
    list. *)
Theorem sets_within_associativity (cs bs a : Z) (pol : string) (bits : Z)
    (verb : bool) (c : Cache.t) (trace : list Z) (c' : Cache.t)
    (os : list (bool * classification)) :
  Cache.new cs bs a pol bits verb = Ok c →
  0 < a < 2 ^ 31 →
  Cache.run c trace = Ok (c', os) →
  Forall (λ s,
            CacheSet.assoc s = a ∧
            Z.of_nat (length (CacheSet.order s)) ≤ a ∧
            NoDup (CacheSet.order s) ∧
            ∀ x, CacheSet.contains s x = true ↔ x ∈ CacheSet.order s)
         (Cache.sets c').
Proof.
  intros Hnew Ha Hrun.
  assert (H : Forall (λ s, CacheSet.assoc s = a ∧ holds s (CacheSet.order s))
                (Cache.sets c')).
  { eapply (run_invariant
              (λ x, Forall (λ s, CacheSet.assoc s = a
                                 ∧ holds s (CacheSet.order s)) (Cache.sets x)));
      [| | exact Hrun].
    - intros x addr x' o Hx Hacc. by eapply access_sets_hold.
    - apply new_inv in Hnew as (tbits & _ & _ & _ & _ & ->). simpl.
      apply Forall_replicate. split; [done |]. by apply new_holds. }
  eapply Forall_impl; [exact H |].
  intros s [Hassoc (_ & Hnd & Hc & Hlen & _)]. simpl.
  repeat split; auto; try lia; by apply Hc.
Qed.

(** The two-way cache of 128 bytes after four distinct blocks. *)
Lemma sets_within_associativity_witness :
  ∃ c c' os,
    Cache.new 128 64 2 "LRU" 32 false = Ok c ∧
    Cache.run c [0; 64; 128; 192] = Ok (c', os) ∧
    Forall (λ s,
              CacheSet.assoc s = 2 ∧
              Z.of_nat (length (CacheSet.order s)) ≤ 2 ∧
              NoDup (CacheSet.order s) ∧
              ∀ x, CacheSet.contains s x = true ↔ x ∈ CacheSet.order s)
           (Cache.sets c').
Proof.
  destruct (Cache.new 128 64 2 "LRU" 32 false) as [c | |] eqn:Hnew;
    [| vm_compute in Hnew; discriminate Hnew ..].
  destruct (Cache.run c [0; 64; 128; 192]) as [[c' os] | |] eqn:Hrun;
    [| exfalso; vm_compute in Hnew; inversion Hnew; subst c;
       vm_compute in Hrun; discriminate Hrun ..].
  exists c, c', os. split; [reflexivity |]. split; [exact Hrun |].
  exact (sets_within_associativity 128 64 2 "LRU" 32 false c
           [0; 64; 128; 192] c' os Hnew ltac:(lia) Hrun).
Defined.

(** ** A non-positive associativity *)

(** X4. A simulator constructed with a non-positive associativity completes
    no access at all: the first insertion takes [front()] of an empty
    list. *)
Theorem nonpositive_associativity (cs bs a : Z) (pol : string) (bits : Z)
    (verb : bool) (c : Cache.t) (addr : Z) (rest : list Z) :
  Cache.new cs bs a pol bits verb = Ok c →
  a ≤ 0 →
  (∀ r, Cache.access c addr ≠ Ok r) ∧
  (∀ r, Cache.run c (addr :: rest) ≠ Ok r) ∧
  (∀ k, 0 ≤ k → Cache.num_sets c = 2 ^ k → 0 ≤ Cache.offset_bits c < 64 →
   Cache.access c addr = Undefined EmptyFront).
Proof.
  intros Hnew Ha.
  assert (Hacc : ∀ r, Cache.access c addr ≠ Ok r).
  { intros [c' o] H.
    apply access_inv in H
      as (b & tag & idx & s & s1 & h & m & mco & mca & mcf
          & Hb & Hd & Hidx & Hs & Ho & ->).
    apply new_inv in Hnew as (tbits & _ & _ & _ & _ & ->). simpl in *.
    apply lookup_replicate in Hs as [-> _].
    assert (Hins : ∀ s', CacheSet.insert
                           (CacheSet.new a (Cache.is_lru pol)) tag ≠ Ok s').
    { intros s'. unfold CacheSet.insert. rewrite new_contains. simpl.
      change (size_int []) with 0.
      destruct (Z.ltb_spec 0 a); [lia | done]. }
    inversion Ho; subst.
    - by rewrite new_contains in *.
    - by eapply Hins.
    - by eapply Hins.
    - by eapply Hins. }
  split; [exact Hacc |]. split.
  - intros [c' os] H.
    apply run_cons_inv in H as (c1 & o & os1 & Hacc1 & _ & _).
    by eapply Hacc.
  - intros k Hk Hn Hob.
    pose proof (new_geometry _ _ _ _ _ _ _ Hnew) as Hg.
    pose proof (pow2_index_bits _ _ _ _ _ _ _ _ Hnew Hk Hn) as Hib.
    assert (Hpow : 0 < 2 ^ k) by (apply Z.pow_pos_nonneg; lia).
    set (b := Z.shiftr addr (Cache.offset_bits c)).
    assert (Hidx : 0 ≤ index_of c b < Cache.num_sets c).
    { unfold index_of. rewrite Hn, Hib.
      destruct (Z.ltb_spec 1 (2 ^ k)); [by apply Z.mod_pos_bound | lia]. }
    destruct (lookup_lt_is_Some_2 (Cache.sets c) (Z.to_nat (index_of c b)))
      as [s Hs]; [rewrite (geom_sets c Hg); lia |].
    unfold Cache.access. rewrite shr64_Ok, decompose_Ok by done. fold b. simpl.
    rewrite (vec_at_Ok _ _ s) by (done || lia). simpl.
    apply new_inv in Hnew as (tbits & _ & _ & _ & _ & ->). simpl in *.
    apply lookup_replicate in Hs as [-> _].
    rewrite new_contains.
    destruct (FullyAssocLRU.access _ _) as [fa fa_hit].
    assert (Hins : ∀ tag, CacheSet.insert
                           (CacheSet.new a (Cache.is_lru pol)) tag
                          = Undefined EmptyFront).
    { intros tag. unfold CacheSet.insert. rewrite new_contains. simpl.
      change (size_int []) with 0.
      destruct (Z.ltb_spec 0 a); [lia | done]. }
    rewrite bool_decide_eq_true_2 by set_solver.
    by rewrite Hins.
Qed.

(** [assoc = -1] with [cache_size = 2^64 - 64] and [block_size = 64] is
    accepted by the constructor. *)
Lemma nonpositive_associativity_witness :
  ∃ c,
    Cache.new 18446744073709551552 64 (-1) "LRU" 32 false = Ok c ∧
    Cache.access c 0 = Undefined EmptyFront ∧
    (∀ r, Cache.run c [0; 64] ≠ Ok r).
Proof.
  destruct (Cache.new 18446744073709551552 64 (-1) "LRU" 32 false)
    as [c | |] eqn:Hnew; [| vm_compute in Hnew; discriminate Hnew ..].
  destruct (nonpositive_associativity 18446744073709551552 64 (-1) "LRU" 32
              false c 0 [64] Hnew ltac:(lia)) as (_ & Hrun & Hfront).
  exists c. split; [reflexivity |]. split; [| exact Hrun].
  apply (Hfront 0); vm_compute in Hnew; inversion Hnew; simpl; lia.
Defined.

(** ** Lines leave a set only when it is full *)

(** What one access does to the order list of the set it selects. *)
Lemma outcome_order (c : Cache.t) (s : CacheSet.t) (tag b : Z)
    (s1 : CacheSet.t) (h m mco mca mcf : Z) (o : bool * classification) :
  holds s (CacheSet.order s) →
  outcome c s tag b s1 h m mco mca mcf o →
  CacheSet.assoc s1 = CacheSet.assoc s ∧
  tag ∈ CacheSet.order s1 ∧
  ∀ x, x ∈ CacheSet.order s
       ∨ Z.of_nat (length (CacheSet.order s)) = CacheSet.assoc s →
       x ∈ CacheSet.order s1
       ∨ Z.of_nat (length (CacheSet.order s1)) = CacheSet.assoc s.
Proof.
  intros Hh Ho. pose proof Hh as (_ & Hnd & Hc & Hlen & Ha).
  assert (Hmiss : CacheSet.contains s tag = false →
                  CacheSet.insert s tag = Ok s1 →
                  CacheSet.assoc s1 = CacheSet.assoc s ∧
                  tag ∈ CacheSet.order s1 ∧
                  ∀ x, x ∈ CacheSet.order s
                       ∨ Z.of_nat (length (CacheSet.order s)) = CacheSet.assoc s →
                       x ∈ CacheSet.order s1
                       ∨ Z.of_nat (length (CacheSet.order s1))
                         = CacheSet.assoc s).
  { intros Hcf Hins.
    assert (Hout : tag ∉ CacheSet.order s).
    { intros Hin. apply Hc in Hin. congruence. }
    destruct (insert_holds s _ tag Hh Hout) as (s' & Hs' & Ha' & _ & Hh').
    rewrite Hins in Hs'. inversion Hs'; subst s'.
    split; [done |]. rewrite (proj1 Hh').
    destruct (Z.ltb_spec (Z.of_nat (length (CacheSet.order s)))
                (CacheSet.assoc s)) as [Hroom | Hfull].
    - split; [set_solver |]. intros x [Hx | Hx]; [left; set_solver | lia].
    - split; [set_solver |]. intros x _. right.
      rewrite length_app. simpl.
      destruct (CacheSet.order s) as [| ev rest]; simpl in *; lia. }
  inversion Ho; subst; auto.
  assert (Hin : tag ∈ CacheSet.order s) by (by apply Hc).
  destruct (Cache.is_lru (Cache.policy c)); [| by auto].
  destruct (touch_holds s _ tag Hh Hin) as (Ha' & _ & Hh').
  split; [done |]. rewrite (proj1 Hh').
  destruct (CacheSet.isLRU s); [| by auto].
  split; [set_solver |].
  intros x [Hx | Hx].
  - left. destruct (decide (x = tag)) as [-> | Hne]; [set_solver |].
    apply elem_of_app. left. by apply elem_of_erase.
  - right. rewrite length_app. simpl.
    pose proof (length_erase tag _ Hin). lia.
Qed.

Lemma access_kept_or_full (a : Z) (c : Cache.t) (addr : Z) (c' : Cache.t)
    (o : bool * classification) :
  geometry c →
  Forall (λ s, CacheSet.assoc s = a ∧ holds s (CacheSet.order s)) (Cache.sets c) →
  kept_or_full c →
  Cache.access c addr = Ok (c', o) → kept_or_full c'.
Proof.
  intros Hg Hall Hk H.
  apply access_inv in H
    as (b0 & tag & idx & s0 & s1 & h & m & mco & mca & mcf
        & Hb & Hd & Hidx & Hs0 & Ho & ->).
  apply decompose_inv in Hd as (b1 & Hb1 & -> & ->); [| done].
  rewrite Hb in Hb1. inversion Hb1; subst b1.
  destruct (Forall_lookup_1 _ _ _ _ Hall Hs0) as [Ha Hh].
  destruct (outcome_order _ _ _ _ _ _ _ _ _ _ _ Hh Ho) as (Ha1 & Hin1 & Hkeep).
  intros b s. unfold tag_of, index_of. simpl.
  fold (tag_of c b) (index_of c b) (tag_of c b0) (index_of c b0).
  intros Hseen Hs.
  destruct (decide (Z.to_nat (index_of c b) = Z.to_nat (index_of c b0)))
    as [Heq | Hne].
  - rewrite Heq, list_lookup_insert_eq in Hs
      by (by apply lookup_lt_Some in Hs0).
    inversion Hs; subst s. rewrite Ha1.
    destruct (decide (b = b0)) as [-> | Hnb]; [by left |].
    apply Hkeep. apply Hk; [set_solver | by rewrite Heq].
  - rewrite list_lookup_insert_ne in Hs by done.
    apply Hk; [| done].
    apply elem_of_union in Hseen as [Hseen | Hseen]; [| done].
    apply elem_of_singleton in Hseen. subst b. done.
Qed.

(** X5. In a simulator constructed with a positive associativity, a line
    leaves a set only by eviction from a full set: whenever an access misses
    on a block referenced before, the set it selects holds [assoc] tags, and
    the access drops the oldest of them and appends its own. *)
Theorem later_miss_finds_set_full (cs bs a : Z) (pol : string) (bits : Z)
    (verb : bool) (c : Cache.t) (pre : list Z) (c1 : Cache.t)
    (os : list (bool * classification)) (addr : Z) (c2 : Cache.t)
    (k : classification) :
  Cache.new cs bs a pol bits verb = Ok c →
  0 < a < 2 ^ 31 →
  Cache.run c pre = Ok (c1, os) →
  Cache.access c1 addr = Ok (c2, (false, k)) →
  k ≠ MISS_COMPULSORY →
  ∃ tag idx s ev rest s',
    Cache.decompose c1 addr = Ok (tag, idx) ∧
    Cache.sets c1 !! Z.to_nat idx = Some s ∧
    Z.of_nat (length (CacheSet.order s)) = a ∧
    CacheSet.order s = ev :: rest ∧
    Cache.sets c2 !! Z.to_nat idx = Some s' ∧
    CacheSet.order s' = rest ++ [tag].
Proof.
  intros Hnew Ha Hrun Hacc Hk.
  set (P := λ x : Cache.t,
         geometry x ∧
         Forall (λ s, CacheSet.assoc s = a ∧ holds s (CacheSet.order s))
           (Cache.sets x) ∧
         kept_or_full x).
  assert (HP : P c1).
  { eapply (run_invariant P); [| | exact Hrun].
    - intros x ad x' o (Hg & Hall & Hkf) Hx. split; [| split].
      + by eapply access_geometry.
      + by eapply access_sets_hold.
      + by eapply access_kept_or_full.
    - split; [by eapply new_geometry |].
      apply new_inv in Hnew as (tbits & _ & _ & _ & _ & ->). simpl.
      split; [apply Forall_replicate; split; [done | by apply new_holds] |].
      intros b s Hb. simpl in Hb. set_solver. }
  destruct HP as (Hg & Hall & Hkf).
  apply access_inv in Hacc
    as (b0 & tag & idx & s0 & s1 & h & m & mco & mca & mcf
        & Hb & Hd & Hidx & Hs0 & Ho & ->).
  pose proof Hd as Hd'.
  apply decompose_inv in Hd' as (b1 & Hb1 & Htag & Hix); [| done].
  rewrite Hb in Hb1. inversion Hb1; subst b1.
  destruct (Forall_lookup_1 _ _ _ _ Hall Hs0) as [Has Hh].
  pose proof Hh as (_ & Hnd & Hc & Hlen & _).
  assert (Hmiss : CacheSet.contains s0 tag = false
                  ∧ CacheSet.insert s0 tag = Ok s1
                  ∧ b0 ∈ Cache.seen_blocks c1).
  { inversion Ho; subst; done. }
  destruct Hmiss as (Hcf & Hins & Hseen).
  assert (Hout : tag ∉ CacheSet.order s0).
  { intros Hin. apply Hc in Hin. congruence. }
  assert (Hfull : Z.of_nat (length (CacheSet.order s0)) = a).
  { destruct (Hkf b0 s0 Hseen) as [Hin | Hf].
    - by rewrite <- Hix.
    - by rewrite <- Htag in Hin.
    - by rewrite <- Has. }
  destruct (insert_holds s0 _ tag Hh Hout) as (s' & Hs' & _ & _ & Hh').
  rewrite Hins in Hs'. inversion Hs'; subst s'.
  rewrite Has in Hh'.
  destruct (Z.ltb_spec (Z.of_nat (length (CacheSet.order s0))) a); [lia |].
  destruct (CacheSet.order s0) as [| ev rest] eqn:Hord; [simpl in *; lia |].
  exists tag, idx, s0, ev, rest, s1.
  split; [done |]. split; [done |]. split; [by rewrite Hord |].
  split; [done |].
  simpl. split; [| exact (proj1 Hh')].
  apply list_lookup_insert_eq. by apply lookup_lt_Some in Hs0.
Qed.

(** Two ways, one set: the miss on block 0 after blocks 0, 1 and 2. *)
Lemma later_miss_finds_set_full_witness :
  ∃ c c1 os c2 k s,
    Cache.new 128 64 2 "LRU" 32 false = Ok c ∧
    Cache.run c [0; 64; 128] = Ok (c1, os) ∧
    Cache.access c1 0 = Ok (c2, (false, k)) ∧
    Cache.sets c1 !! 0%nat = Some s ∧
    length (CacheSet.order s) = 2%nat.
Proof.
  destruct (Cache.new 128 64 2 "LRU" 32 false) as [c | |] eqn:Hnew;
    [| vm_compute in Hnew; discriminate Hnew ..].
  destruct (Cache.run c [0; 64; 128]) as [[c1 os] | |] eqn:Hrun;
    [| exfalso; vm_compute in Hnew; inversion Hnew; subst c;
       vm_compute in Hrun; discriminate Hrun ..].
  destruct (Cache.access c1 0) as [[c2 [hit k]] | |] eqn:Hacc;
    [| exfalso; vm_compute in Hnew; inversion Hnew; subst c;
       vm_compute in Hrun; inversion Hrun; subst c1;
       vm_compute in Hacc; discriminate Hacc ..].
  assert (Hk : hit = false ∧ k ≠ MISS_COMPULSORY).
  { clear -Hnew Hrun Hacc.
    vm_compute in Hnew; inversion Hnew; subst c.
    vm_compute in Hrun; inversion Hrun; subst c1.
    vm_compute in Hacc. inversion Hacc. done. }
  destruct Hk as [-> Hk].
  destruct (later_miss_finds_set_full 128 64 2 "LRU" 32 false c [0; 64; 128]
              c1 os 0 c2 k Hnew ltac:(lia) Hrun Hacc Hk)
    as (tag & idx & s & ev & rest & s' & Hd & Hs & Hlen & _).
  assert (Hidx : idx = 0).
  { clear -Hnew Hrun Hd.
    vm_compute in Hnew; inversion Hnew; subst c.
    vm_compute in Hrun; inversion Hrun; subst c1.
    vm_compute in Hd. by inversion Hd. }
  subst idx.
  exists c, c1, os, c2, k, s. repeat split; try done. lia.
Defined.

(** ** The reference cache as a list of its most recent blocks *)

Lemma erase_app_l (x : Z) (l1 l2 : list Z) :
  x ∈ l1 → erase x (l1 ++ l2) = erase x l1 ++ l2.
Proof.
  induction l1 as [| y l1 IH]; intros Hin; simpl; [by inversion Hin |].
  destruct (decide (x = y)); [done |].
  simpl. f_equal. apply IH. set_solver.
Qed.

Lemma erase_app_r (x : Z) (l1 l2 : list Z) :
  x ∉ l1 → erase x (l1 ++ l2) = l1 ++ erase x l2.
Proof.
  induction l1 as [| y l1 IH]; intros Hin; simpl; [done |].
  destruct (decide (x = y)) as [-> | Hne]; [set_solver |].
  f_equal. apply IH. set_solver.
Qed.

(** With a positive capacity the reference cache hits exactly on the blocks
    of its list and orders them as an LRU set of [capacity] ways does. *)
Lemma oracle_access_spec (fa : FullyAssocLRU.t) (b : Z) :
  oracle_consistent fa →
  0 < FullyAssocLRU.capacity fa < 2 ^ 31 →
  Z.of_nat (length (FullyAssocLRU.order fa)) ≤ FullyAssocLRU.capacity fa →
  (FullyAssocLRU.access fa b).2 = bool_decide (b ∈ FullyAssocLRU.order fa) ∧
  FullyAssocLRU.order (FullyAssocLRU.access fa b).1
  = next_order (FullyAssocLRU.capacity fa) true (FullyAssocLRU.order fa) b ∧
  Z.of_nat (length (FullyAssocLRU.order (FullyAssocLRU.access fa b).1))
  ≤ FullyAssocLRU.capacity fa.
Proof.
  intros [Hnd Hpos] Hcap Hlen.
  unfold FullyAssocLRU.access, next_order.
  rewrite size_int_small by lia.
  destruct (decide (b ∈ FullyAssocLRU.order fa)) as [Hin | Hout].
  - rewrite (bool_decide_eq_true_2 (b ∈ FullyAssocLRU.pos fa))
      by (by apply Hpos).
    rewrite bool_decide_eq_true_2 by done. simpl.
    split; [done |]. split; [done |].
    rewrite length_app. simpl. pose proof (length_erase b _ Hin). lia.
  - rewrite (bool_decide_eq_false_2 (b ∈ FullyAssocLRU.pos fa))
      by (by rewrite Hpos).
    rewrite bool_decide_eq_false_2 by done.
    destruct (Z.ltb_spec 0 (FullyAssocLRU.capacity fa)); [| lia].
    rewrite andb_true_r.
    destruct (Z.leb_spec (FullyAssocLRU.capacity fa)
                (Z.of_nat (length (FullyAssocLRU.order fa)))) as [Hfull | Hroom].
    + destruct (Z.ltb_spec (Z.of_nat (length (FullyAssocLRU.order fa)))
                  (FullyAssocLRU.capacity fa)); [lia |].
      destruct (FullyAssocLRU.order fa) as [| ev rest]; simpl in *; [lia |].
      split; [done |]. split; [done |]. rewrite length_app. simpl. lia.
    + destruct (Z.ltb_spec (Z.of_nat (length (FullyAssocLRU.order fa)))
                  (FullyAssocLRU.capacity fa)); [| lia].
      simpl. split; [done |]. split; [done |]. rewrite length_app. simpl. lia.
Qed.

Lemma elem_of_erase_weak (x y : Z) (l : list Z) : y ∈ erase x l → y ∈ l.
Proof.
  induction l as [| z l IH]; simpl; [done |].
  destruct (decide (x = z)); [by apply list_elem_of_further |].
  intros Hy. apply elem_of_cons in Hy as [-> | Hy];
    [apply list_elem_of_here | apply list_elem_of_further; auto].
Qed.

Lemma oracle_access_elements (fa : FullyAssocLRU.t) (b x : Z) :
  x ∈ FullyAssocLRU.order (FullyAssocLRU.access fa b).1 →
  x = b ∨ x ∈ FullyAssocLRU.order fa.
Proof.
  unfold FullyAssocLRU.access.
  destruct (bool_decide (b ∈ FullyAssocLRU.pos fa)); simpl.
  - rewrite elem_of_app, list_elem_of_singleton.
    intros [Hx | ->]; [right; by eapply elem_of_erase_weak | by left].
  - destruct (_ && _); [destruct (FullyAssocLRU.order fa) as [| ev rest] |];
      simpl; set_solver.
Qed.

Lemma oracle_run_invariant (P : FullyAssocLRU.t → Prop) :
  (∀ fa b, P fa → P (FullyAssocLRU.access fa b).1) →
  ∀ blocks fa, P fa → P (FullyAssocLRU.run fa blocks).1.
Proof.
  intros Hstep blocks. induction blocks as [| b blocks IH]; intros fa HP; [done |].
  simpl. specialize (Hstep fa b HP).
  destruct (FullyAssocLRU.access fa b) as [fa1 h]. simpl in Hstep.
  specialize (IH fa1 Hstep).
  by destruct (FullyAssocLRU.run fa1 blocks) as [fa2 hs].
Qed.

(** X6. The reference cache of a positive capacity, after any sequence of
    accesses, holds at most [capacity] blocks, none of them twice, its map
    has exactly the keys of its list, and every block it holds was
    accessed. *)
Theorem oracle_within_capacity (cap : Z) (blocks : list Z) :
  0 < cap < 2 ^ 31 →
  let fa := (FullyAssocLRU.run (FullyAssocLRU.new cap) blocks).1 in
  FullyAssocLRU.capacity fa = cap ∧
  Z.of_nat (length (FullyAssocLRU.order fa)) ≤ cap ∧
  NoDup (FullyAssocLRU.order fa) ∧
  (∀ x, x ∈ FullyAssocLRU.pos fa ↔ x ∈ FullyAssocLRU.order fa) ∧
  (∀ x, x ∈ FullyAssocLRU.order fa → x ∈ blocks).
Proof.
  intros Hcap fa.
  assert (H : (FullyAssocLRU.capacity fa = cap ∧ oracle_consistent fa ∧
               Z.of_nat (length (FullyAssocLRU.order fa)) ≤ cap)).
  { apply (oracle_run_invariant
             (λ x, FullyAssocLRU.capacity x = cap ∧ oracle_consistent x ∧
                   Z.of_nat (length (FullyAssocLRU.order x)) ≤ cap)).
    - intros x b (Hc & Hcons & Hlen).
      split; [by rewrite oracle_capacity |].
      split; [by apply access_oracle_consistent |].
      destruct (oracle_access_spec x b Hcons) as (_ & _ & Hl); lia.
    - split; [done |]. split; [apply new_oracle_consistent | simpl; lia]. }
  destruct H as (Hc & [Hnd Hpos] & Hlen).
  repeat split; auto; try apply Hpos.
  assert (Hsub : ∀ l x0 x,
            x ∈ FullyAssocLRU.order (FullyAssocLRU.run x0 l).1 →
            x ∈ FullyAssocLRU.order x0 ∨ x ∈ l).
  { induction l as [| b l IHl]; intros x0 x Hx; [by left |].
    simpl in Hx.
    pose proof (oracle_access_elements x0 b x) as Hstep.
    destruct (FullyAssocLRU.access x0 b) as [x1 h].
    specialize (IHl x1 x).
    destruct (FullyAssocLRU.run x1 l) as [x2 hs]. simpl in *.
    destruct (IHl Hx) as [Hin | Hin]; [| right; by apply list_elem_of_further].
    destruct (Hstep Hin) as [-> | Hin0]; [right; apply list_elem_of_here | by left]. }
  intros x Hx. destruct (Hsub blocks _ x Hx) as [Hin | Hin]; [| done].
  simpl in Hin. by inversion Hin.
Qed.

(** A reference cache of two blocks over five accesses. *)
Lemma oracle_within_capacity_witness :
  let fa := (FullyAssocLRU.run (FullyAssocLRU.new 2) [1; 2; 3; 1; 3]).1 in
  FullyAssocLRU.capacity fa = 2 ∧
  Z.of_nat (length (FullyAssocLRU.order fa)) ≤ 2 ∧
  NoDup (FullyAssocLRU.order fa) ∧
  (∀ x, x ∈ FullyAssocLRU.pos fa ↔ x ∈ FullyAssocLRU.order fa) ∧
  (∀ x, x ∈ FullyAssocLRU.order fa → x ∈ [1; 2; 3; 1; 3]).
Proof. exact (oracle_within_capacity 2 [1; 2; 3; 1; 3] ltac:(lia)). Defined.

(** ** A larger reference cache includes a smaller one *)

Lemma next_order_suffix (n m : Z) (p s : list Z) (b : Z) :
  NoDup (p ++ s) → 0 < n ≤ m →
  Z.of_nat (length s) ≤ n → Z.of_nat (length (p ++ s)) ≤ m →
  ∃ p', next_order m true (p ++ s) b = p' ++ next_order n true s b.
Proof.
  intros Hnd Hnm Hs Hps. rewrite length_app in Hps.
  apply NoDup_app in Hnd as (Hp & Hdis & Hsnd).
  destruct (decide (b ∈ s)) as [Hbs | Hbs].
  - assert (Hbp : b ∉ p) by (intros Hbp; by apply (Hdis b)).
    rewrite (next_order_hit m true (p ++ s) b) by set_solver.
    rewrite (next_order_hit n true s b) by done.
    exists p. by rewrite erase_app_r, <- app_assoc.
  - destruct (decide (b ∈ p)) as [Hbp | Hbp].
    + rewrite (next_order_hit m true (p ++ s) b) by set_solver.
      rewrite erase_app_l by done.
      destruct (Z.lt_ge_cases (Z.of_nat (length s)) n) as [Hroom | Hfull].
      * rewrite next_order_room by done. exists (erase b p).
        by rewrite <- app_assoc.
      * rewrite next_order_full by (done || lia).
        destruct s as [| x s']; [simpl in *; lia |]. simpl.
        exists (erase b p ++ [x]). by rewrite <- !app_assoc.
    + assert (Hout : b ∉ p ++ s) by set_solver.
      destruct (Z.lt_ge_cases (Z.of_nat (length (p ++ s))) m) as [Hroom2 | Hfull2];
        destruct (Z.lt_ge_cases (Z.of_nat (length s)) n) as [Hroom1 | Hfull1].
      * rewrite !next_order_room by done. exists p. by rewrite <- app_assoc.
      * rewrite next_order_room, next_order_full by (done || lia).
        destruct s as [| x s']; [simpl in *; lia |]. simpl.
        exists (p ++ [x]). by rewrite <- !app_assoc.
      * rewrite next_order_full, next_order_room by (done || lia).
        rewrite length_app in Hfull2.
        destruct p as [| y p0]; [simpl in *; lia |]. simpl.
        exists p0. by rewrite <- app_assoc.
      * rewrite !next_order_full by (done || lia).
        destruct s as [| x s']; [simpl in *; lia |].
        destruct p as [| y p0]; simpl.
        -- by exists [].
        -- exists (p0 ++ [x]). by rewrite <- !app_assoc.
Qed.

Lemma oracle_inclusion_run (blocks : list Z) (fa1 fa2 : FullyAssocLRU.t) :
  oracle_consistent fa1 → oracle_consistent fa2 →
  0 < FullyAssocLRU.capacity fa1 ≤ FullyAssocLRU.capacity fa2 →
  FullyAssocLRU.capacity fa2 < 2 ^ 31 →
  Z.of_nat (length (FullyAssocLRU.order fa1)) ≤ FullyAssocLRU.capacity fa1 →
  Z.of_nat (length (FullyAssocLRU.order fa2)) ≤ FullyAssocLRU.capacity fa2 →
  (∃ p, FullyAssocLRU.order fa2 = p ++ FullyAssocLRU.order fa1) →
  Forall2 (λ h1 h2 : bool, h1 = true → h2 = true)
    (FullyAssocLRU.run fa1 blocks).2 (FullyAssocLRU.run fa2 blocks).2.
Proof.
  revert fa1 fa2.
  induction blocks as [| b blocks IH];
    intros fa1 fa2 Hc1 Hc2 Hcap Hcap2 Hl1 Hl2 [p Hp]; simpl; [constructor |].
  destruct (oracle_access_spec fa1 b Hc1 ltac:(lia) Hl1) as (Hh1 & Ho1 & Hl1').
  destruct (oracle_access_spec fa2 b Hc2 ltac:(lia) Hl2) as (Hh2 & Ho2 & Hl2').
  pose proof (access_oracle_consistent fa1 b Hc1) as Hc1'.
  pose proof (access_oracle_consistent fa2 b Hc2) as Hc2'.
  pose proof (oracle_capacity fa1 b) as Hk1.
  pose proof (oracle_capacity fa2 b) as Hk2.
  assert (Hsuf : ∃ p', FullyAssocLRU.order (FullyAssocLRU.access fa2 b).1
                       = p' ++ FullyAssocLRU.order (FullyAssocLRU.access fa1 b).1).
  { rewrite Ho1, Ho2, Hp. apply next_order_suffix; try lia.
    - rewrite <- Hp. apply Hc2.
    - by rewrite <- Hp. }
  destruct (FullyAssocLRU.access fa1 b) as [fa1' h1].
  destruct (FullyAssocLRU.access fa2 b) as [fa2' h2]. simpl in *.
  specialize (IH fa1' fa2' Hc1' Hc2').
  rewrite Hk1, Hk2 in IH. specialize (IH Hcap Hcap2 Hl1' Hl2' Hsuf).
  destruct (FullyAssocLRU.run fa1' blocks) as [fa1'' hs1].
  destruct (FullyAssocLRU.run fa2' blocks) as [fa2'' hs2]. simpl in *.
  constructor; [| done].
  subst h1 h2. rewrite !bool_decide_eq_true, Hp. set_solver.
Qed.

(** X7. Over the same sequence of blocks, every access that hits in a
    reference cache of [n] blocks hits in a reference cache of [m >= n]
    blocks. *)
Theorem oracle_inclusion (n m : Z) (blocks : list Z) :
  0 < n ≤ m → m < 2 ^ 31 →
  Forall2 (λ h1 h2 : bool, h1 = true → h2 = true)
    (FullyAssocLRU.run (FullyAssocLRU.new n) blocks).2
    (FullyAssocLRU.run (FullyAssocLRU.new m) blocks).2.
Proof.
  intros Hnm Hm.
  apply oracle_inclusion_run; simpl; try lia;
    try apply new_oracle_consistent.
  by exists [].
Qed.

(** Capacities 2 and 3 over [1, 2, 1, 3, 2]. *)
Lemma oracle_inclusion_witness :
  Forall2 (λ h1 h2 : bool, h1 = true → h2 = true)
    (FullyAssocLRU.run (FullyAssocLRU.new 2) [1; 2; 1; 3; 2]).2
    (FullyAssocLRU.run (FullyAssocLRU.new 3) [1; 2; 1; 3; 2]).2.
Proof. exact (oracle_inclusion 2 3 [1; 2; 1; 3; 2] ltac:(lia) ltac:(lia)). Defined.

(** ** A reference cache without capacity *)

(** With a capacity that is not positive the reference cache never evicts:
    it hits exactly on the keys of its map and only adds the block. *)
Lemma oracle_unbounded (fa : FullyAssocLRU.t) (b : Z) :
  FullyAssocLRU.capacity fa ≤ 0 →
  (FullyAssocLRU.access fa b).2 = bool_decide (b ∈ FullyAssocLRU.pos fa) ∧
  FullyAssocLRU.pos (FullyAssocLRU.access fa b).1
  = {[b]} ∪ FullyAssocLRU.pos fa.
Proof.
  intros Hcap. unfold FullyAssocLRU.access.
  destruct (bool_decide (b ∈ FullyAssocLRU.pos fa)); [done |].
  destruct (Z.ltb_spec 0 (FullyAssocLRU.capacity fa)); [lia |].
  by rewrite andb_false_r.
Qed.

(** X8. When [(int)(cache_size / block_size)] is not positive, the reference
    cache keeps every block it has seen, so no access of any run is
    classified [MISS_CAPACITY] and the counter [miss_capacity] stays 0:
    every miss on a block seen before counts as a conflict miss. *)
Theorem no_capacity_miss_without_capacity (cs bs a : Z) (pol : string)
    (bits : Z) (verb : bool) (c : Cache.t) (trace : list Z) (c' : Cache.t)
    (os : list (bool * classification)) :
  Cache.new cs bs a pol bits verb = Ok c →
  to_int (cs / bs) ≤ 0 →
  Cache.run c trace = Ok (c', os) →
  Cache.miss_capacity c' = 0 ∧
  Forall (λ o, o.2 ≠ MISS_CAPACITY) os.
Proof.
  intros Hnew Hcap Hrun.
  set (I := λ x : Cache.t,
         FullyAssocLRU.capacity (Cache.fa_sim x) ≤ 0 ∧
         Cache.seen_blocks x ⊆ FullyAssocLRU.pos (Cache.fa_sim x) ∧
         Cache.miss_capacity x = 0).
  assert (Hstep : ∀ x addr x' o,
            I x → Cache.access x addr = Ok (x', o) →
            I x' ∧ o.2 ≠ MISS_CAPACITY).
  { intros x addr x' o (Hc & Hsub & Hmc) H.
    apply access_inv in H
      as (b & tag & idx & s & s1 & h & m & mco & mca & mcf
          & Hb & Hd & Hidx & Hs & Ho & ->).
    destruct (oracle_unbounded (Cache.fa_sim x) b Hc) as [Hhit Hpos].
    assert (HI : ∀ h m mco mca mcf ss,
              mca = 0 →
              I (Cache.update x h m mco mca mcf ss
                   (FullyAssocLRU.access (Cache.fa_sim x) b).1
                   ({[b]} ∪ Cache.seen_blocks x))).
    { intros. unfold I. simpl. rewrite oracle_capacity, Hpos.
      split; [done |]. split; [set_solver | done]. }
    inversion Ho; subst; simpl; try (split; [by apply HI | done]).
    exfalso.
    match goal with
    | H : (FullyAssocLRU.access _ _).2 = false |- _ => rewrite Hhit in H;
        apply bool_decide_eq_false in H; apply H
    end.
    match goal with H : b ∈ Cache.seen_blocks x |- _ => exact (Hsub b H) end. }
  assert (HI0 : I c).
  { apply new_inv in Hnew as (tbits & _ & _ & _ & _ & ->). unfold I. simpl.
    split; [done |]. split; [set_solver | done]. }
  clear Hnew. revert c os HI0 Hrun.
  induction trace as [| addr trace IH]; intros c os HI0 Hrun.
  - simpl in Hrun. inversion Hrun; subst. split; [apply HI0 | constructor].
  - apply run_cons_inv in Hrun as (c1 & o & os1 & Ha & Hr & ->).
    destruct (Hstep c addr c1 o HI0 Ha) as [HI1 Ho].
    destruct (IH c1 os1 HI1 Hr) as [Hmc Hall].
    split; [done | by constructor].
Qed.

(** [cache_size = 2^31], [block_size = 1], [assoc = 2^30]: two sets, and a
    reference cache of capacity [(int)2^31 = -2^31]. *)
Lemma no_capacity_miss_without_capacity_witness :
  ∃ c c' os,
    Cache.new 2147483648 1 1073741824 "LRU" 32 false = Ok c ∧
    FullyAssocLRU.capacity (Cache.fa_sim c) = - 2 ^ 31 ∧
    Cache.run c [0; 1; 2; 0] = Ok (c', os) ∧
    Cache.miss_capacity c' = 0 ∧
    Forall (λ o, o.2 ≠ MISS_CAPACITY) os.
Proof.
  destruct (Cache.new 2147483648 1 1073741824 "LRU" 32 false)
    as [c | |] eqn:Hnew; [| vm_compute in Hnew; discriminate Hnew ..].
  destruct (Cache.run c [0; 1; 2; 0]) as [[c' os] | |] eqn:Hrun;
    [| exfalso; vm_compute in Hnew; inversion Hnew; subst c;
       vm_compute in Hrun; discriminate Hrun ..].
  destruct (no_capacity_miss_without_capacity 2147483648 1 1073741824 "LRU"
              32 false c [0; 1; 2; 0] c' os Hnew
              ltac:(vm_compute; discriminate) Hrun) as [H1 H2].
  exists c, c', os. split; [reflexivity |].
  split; [vm_compute in Hnew; by inversion Hnew |]. auto.
Defined.

(** ** The geometry a successful construction derives *)

(** X9. When the constructor succeeds on a positive associativity, without
    overflow in [block_size * assoc] and with fewer than 2^31 blocks, the
    cache size is [num_sets * assoc * block_size], the reference cache has
    the capacity [num_sets * assoc] of the simulated cache, there are
    [num_sets] sets of [assoc] ways, all empty, and all counters are 0. *)
Theorem constructed_geometry (cs bs a : Z) (pol : string) (bits : Z)
    (verb : bool) (c : Cache.t) :
  Cache.new cs bs a pol bits verb = Ok c →
  is_u64 cs → is_u64 bs → 0 < a → bs * a < 2 ^ 64 → cs / bs < 2 ^ 31 →
  cs = Cache.num_sets c * a * bs ∧
  FullyAssocLRU.capacity (Cache.fa_sim c) = Cache.num_sets c * a ∧
  Cache.sets c
  = replicate (Z.to_nat (Cache.num_sets c)) (CacheSet.new a (Cache.is_lru pol)) ∧
  Cache.tag_bits c + Cache.index_bits c + Cache.offset_bits c = bits ∧
  Cache.accesses c = 0 ∧ Cache.hits c = 0 ∧ Cache.misses c = 0.
Proof.
  unfold is_u64. intros Hnew Hcs Hbs Ha Hno Hblocks.
  unfold Cache.new in Hnew.
  apply bind_Ok in Hnew as (cap & Hcap & Hnew).
  unfold udiv64 in Hcap.
  destruct (Z.eqb_spec bs 0) as [Hz | Hz]; [done |]. inversion Hcap; subst cap.
  assert (Hwa : wrap64 a = a).
  { apply wrap64_small. assert (1 ≤ bs) by lia. nia. }
  rewrite Hwa, (wrap64_small (bs * a)) in Hnew by nia.
  apply bind_Ok in Hnew as (r & Hr & Hnew).
  unfold urem64 in Hr. destruct (Z.eqb_spec (bs * a) 0); [nia |].
  inversion Hr; subst r.
  destruct (Z.eqb_spec (cs mod (bs * a)) 0) as [Hdiv | Hdiv]; [| done].
  simpl in Hnew.
  apply bind_Ok in Hnew as (q & Hq & Hnew).
  unfold udiv64 in Hq. destruct (Z.eqb_spec (bs * a) 0); [nia |].
  inversion Hq; subst q.
  apply bind_Ok in Hnew as (d & Hd & Hnew).
  apply bind_Ok in Hnew as (tb & Htb & Hnew).
  destruct (_ <? 0); [done |]. inversion Hnew; subst c. simpl.
  unfold sub_int in Hd, Htb.
  destruct (_ && _) in Hd; [| done]. destruct (_ && _) in Htb; [| done].
  inversion Hd; subst d. inversion Htb; subst tb.
  split; [| split; [| split; [done | split; [lia | done]]]].
  all: apply Z.div_exact in Hdiv; [| done].
  all: set (q := cs / (bs * a)) in *.
  all: assert (Hq0 : 0 ≤ q) by (apply Z.div_pos; nia).
  all: assert (Hcsbs : cs / bs = a * q)
    by (rewrite Hdiv; replace (bs * a * q) with (a * q * bs) by lia;
        by rewrite Z.div_mul).
  all: assert (Hq31 : q < 2 ^ 31) by nia.
  all: rewrite ?(to_int_small q) by lia.
  - lia.
  - rewrite Hcsbs, (to_int_small (a * q)) by nia. lia.
Qed.

(** The default command line: 32768 bytes, blocks of 64, 4 ways. *)
Lemma constructed_geometry_witness :
  ∃ c,
    Cache.new 32768 64 4 "LRU" 32 false = Ok c ∧
    32768 = Cache.num_sets c * 4 * 64 ∧
    FullyAssocLRU.capacity (Cache.fa_sim c) = Cache.num_sets c * 4 ∧
    Cache.tag_bits c + Cache.index_bits c + Cache.offset_bits c = 32.
Proof.
  destruct (Cache.new 32768 64 4 "LRU" 32 false) as [c | |] eqn:Hnew;
    [| vm_compute in Hnew; discriminate Hnew ..].
  destruct (constructed_geometry 32768 64 4 "LRU" 32 false c Hnew
              ltac:(unfold is_u64; lia) ltac:(unfold is_u64; lia)
              ltac:(lia) ltac:(lia) ltac:(vm_compute; reflexivity))
    as (H1 & H2 & _ & H3 & _).
  exists c. auto.
Defined.

(** ** Tag and index against the block id *)

(** X10. For a constructed simulator whose [offset_bits] is a valid shift
    count, [decompose] is defined on every address, the block id is
    [tag * 2^index_bits + index], and two addresses get the same tag and
    set index exactly when they have the same block id. *)
Theorem decompose_block (cs bs a : Z) (pol : string) (bits : Z) (verb : bool)
    (c : Cache.t) (x y : Z) :
  Cache.new cs bs a pol bits verb = Ok c →
  0 ≤ Cache.offset_bits c < 64 →
  (∃ tag idx,
     Cache.decompose c x = Ok (tag, idx) ∧
     Cache.block_id c x = Ok (tag * 2 ^ Cache.index_bits c + idx)) ∧
  (Cache.decompose c x = Cache.decompose c y
   ↔ Cache.block_id c x = Cache.block_id c y).
Proof.
  intros Hnew Hob. pose proof (new_geometry _ _ _ _ _ _ _ Hnew) as Hg.
  pose proof (geom_index_bits c Hg) as Hib.
  unfold Cache.block_id. rewrite !decompose_Ok, !shr64_Ok by done.
  split.
  - eexists _, _. split; [reflexivity |]. f_equal.
    unfold tag_of, index_of.
    set (b := Z.shiftr x (Cache.offset_bits c)).
    destruct (Z.ltb_spec 1 (Cache.num_sets c)) as [Hn | Hn].
    + rewrite Z.shiftr_div_pow2 by lia.
      rewrite (Z.div_mod b (2 ^ Cache.index_bits c)) at 1
        by (apply Z.pow_nonzero; lia).
      lia.
    + rewrite (geom_single c Hg Hn), Z.shiftr_0_r. simpl. lia.
  - split.
    + intros H. inversion H as [[Ht Hi]]. f_equal.
      by apply (tag_index_inj c).
    + intros H. inversion H as [Hb]. by rewrite Hb.
Qed.

(** Addresses 4096 and 4100 of the default geometry share a block, 4096 and
    8192 do not. *)
Lemma decompose_block_witness :
  ∃ c tag idx,
    Cache.new 32768 64 4 "LRU" 32 false = Ok c ∧
    Cache.decompose c 4096 = Ok (tag, idx) ∧
    Cache.block_id c 4096 = Ok (tag * 2 ^ Cache.index_bits c + idx) ∧
    (Cache.decompose c 4096 = Cache.decompose c 4100
     ↔ Cache.block_id c 4096 = Cache.block_id c 4100).
Proof.
  destruct (Cache.new 32768 64 4 "LRU" 32 false) as [c | |] eqn:Hnew;
    [| vm_compute in Hnew; discriminate Hnew ..].
  assert (Hob : 0 ≤ Cache.offset_bits c < 64).
  { vm_compute in Hnew. inversion Hnew. simpl. lia. }
  destruct (decompose_block 32768 64 4 "LRU" 32 false c 4096 4100 Hnew Hob)
    as [(tag & idx & H1 & H2) H3].
  exists c, tag, idx. auto.
Defined.

(** X11. With a block size [2^j] and a number of sets [2^k], the constructor
    derives [offset_bits = j] and [index_bits = k], and for every address
    [decompose] yields the tag [addr / (block_size * num_sets)]
    and the set index [(addr / block_size) mod num_sets]. *)
Theorem power_of_two_geometry (cs a : Z) (pol : string) (bits : Z)
    (verb : bool) (c : Cache.t) (j k addr : Z) :
  Cache.new cs (2 ^ j) a pol bits verb = Ok c →
  0 ≤ j < 64 → 0 ≤ k → Cache.num_sets c = 2 ^ k →
  Cache.offset_bits c = j ∧
  Cache.index_bits c = k ∧
  Cache.block_id c addr = Ok (addr / 2 ^ j) ∧
  Cache.decompose c addr
  = Ok (addr / (2 ^ j * Cache.num_sets c), (addr / 2 ^ j) mod Cache.num_sets c).
Proof.
  intros Hnew Hj Hk Hn.
  pose proof (new_geometry _ _ _ _ _ _ _ Hnew) as Hg.
  pose proof (pow2_index_bits _ _ _ _ _ _ _ _ Hnew Hk Hn) as Hib.
  assert (Hob : Cache.offset_bits c = j).
  { apply new_inv in Hnew as (tbits & _ & _ & _ & _ & ->). simpl.
    rewrite round_log2_pow2 by lia. apply to_int_small. lia. }
  assert (Hpj : 0 < 2 ^ j) by (apply Z.pow_pos_nonneg; lia).
  assert (Hpk : 0 < 2 ^ k) by (apply Z.pow_pos_nonneg; lia).
  split; [done |]. split; [done |].
  unfold Cache.block_id.
  rewrite decompose_Ok, shr64_Ok by (done || lia).
  rewrite Hob, Z.shiftr_div_pow2 by lia. split; [done |].
  unfold tag_of, index_of. rewrite Hib, Hn, Z.shiftr_div_pow2 by lia.
  rewrite Z.div_div by lia. do 2 f_equal.
  destruct (Z.ltb_spec 1 (2 ^ k)); [done |].
  replace (2 ^ k) with 1 by lia. by rewrite Z.mod_1_r.
Qed.

(** The default geometry, [j = 6] and [k = 7], at address 12345678. *)
Lemma power_of_two_geometry_witness :
  ∃ c,
    Cache.new 32768 (2 ^ 6) 4 "LRU" 32 false = Ok c ∧
    Cache.offset_bits c = 6 ∧
    Cache.index_bits c = 7 ∧
    Cache.decompose c 12345678
    = Ok (12345678 / (2 ^ 6 * Cache.num_sets c),
          (12345678 / 2 ^ 6) mod Cache.num_sets c).
Proof.
  destruct (Cache.new 32768 (2 ^ 6) 4 "LRU" 32 false) as [c | |] eqn:Hnew;
    [| vm_compute in Hnew; discriminate Hnew ..].
  assert (Hn : Cache.num_sets c = 2 ^ 7).
  { vm_compute in Hnew. inversion Hnew. reflexivity. }
  destruct (power_of_two_geometry 32768 4 "LRU" 32 false c 6 7 12345678
              Hnew ltac:(lia) ltac:(lia) Hn) as (H1 & H2 & _ & H3).
  exists c. auto.
Defined.

(** ** Direct-mapped caches do not depend on the policy *)

Lemma same_line_contains (s1 s2 : CacheSet.t) (t : Z) :
  same_line s1 s2 → CacheSet.contains s1 t = CacheSet.contains s2 t.
Proof.
  intros (_ & _ & l & H1 & H2).
  destruct (decide (t ∈ l)) as [Hin | Hout].
  - by rewrite (proj2 (proj1 (proj2 (proj2 H1)) t) Hin),
      (proj2 (proj1 (proj2 (proj2 H2)) t) Hin).
  - by rewrite (contains_not_elem s1 l t H1 Hout),
      (contains_not_elem s2 l t H2 Hout).
Qed.

(** Touching the only line of a one-way set leaves it the only line. *)
Lemma one_way_touch (s : CacheSet.t) (l : list Z) (t : Z) :
  holds s l → CacheSet.assoc s = 1 → t ∈ l →
  CacheSet.assoc (CacheSet.touch s t) = 1 ∧ holds (CacheSet.touch s t) l.
Proof.
  intros Hs Ha Ht.
  destruct (touch_holds s l t Hs Ht) as (Ha' & _ & Hh).
  split; [congruence |].
  destruct (CacheSet.isLRU s); [| done].
  destruct Hs as (_ & _ & _ & Hlen & _). rewrite Ha in Hlen.
  destruct l as [| x [| y l']]; simpl in *; [by inversion Ht | | lia].
  apply list_elem_of_singleton in Ht as ->. simpl in Hh.
  by rewrite decide_True in Hh.
Qed.

Lemma same_line_step (pol1 pol2 : bool) (s1 s2 : CacheSet.t) (t : Z)
    (s1' : CacheSet.t) :
  same_line s1 s2 →
  (if CacheSet.contains s1 t
   then Ok (if pol1 then CacheSet.touch s1 t else s1)
   else CacheSet.insert s1 t) = Ok s1' →
  ∃ s2',
    (if CacheSet.contains s2 t
     then Ok (if pol2 then CacheSet.touch s2 t else s2)
     else CacheSet.insert s2 t) = Ok s2' ∧
    same_line s1' s2'.
Proof.
  intros Hsl H. pose proof (same_line_contains s1 s2 t Hsl) as Hc.
  destruct Hsl as (Ha1 & Ha2 & l & H1 & H2). rewrite <- Hc.
  destruct (CacheSet.contains s1 t) eqn:Hc1.
  - inversion H; subst s1'. eexists. split; [reflexivity |].
    assert (Hin : t ∈ l) by (by apply H1).
    destruct (one_way_touch s1 l t H1 Ha1 Hin) as [Ht1 Hh1].
    destruct (one_way_touch s2 l t H2 Ha2 Hin) as [Ht2 Hh2].
    destruct pol1, pol2; repeat split; auto; by exists l.
  - assert (Hout : t ∉ l) by (intros Hin; apply H1 in Hin; congruence).
    destruct (insert_holds s1 l t H1 Hout) as (x1 & Hx1 & Hax1 & _ & Hh1).
    destruct (insert_holds s2 l t H2 Hout) as (x2 & Hx2 & Hax2 & _ & Hh2).
    rewrite H in Hx1. inversion Hx1; subst x1.
    exists x2. split; [done |].
    rewrite Ha1 in Hh1. rewrite Ha2 in Hh2.
    repeat split; try congruence. eauto.
Qed.

Lemma access_same_but_policy (x1 x2 : Cache.t) (addr : Z) (x1' : Cache.t)
    (o : bool * classification) :
  same_but_policy x1 x2 →
  Cache.access x1 addr = Ok (x1', o) →
  ∃ x2', Cache.access x2 addr = Ok (x2', o) ∧ same_but_policy x1' x2'.
Proof.
  intros (Hob & Hib & Hn & Hfa & Hseen & Hacc & Hh & Hm & Hmc & Hmca & Hmcf
          & Hsets) H.
  unfold Cache.access, Cache.decompose in *.
  rewrite <- Hob, <- Hib, <- Hn, <- Hfa, <- Hseen, <- Hh, <- Hm, <- Hmc,
    <- Hmca, <- Hmcf.
  apply bind_Ok in H as (b & Hb & H). rewrite Hb. simpl.
  apply bind_Ok in H as ([tag idx] & Hd & H).
  apply bind_Ok in Hd as (b' & Hb' & Hd).
  rewrite Hb in Hb'. inversion Hb'; subst b'. rewrite Hd. simpl.
  apply bind_Ok in H as (s1 & Hs1 & H).
  apply vec_at_inv in Hs1 as [Hidx Hs1].
  destruct (Forall2_lookup_l _ _ _ _ _ Hsets Hs1) as (s2 & Hs2 & Hsl).
  rewrite (vec_at_Ok _ _ s2) by done. simpl.
  rewrite <- (same_line_contains s1 s2 tag Hsl).
  assert (Hupd : ∀ h m mco mca mcf y1 y2 fa seen,
            same_line y1 y2 →
            same_but_policy
              (Cache.update x1 h m mco mca mcf
                 (<[Z.to_nat idx := y1]> (Cache.sets x1)) fa seen)
              (Cache.update x2 h m mco mca mcf
                 (<[Z.to_nat idx := y2]> (Cache.sets x2)) fa seen)).
  { intros. unfold same_but_policy. simpl. rewrite Hacc.
    repeat split; auto. by apply Forall2_insert. }
  destruct (FullyAssocLRU.access (Cache.fa_sim x1) b) as [fa fa_hit].
  destruct (CacheSet.contains s1 tag) eqn:Hc.
  - inversion H; subst x1' o.
    destruct (same_line_step (Cache.is_lru (Cache.policy x1))
                (Cache.is_lru (Cache.policy x2)) s1 s2 tag _ Hsl
                ltac:(rewrite Hc; reflexivity)) as (s2' & Hs2' & Hsl').
    rewrite <- (same_line_contains s1 s2 tag Hsl), Hc in Hs2'.
    inversion Hs2'; subst s2'.
    eexists. split; [reflexivity |]. by apply Hupd.
  - assert (Hins : ∀ s1', CacheSet.insert s1 tag = Ok s1' →
                     ∃ s2', CacheSet.insert s2 tag = Ok s2' ∧ same_line s1' s2').
    { intros s1' Hi.
      destruct (same_line_step true true s1 s2 tag s1' Hsl
                  ltac:(rewrite Hc; exact Hi)) as (s2' & Hs2' & Hsl').
      rewrite <- (same_line_contains s1 s2 tag Hsl), Hc in Hs2'. eauto. }
    destruct (bool_decide (b ∉ Cache.seen_blocks x1)); [| destruct fa_hit];
      apply bind_Ok in H as (s1' & Hi & H); inversion H; subst x1' o;
      destruct (Hins s1' Hi) as (s2' & -> & Hsl'); simpl;
      (eexists; split; [reflexivity | by apply Hupd]).
Qed.

(** X12. Two simulators constructed with associativity 1 from the same
    sizes but any two policy strings produce, on every trace, the same
    sequence of outcomes and the same counters: a run of one completes
    exactly as the run of the other. *)
Theorem direct_mapped_policy (cs bs : Z) (pol1 pol2 : string) (bits : Z)
    (verb : bool) (c1 c2 : Cache.t) (trace : list Z) (c1' : Cache.t)
    (os : list (bool * classification)) :
  Cache.new cs bs 1 pol1 bits verb = Ok c1 →
  Cache.new cs bs 1 pol2 bits verb = Ok c2 →
  Cache.run c1 trace = Ok (c1', os) →
  ∃ c2',
    Cache.run c2 trace = Ok (c2', os) ∧
    Cache.hits c1' = Cache.hits c2' ∧
    Cache.misses c1' = Cache.misses c2' ∧
    Cache.miss_compulsory c1' = Cache.miss_compulsory c2' ∧
    Cache.miss_conflict c1' = Cache.miss_conflict c2' ∧
    Cache.miss_capacity c1' = Cache.miss_capacity c2'.
Proof.
  intros Hnew1 Hnew2 Hrun.
  assert (Hrel : same_but_policy c1 c2).
  { apply new_inv in Hnew1 as (tb1 & _ & _ & _ & _ & ->).
    apply new_inv in Hnew2 as (tb2 & _ & _ & _ & _ & ->).
    unfold same_but_policy. simpl. repeat split; auto.
    apply Forall2_replicate. repeat split; auto.
    exists []. split; apply new_holds; lia. }
  clear Hnew1 Hnew2. revert c1 c2 os Hrel Hrun.
  induction trace as [| addr trace IH]; intros c1 c2 os Hrel Hrun.
  - simpl in Hrun. inversion Hrun; subst. exists c2. simpl.
    destruct Hrel as (_ & _ & _ & _ & _ & _ & H1 & H2 & H3 & H4 & H5 & _).
    auto 10.
  - apply run_cons_inv in Hrun as (x1 & o & os1 & Ha & Hr & ->).
    destruct (access_same_but_policy c1 c2 addr x1 o Hrel Ha)
      as (x2 & Ha2 & Hrel').
    destruct (IH x1 x2 os1 Hrel' Hr) as (c2' & Hr2 & Hc).
    exists c2'. simpl. rewrite Ha2. simpl. rewrite Hr2. auto.
Qed.

(** The aliasing trace under LRU and FIFO. *)
Lemma direct_mapped_policy_witness :
  ∃ c1 c2 c1' os c2',
    Cache.new 128 64 1 "LRU" 32 false = Ok c1 ∧
    Cache.new 128 64 1 "FIFO" 32 false = Ok c2 ∧
    Cache.run c1 [0; 64; 128; 0; 64; 128] = Ok (c1', os) ∧
    Cache.run c2 [0; 64; 128; 0; 64; 128] = Ok (c2', os) ∧
    Cache.hits c1' = Cache.hits c2' ∧
    Cache.misses c1' = Cache.misses c2'.
Proof.
  destruct (Cache.new 128 64 1 "LRU" 32 false) as [c1 | |] eqn:Hnew1;
    [| vm_compute in Hnew1; discriminate Hnew1 ..].
  destruct (Cache.new 128 64 1 "FIFO" 32 false) as [c2 | |] eqn:Hnew2;
    [| vm_compute in Hnew2; discriminate Hnew2 ..].
  destruct (Cache.run c1 [0; 64; 128; 0; 64; 128]) as [[c1' os] | |] eqn:Hrun;
    [| exfalso; vm_compute in Hnew1; inversion Hnew1; subst c1;
       vm_compute in Hrun; discriminate Hrun ..].
  destruct (direct_mapped_policy 128 64 "LRU" "FIFO" 32 false c1 c2
              [0; 64; 128; 0; 64; 128] c1' os Hnew1 Hnew2 Hrun)
    as (c2' & Hrun2 & Hh & Hm & _).
  exists c1, c2, c1', os, c2'. auto 10.
Defined.

(** ** Policy strings *)

(** X13. A policy string other than ["LRU"] and ["lru"] selects FIFO: the
    run produces the outcomes of the run under ["FIFO"] and ends in the same
    state, but for the string itself. *)
Theorem unknown_policy_is_fifo (cs bs a : Z) (pol : string) (bits : Z)
    (verb : bool) (c : Cache.t) (trace : list Z) (c' : Cache.t)
    (os : list (bool * classification)) :
  pol ≠ "LRU" → pol ≠ "lru" →
  Cache.new cs bs a pol bits verb = Ok c →
  Cache.run c trace = Ok (c', os) →
  ∃ d d',
    Cache.new cs bs a "FIFO" bits verb = Ok d ∧
    Cache.run d trace = Ok (d', os) ∧
    c' = with_policy pol d'.
Proof.
  intros H1 H2 Hnew Hrun.
  assert (Hpol : Cache.is_lru pol = Cache.is_lru "FIFO").
  { unfold Cache.is_lru.
    apply String.eqb_neq in H1, H2. by rewrite H1, H2. }
  rewrite (new_with_policy cs bs a "FIFO" pol bits verb Hpol) in Hnew.
  destruct (Cache.new cs bs a "FIFO" bits verb) as [d | |] eqn:Hd;
    simpl in Hnew; [| done | done].
  inversion Hnew; subst c. clear Hnew.
  assert (Hpd : Cache.policy d = "FIFO").
  { by apply new_inv in Hd as (tbits & _ & _ & _ & _ & ->). }
  rewrite run_with_policy in Hrun by (by rewrite Hpd).
  destruct (Cache.run d trace) as [[d' os'] | |] eqn:Hrd;
    simpl in Hrun; [| done | done].
  inversion Hrun; subst. by exists d, d'.
Qed.

Lemma unknown_policy_is_fifo_witness :
  ∃ d d' os,
    Cache.new 128 64 2 "FIFO" 32 false = Ok d ∧
    Cache.run d [0; 64; 0; 128; 0] = Ok (d', os) ∧
    Cache.run (with_policy "Lru" d) [0; 64; 0; 128; 0]
    = Ok (with_policy "Lru" d', os).
Proof.
  destruct (Cache.new 128 64 2 "Lru" 32 false) as [c | |] eqn:Hnew;
    [| vm_compute in Hnew; discriminate Hnew ..].
  destruct (Cache.run c [0; 64; 0; 128; 0]) as [[c' os] | |] eqn:Hrun;
    [| exfalso; vm_compute in Hnew; inversion Hnew; subst c;
       vm_compute in Hrun; discriminate Hrun ..].
  destruct (unknown_policy_is_fifo 128 64 2 "Lru" 32 false c
              [0; 64; 0; 128; 0] c' os ltac:(done) ltac:(done) Hnew Hrun)
    as (d & d' & Hd & Hrd & ->).
  exists d, d', os. split; [exact Hd |]. split; [exact Hrd |].
  rewrite (new_with_policy 128 64 2 "FIFO" "Lru" 32 false eq_refl) in Hnew.
  rewrite Hd in Hnew. simpl in Hnew. inversion Hnew; subst c. exact Hrun.
Defined.

(** ** Complete runs *)

Lemma access_configuration (c : Cache.t) (addr : Z) (c' : Cache.t)
    (o : bool * classification) :
  Cache.access c addr = Ok (c', o) →
  Cache.cache_size c' = Cache.cache_size c ∧
  Cache.block_size c' = Cache.block_size c ∧
  Cache.assoc c' = Cache.assoc c ∧
  Cache.tag_bits c' = Cache.tag_bits c ∧
  Cache.accesses c' = wrap64 (Cache.accesses c + 1).
Proof.
  intros H.
  apply access_inv in H
    as (b & tag & idx & s & s1 & h & m & mco & mca & mcf & _ & _ & _ & _ & _ & ->).
  auto.
Qed.

Lemma run_configuration (trace : list Z) (n : Z) (c c' : Cache.t)
    (os : list (bool * classification)) :
  Cache.accesses c = wrap64 n →
  Cache.run c trace = Ok (c', os) →
  Cache.cache_size c' = Cache.cache_size c ∧
  Cache.block_size c' = Cache.block_size c ∧
  Cache.assoc c' = Cache.assoc c ∧
  Cache.tag_bits c' = Cache.tag_bits c ∧
  Cache.accesses c' = wrap64 (n + Z.of_nat (length trace)) ∧
  length os = length trace.
Proof.
  revert n c os. induction trace as [| addr trace IH]; intros n c os Hn H.
  - simpl in H. inversion H; subst. simpl. by rewrite Z.add_0_r.
  - apply run_cons_inv in H as (c1 & o & os1 & Ha & Hr & ->).
    apply access_configuration in Ha as (<- & <- & <- & <- & Hacc).
    apply (IH (n + 1)) in Hr as (? & ? & ? & ? & Hacc' & Hlen).
    + repeat (split; [done |]). split; [| simpl; by rewrite Hlen].
      rewrite Hacc'. f_equal. rewrite length_cons. lia.
    + rewrite Hacc, Hn. apply wrap64_add_l.
Qed.

(** X14. On a constructed simulator whose number of sets is a power of
    two, whose associativity is positive and whose [offset_bits] is a valid
    shift count, every trace runs to completion: it produces one outcome per
    address, counts the accesses modulo 2^64 and leaves the configuration
    as constructed. *)
Theorem well_formed_run_completes (cs bs a : Z) (pol : string) (bits : Z)
    (verb : bool) (c : Cache.t) (k : Z) (trace : list Z) :
  Cache.new cs bs a pol bits verb = Ok c →
  0 ≤ k → Cache.num_sets c = 2 ^ k →
  0 < a → 0 ≤ Cache.offset_bits c < 64 →
  ∃ c' os,
    Cache.run c trace = Ok (c', os) ∧
    length os = length trace ∧
    Cache.accesses c' = wrap64 (Z.of_nat (length trace)) ∧
    Cache.cache_size c' = cs ∧ Cache.block_size c' = bs ∧
    Cache.assoc c' = a ∧ Cache.policy c' = pol ∧
    Cache.num_sets c' = Cache.num_sets c ∧
    Cache.offset_bits c' = Cache.offset_bits c ∧
    Cache.index_bits c' = k ∧
    Cache.tag_bits c' = Cache.tag_bits c.
Proof.
  intros Hnew Hk Hn Ha Hob.
  destruct (run_defined cs bs a pol bits verb c k trace Hnew Hk Hn Ha Hob)
    as (c' & os & Hrun).
  exists c', os. split; [done |].
  pose proof (pow2_index_bits _ _ _ _ _ _ _ _ Hnew Hk Hn) as Hib.
  destruct (run_fixed _ _ _ _ Hrun) as (Hf1 & Hf2 & Hf3 & Hf4).
  apply (run_configuration trace 0) in Hrun as (H1 & H2 & H3 & H4 & H5 & H6).
  - apply new_inv in Hnew as (tbits & _ & _ & _ & _ & ->). simpl in *.
    repeat split; try done. congruence.
  - by apply new_inv in Hnew as (tbits & _ & _ & _ & _ & ->).
Qed.

Lemma well_formed_run_completes_witness :
  ∃ c c' os,
    Cache.new 128 64 1 "FIFO" 32 false = Ok c ∧
    Cache.run c [0; 64; 0; 128] = Ok (c', os) ∧
    length os = 4%nat ∧ Cache.accesses c' = 4.
Proof.
  destruct (Cache.new 128 64 1 "FIFO" 32 false) as [c | |] eqn:Hnew;
    [| vm_compute in Hnew; discriminate Hnew ..].
  assert (Hn : Cache.num_sets c = 2 ^ 1 ∧ 0 ≤ Cache.offset_bits c < 64).
  { vm_compute in Hnew. inversion Hnew; subst c. simpl. lia. }
  destruct Hn as [Hn Hob].
  destruct (well_formed_run_completes 128 64 1 "FIFO" 32 false c 1
              [0; 64; 0; 128] Hnew ltac:(lia) Hn ltac:(lia) Hob)
    as (c' & os & Hrun & Hlen & Hacc & _).
  exists c, c', os. repeat split; assumption.
Defined.

(** ** Lines of the trace *)

Lemma append_nil_l (s : string) : "" +:+ s = s.
Proof. reflexivity. Qed.

Lemma append_cons (c : Ascii.ascii) (a s : string) :
  String c a +:+ s = String c (a +:+ s).
Proof. reflexivity. Qed.

Lemma append_nil_r (s : string) : s +:+ "" = s.
Proof. induction s as [| c s IH]; [done |]. by rewrite append_cons, IH. Qed.

Lemma append_assoc (a b c : string) : (a +:+ b) +:+ c = a +:+ (b +:+ c).
Proof.
  induction a as [| x a IH]; [done |]. by rewrite !append_cons, IH.
Qed.

Lemma find_first_blank (ws s : string) :
  all_blank ws = true →
  find_first_not_of (ws +:+ s)
  = (λ i, (String.length ws + i)%nat) <$> find_first_not_of s.
Proof.
  induction ws as [| c ws IH]; intros H.
  - rewrite append_nil_l. destruct (find_first_not_of s); reflexivity.
  - simpl in H. apply andb_true_iff in H as [Hc Hws].
    rewrite append_cons. simpl. rewrite Hc, IH by done.
    destruct (find_first_not_of s); reflexivity.
Qed.

Lemma find_last_blank (s ws : string) :
  all_blank ws = true →
  find_last_not_of (s +:+ ws) = find_last_not_of s.
Proof.
  intros H. induction s as [| c s IH].
  - rewrite append_nil_l.
    induction ws as [| c ws IH]; simpl in *; [done |].
    apply andb_true_iff in H as [Hc Hws]. by rewrite IH, Hc.
  - rewrite append_cons. simpl. by rewrite IH.
Qed.

Lemma find_last_shift (ws s : string) (r : nat) :
  find_last_not_of s = Some r →
  find_last_not_of (ws +:+ s) = Some (String.length ws + r)%nat.
Proof.
  intros H. induction ws as [| c ws IH]; [done |].
  rewrite append_cons. simpl. by rewrite IH.
Qed.

Lemma substring_middle (a b c : string) :
  String.substring (String.length a) (String.length b) (a +:+ (b +:+ c)) = b.
Proof.
  induction a as [| x a IHa].
  - rewrite append_nil_l. change (String.length "") with 0%nat.
    induction b as [| y b IHb].
    + rewrite append_nil_l. by destruct c.
    + rewrite append_cons. simpl. by rewrite IHb.
  - rewrite append_cons. simpl. exact IHa.
Qed.

Lemma token_of_padded (ws1 tok ws2 : string) :
  all_blank ws1 = true → all_blank ws2 = true → solid tok →
  token_of (ws1 +:+ (tok +:+ ws2)) = Some tok.
Proof.
  intros H1 H2 (Hf & Hl & Hlen). unfold token_of.
  rewrite find_first_blank by done.
  assert (Hf' : find_first_not_of (tok +:+ ws2) = Some 0%nat).
  { destruct tok as [| c tok]; [done |]. rewrite append_cons.
    simpl in Hf |- *.
    destruct (is_blank c); [| done].
    destruct (find_first_not_of tok); discriminate. }
  rewrite Hf'. simpl.
  rewrite (find_last_shift ws1 _ (String.length tok - 1))
    by (by rewrite find_last_blank).
  replace (String.length ws1 + (String.length tok - 1)
           - (String.length ws1 + 0) + 1)%nat
    with (String.length tok) by lia.
  by rewrite Nat.add_0_r, substring_middle.
Qed.

Lemma token_of_blank (ws : string) :
  all_blank ws = true → token_of ws = None.
Proof.
  intros H. unfold token_of.
  assert (Hn : find_first_not_of ws = None).
  { induction ws as [| c ws IH]; simpl in *; [done |].
    apply andb_true_iff in H as [Hc Hws]. by rewrite Hc, IH. }
  by rewrite Hn.
Qed.

(** The comment, if any, goes: [tail] is empty or starts with ['#']. *)
Lemma strip_comment_app (s tail : string) :
  find_char "#"%char s = None →
  tail = "" ∨ (∃ c, tail = String "#"%char c) →
  strip_comment (s +:+ tail) = s.
Proof.
  intros Hs Htail. unfold strip_comment.
  assert (Hfind : find_char "#"%char (s +:+ tail)
                  = if String.eqb tail "" then None else Some (String.length s)).
  { induction s as [| x s IH].
    - rewrite append_nil_l. destruct Htail as [-> | [c ->]]; reflexivity.
    - rewrite append_cons. simpl in *.
      destruct (Ascii.eqb x "#"); [done |].
      destruct (find_char "#"%char s); [done |]. rewrite IH by done.
      by destruct (String.eqb tail ""). }
  rewrite Hfind.
  destruct Htail as [-> | [c ->]]; simpl; [apply append_nil_r |].
  clear. induction s as [| x s IH]; [done |].
  rewrite append_cons. simpl. by rewrite IH.
Qed.

(** ** Numerals *)

(** Facts about one character, by its code. *)
Ltac by_code :=
  repeat match goal with
         | |- _ ∧ _ => split
         end;
  vm_compute; reflexivity.

Lemma digit_char_facts (d : Z) :
  0 ≤ d < 10 →
  digit_value 10 (digit_char d) = Some d ∧
  digit_value 16 (digit_char d) = Some d ∧
  isspace (digit_char d) = false ∧
  is_blank (digit_char d) = false ∧
  Ascii.eqb (digit_char d) "-" = false ∧
  Ascii.eqb (digit_char d) "+" = false ∧
  Ascii.eqb (digit_char d) "#" = false ∧
  Ascii.eqb (digit_char d) "x" = false ∧
  Ascii.eqb (digit_char d) "X" = false.
Proof.
  intros Hd.
  assert (H : d = 0 ∨ d = 1 ∨ d = 2 ∨ d = 3 ∨ d = 4 ∨ d = 5 ∨ d = 6 ∨ d = 7
              ∨ d = 8 ∨ d = 9) by lia.
  repeat (destruct H as [-> | H]; [by_code |]). subst. by_code.
Qed.

Lemma hex_char_facts (upper : bool) (d : Z) :
  0 ≤ d < 16 →
  digit_value 16 (hex_char upper d) = Some d ∧
  is_blank (hex_char upper d) = false ∧
  Ascii.eqb (hex_char upper d) "#" = false.
Proof.
  intros Hd.
  assert (H : d = 0 ∨ d = 1 ∨ d = 2 ∨ d = 3 ∨ d = 4 ∨ d = 5 ∨ d = 6 ∨ d = 7
              ∨ d = 8 ∨ d = 9 ∨ d = 10 ∨ d = 11 ∨ d = 12 ∨ d = 13 ∨ d = 14
              ∨ d = 15) by lia.
  destruct upper;
    repeat (destruct H as [-> | H]; [by_code |]); subst; by_code.
Qed.

Lemma blank_not_hash (c : Ascii.ascii) :
  is_blank c = true → Ascii.eqb c "#" = false.
Proof.
  intros H. destruct (Ascii.eqb_spec c "#"%char) as [-> | Hne]; [| done].
  by vm_compute in H.
Qed.

Lemma find_char_app_none (ch : Ascii.ascii) (a b : string) :
  find_char ch a = None → find_char ch b = None →
  find_char ch (a +:+ b) = None.
Proof.
  intros Ha Hb. induction a as [| x a IH]; [done |].
  rewrite append_cons. simpl in *.
  destruct (Ascii.eqb x ch); [done |].
  destruct (find_char ch a); [done |]. by rewrite IH.
Qed.

Lemma blank_no_hash (ws : string) :
  all_blank ws = true → find_char "#"%char ws = None.
Proof.
  induction ws as [| c ws IH]; simpl; [done |]. intros H.
  apply andb_true_iff in H as [Hc Hws].
  by rewrite (blank_not_hash c Hc), IH.
Qed.

(** A numeral whose characters are neither blank nor ['#']. *)
Lemma numeral_solid (f : Z → Ascii.ascii) (ds : list Z) :
  ds ≠ [] →
  Forall (λ d, is_blank (f d) = false ∧ Ascii.eqb (f d) "#" = false) ds →
  solid (numeral f ds) ∧
  find_char "#"%char (numeral f ds) = None ∧
  String.eqb (numeral f ds) "" = false.
Proof.
  intros Hne Hall.
  assert (Hlast : ∀ l, l ≠ [] →
            Forall (λ d, is_blank (f d) = false
                         ∧ Ascii.eqb (f d) "#" = false) l →
            find_last_not_of (numeral f l)
            = Some (String.length (numeral f l) - 1)%nat).
  { induction l as [| d l IHl]; [done |]. intros _ Hl.
    apply Forall_cons in Hl as [[Hb _] Hl]. simpl.
    destruct l as [| d' l']; [simpl; by rewrite Hb |].
    rewrite IHl by done. simpl. by rewrite Nat.sub_0_r. }
  assert (Hhash : find_char "#"%char (numeral f ds) = None).
  { clear Hne Hlast. induction ds as [| d l IHl]; [done |].
    apply Forall_cons in Hall as [[_ Hh] Hl]. simpl. by rewrite Hh, IHl. }
  destruct ds as [| d l]; [done |].
  pose proof (Hlast (d :: l) Hne Hall) as Hl'.
  apply Forall_cons in Hall as [[Hb Hh] Hl].
  split; [| split; [done | done]].
  split; [simpl; by rewrite Hb |]. split; [done | simpl; lia].
Qed.

Lemma read_digits_numeral (base : Z) (f : Z → Ascii.ascii) (ds : list Z)
    (acc : Z) (rest : string) :
  Forall (λ d, digit_value base (f d) = Some d) ds →
  read_digits base acc (numeral f ds +:+ rest)
  = read_digits base (foldl (λ acc d, acc * base + d) acc ds) rest.
Proof.
  revert acc. induction ds as [| d l IH]; intros acc Hall; [done |].
  apply Forall_cons in Hall as [Hd Hl].
  cbn [numeral]. rewrite append_cons. simpl. rewrite Hd. by apply IH.
Qed.

Lemma read_digits_all (base : Z) (f : Z → Ascii.ascii) (ds : list Z) :
  Forall (λ d, digit_value base (f d) = Some d) ds →
  read_digits base 0 (numeral f ds) = digits_value base ds.
Proof.
  intros Hall.
  pose proof (read_digits_numeral base f ds 0 "" Hall) as H.
  by rewrite append_nil_r in H.
Qed.

Lemma prefix_two (a b : Ascii.ascii) (s : string) :
  starts_with (String a (String b "")) s
  = match s with
    | String c (String e _) => Ascii.eqb a c && Ascii.eqb b e
    | _ => false
    end.
Proof.
  unfold starts_with. destruct s as [| c s]; [done |]. simpl.
  destruct (Ascii.ascii_dec a c) as [-> | Hne].
  - rewrite Ascii.eqb_refl. destruct s as [| e s]; [done |]. simpl.
    destruct (Ascii.ascii_dec b e) as [-> | Hne].
    + rewrite Ascii.eqb_refl. by destruct s.
    + apply Ascii.eqb_neq in Hne. by rewrite Hne.
  - apply Ascii.eqb_neq in Hne. rewrite Hne. by destruct s.
Qed.

Lemma digits_value_nonneg (base : Z) (ds : list Z) :
  0 ≤ base → Forall (λ d, 0 ≤ d) ds → 0 ≤ digits_value base ds.
Proof.
  intros Hb Hall. unfold digits_value.
  assert (H : ∀ acc, 0 ≤ acc → 0 ≤ foldl (λ acc d, acc * base + d) acc ds).
  { induction ds as [| d l IH]; intros acc Hacc; [done |].
    apply Forall_cons in Hall as [Hd Hl]. simpl. apply IH; [done | nia]. }
  by apply H.
Qed.

Lemma read_integer_decimal (ds : list Z) :
  ds ≠ [] → Forall (λ d, 0 ≤ d < 10) ds →
  read_integer 10 (numeral digit_char ds) = Some (false, digits_value 10 ds).
Proof.
  intros Hne Hall. unfold digits_value.
  assert (Hdv : Forall (λ d, digit_value 10 (digit_char d) = Some d) ds).
  { eapply Forall_impl; [exact Hall |]. intros d Hd.
    by apply digit_char_facts. }
  pose proof (read_digits_all 10 digit_char ds Hdv) as Hrd.
  unfold digits_value in Hrd.
  destruct ds as [| d l]; [done |].
  apply Forall_cons in Hall as [Hd Hl].
  destruct (digit_char_facts d Hd)
    as (Hv & _ & Hsp & _ & Hm & Hp & _ & _ & _).
  unfold read_integer. cbn [numeral skip_spaces]. rewrite Hsp, Hm, Hp.
  assert (Hpre : match String (digit_char d) (numeral digit_char l) with
                 | String z (String x rest) =>
                     if (10 =? 16) && Ascii.eqb z "0"
                        && (Ascii.eqb x "x" || Ascii.eqb x "X")
                     then Some rest else None
                 | _ => None
                 end = None).
  { by destruct (numeral digit_char l). }
  rewrite Hpre. unfold starts_with_digit. rewrite Hv.
  rewrite bool_decide_eq_true_2 by eauto.
  change (String (digit_char d) (numeral digit_char l))
    with (numeral digit_char (d :: l)).
  by rewrite Hrd.
Qed.

(** [stoull] on a decimal numeral. *)
Lemma stoull_decimal (ds : list Z) :
  ds ≠ [] → Forall (λ d, 0 ≤ d < 10) ds →
  stoull 10 (numeral digit_char ds)
  = if 2 ^ 64 <=? digits_value 10 ds then OutOfRange
    else Value (digits_value 10 ds).
Proof.
  intros Hne Hall. unfold stoull. by rewrite read_integer_decimal.
Qed.

(** [stoi] on a decimal numeral. *)
Lemma stoi_decimal (ds : list Z) :
  ds ≠ [] → Forall (λ d, 0 ≤ d < 10) ds →
  digits_value 10 ds < 2 ^ 31 →
  stoi (numeral digit_char ds) = Value (digits_value 10 ds).
Proof.
  intros Hne Hall Hv. unfold stoi. rewrite read_integer_decimal by done.
  assert (H0 : 0 ≤ digits_value 10 ds).
  { apply digits_value_nonneg; [lia |].
    eapply Forall_impl; [exact Hall |]. simpl. lia. }
  destruct (Z.leb_spec (- 2 ^ 31) (digits_value 10 ds)); [| lia].
  by destruct (Z.ltb_spec (digits_value 10 ds) (2 ^ 31)); [| lia].
Qed.

Lemma read_integer_hex (x : Ascii.ascii) (upper : bool) (ds : list Z) :
  x = "x"%char ∨ x = "X"%char → Forall (λ d, 0 ≤ d < 16) ds →
  read_integer 16 (String "0" (String x (numeral (hex_char upper) ds)))
  = Some (false, digits_value 16 ds).
Proof.
  intros Hx Hall.
  assert (Hdv : Forall (λ d, digit_value 16 (hex_char upper d) = Some d) ds).
  { eapply Forall_impl; [exact Hall |]. intros d Hd.
    by apply hex_char_facts. }
  rewrite <- (read_digits_all 16 (hex_char upper) ds Hdv).
  by destruct Hx as [-> | ->].
Qed.

Lemma solid_cons (a : Ascii.ascii) (s : string) :
  is_blank a = false → s = "" ∨ solid s → solid (String a s).
Proof.
  intros Ha [-> | (Hf & Hl & Hlen)].
  - split; [simpl; by rewrite Ha |]. split; [simpl; by rewrite Ha | simpl; lia].
  - split; [simpl; by rewrite Ha |]. split; [| simpl; lia].
    simpl. rewrite Hl. f_equal. lia.
Qed.

Lemma token_of_solid (tok : string) : solid tok → token_of tok = Some tok.
Proof.
  intros H. pose proof (token_of_padded "" tok "" eq_refl eq_refl H) as Ht.
  by rewrite append_nil_l, append_nil_r in Ht.
Qed.

Lemma strip_comment_none (s : string) :
  find_char "#"%char s = None → strip_comment s = s.
Proof. intros H. unfold strip_comment. by rewrite H. Qed.

Lemma token_of_line (ws1 tok ws2 tail : string) :
  all_blank ws1 = true → all_blank ws2 = true →
  solid tok → find_char "#"%char tok = None →
  tail = "" ∨ (∃ c, tail = String "#"%char c) →
  token_of (strip_comment (ws1 +:+ tok +:+ ws2 +:+ tail)) = Some tok.
Proof.
  intros H1 H2 Hs Hh Ht.
  rewrite <- (append_assoc tok), <- (append_assoc ws1).
  rewrite strip_comment_app; [by apply token_of_padded | | done].
  apply find_char_app_none; [by apply blank_no_hash |].
  apply find_char_app_none; [done | by apply blank_no_hash].
Qed.

(** X15. Blanks around the token of a line and a comment after it do not
    change what the line yields: when the token neither starts nor ends
    with a blank and holds no ['#'], the padded line is parsed as the token
    alone. *)
Theorem padding_and_comment_ignored (ws1 tok ws2 tail : string) :
  all_blank ws1 = true → all_blank ws2 = true →
  solid tok → find_char "#"%char tok = None →
  tail = "" ∨ (∃ c, tail = String "#"%char c) →
  parse_line (ws1 +:+ tok +:+ ws2 +:+ tail) = parse_line tok.
Proof.
  intros H1 H2 Hs Hh Ht. unfold parse_line.
  rewrite token_of_line by done.
  by rewrite strip_comment_none, token_of_solid.
Qed.

Lemma padding_and_comment_ignored_witness :
  parse_line (" " +:+ "0x1F" +:+ "  " +:+ "# load") = parse_line "0x1F".
Proof.
  apply padding_and_comment_ignored.
  - reflexivity.
  - reflexivity.
  - split; [reflexivity |]. split; [reflexivity | simpl; lia].
  - reflexivity.
  - right. by eexists.
Defined.

(** X16. A line of blanks only, with or without a comment after them, is
    skipped: it yields no address. *)
Theorem blank_and_comment_lines_skipped (ws tail : string) :
  all_blank ws = true →
  tail = "" ∨ (∃ c, tail = String "#"%char c) →
  parse_line (ws +:+ tail) = None.
Proof.
  intros Hws Ht. unfold parse_line.
  rewrite strip_comment_app by (by apply blank_no_hash || done).
  by rewrite token_of_blank.
Qed.

Lemma blank_and_comment_lines_skipped_witness :
  parse_line ("  " +:+ "# 0x10") = None.
Proof.
  apply blank_and_comment_lines_skipped; [reflexivity |]. right. by eexists.
Defined.

Lemma decimal_not_prefixed (p : Ascii.ascii) (ds : list Z) :
  p = "x"%char ∨ p = "X"%char →
  Forall (λ d, 0 ≤ d < 10) ds →
  starts_with (String "0" (String p "")) (numeral digit_char ds) = false.
Proof.
  intros Hp Hall. rewrite prefix_two.
  destruct ds as [| d [| e l]]; [done | done |].
  apply Forall_cons in Hall as [_ Hall].
  apply Forall_cons in Hall as [He _].
  destruct (digit_char_facts e He) as (_ & _ & _ & _ & _ & _ & _ & Hx & HX).
  cbn [numeral]. rewrite (Ascii.eqb_sym p).
  destruct Hp as [-> | ->]; rewrite ?Hx, ?HX; apply andb_false_r.
Qed.

Lemma parse_decimal_token (ds : list Z) :
  ds ≠ [] → Forall (λ d, 0 ≤ d < 10) ds →
  parse_line (numeral digit_char ds)
  = if digits_value 10 ds <? 2 ^ 64 then Some (digits_value 10 ds) else None.
Proof.
  intros Hne Hall.
  destruct (numeral_solid digit_char ds Hne) as (Hs & Hh & He).
  { eapply Forall_impl; [exact Hall |]. intros d Hd.
    destruct (digit_char_facts d Hd) as (_ & _ & _ & Hb & _ & _ & Hh & _).
    done. }
  unfold parse_line. rewrite strip_comment_none, token_of_solid, He by done.
  change "0x" with (String "0" (String "x" "")).
  change "0X" with (String "0" (String "X" "")).
  rewrite !decimal_not_prefixed by auto. simpl.
  rewrite stoull_decimal by done.
  destruct (Z.leb_spec (2 ^ 64) (digits_value 10 ds));
    destruct (Z.ltb_spec (digits_value 10 ds) (2 ^ 64)); done || lia.
Qed.

(** X17. A line holding a decimal numeral, between blanks and before an
    optional comment, yields the number the numeral writes when that is
    below 2^64; a larger one is skipped, not reduced modulo 2^64. *)
Theorem decimal_line (ws1 ws2 tail : string) (ds : list Z) :
  ds ≠ [] → Forall (λ d, 0 ≤ d < 10) ds →
  all_blank ws1 = true → all_blank ws2 = true →
  tail = "" ∨ (∃ c, tail = String "#"%char c) →
  parse_line (ws1 +:+ numeral digit_char ds +:+ ws2 +:+ tail)
  = if digits_value 10 ds <? 2 ^ 64 then Some (digits_value 10 ds) else None.
Proof.
  intros Hne Hall H1 H2 Ht.
  destruct (numeral_solid digit_char ds Hne) as (Hs & Hh & He).
  { eapply Forall_impl; [exact Hall |]. intros d Hd.
    destruct (digit_char_facts d Hd) as (_ & _ & _ & Hb & _ & _ & Hh & _).
    done. }
  unfold parse_line at 1. rewrite token_of_line by done.
  rewrite <- parse_decimal_token by done.
  unfold parse_line. by rewrite strip_comment_none, token_of_solid.
Qed.

Lemma decimal_line_witness :
  parse_line (" " +:+ numeral digit_char [4; 0; 9; 6] +:+ " " +:+ "#x")
  = Some 4096 ∧
  parse_line ("" +:+ numeral digit_char
                       [1;8;4;4;6;7;4;4;0;7;3;7;0;9;5;5;1;6;1;6]
                 +:+ "" +:+ "") = None.
Proof.
  split.
  - rewrite decimal_line; [reflexivity | done | | reflexivity | reflexivity |].
    + repeat constructor; lia.
    + right. by eexists.
  - rewrite decimal_line; [reflexivity | done | | reflexivity | reflexivity |].
    + repeat constructor; lia.
    + by left.
Defined.

Lemma hex_token_facts (x : Ascii.ascii) (upper : bool) (ds : list Z) :
  x = "x"%char ∨ x = "X"%char → Forall (λ d, 0 ≤ d < 16) ds →
  let tok := String "0" (String x (numeral (hex_char upper) ds)) in
  solid tok ∧ find_char "#"%char tok = None ∧
  starts_with "0x" tok || starts_with "0X" tok = true.
Proof.
  intros Hx Hall tok.
  assert (Hchars : Forall (λ d, is_blank (hex_char upper d) = false
                     ∧ Ascii.eqb (hex_char upper d) "#" = false) ds).
  { eapply Forall_impl; [exact Hall |]. intros d Hd.
    by destruct (hex_char_facts upper d Hd) as (_ & Hb & Hh). }
  assert (Hnum : numeral (hex_char upper) ds = ""
                 ∨ solid (numeral (hex_char upper) ds)
                   ∧ find_char "#"%char (numeral (hex_char upper) ds) = None).
  { destruct ds as [| d l]; [by left | right].
    by destruct (numeral_solid (hex_char upper) (d :: l)) as (? & ? & _). }
  assert (Hbx : is_blank x = false) by (by destruct Hx as [-> | ->]).
  assert (Hhx : Ascii.eqb x "#" = false) by (by destruct Hx as [-> | ->]).
  split; [| split].
  - apply solid_cons; [done | right].
    apply solid_cons; [done |]. destruct Hnum as [-> | [Hs _]]; auto.
  - subst tok. cbn [find_char].
    change (Ascii.eqb "0" "#") with false. cbv iota. rewrite Hhx.
    by destruct Hnum as [-> | [_ ->]].
  - subst tok.
    change "0x" with (String "0" (String "x" "")).
    change "0X" with (String "0" (String "X" "")).
    rewrite !prefix_two. by destruct Hx as [-> | ->].
Qed.

(** X18. A line holding [0x] or [0X] and hexadecimal digits of either
    case, between blanks and before an optional comment, yields the number
    the digits write in base 16 when that is below 2^64, and is skipped
    otherwise; with no digit after the prefix it yields the address 0. *)
Theorem hexadecimal_line (ws1 ws2 tail : string) (x : Ascii.ascii)
    (upper : bool) (ds : list Z) :
  x = "x"%char ∨ x = "X"%char → Forall (λ d, 0 ≤ d < 16) ds →
  all_blank ws1 = true → all_blank ws2 = true →
  tail = "" ∨ (∃ c, tail = String "#"%char c) →
  parse_line (ws1 +:+ String "0" (String x (numeral (hex_char upper) ds))
                +:+ ws2 +:+ tail)
  = if digits_value 16 ds <? 2 ^ 64 then Some (digits_value 16 ds) else None.
Proof.
  intros Hx Hall H1 H2 Ht.
  destruct (hex_token_facts x upper ds Hx Hall) as (Hs & Hh & Hp).
  unfold parse_line. rewrite token_of_line by done.
  change (String.eqb (String "0" ?s) "") with false. cbv iota.
  rewrite Hp. unfold stoull. rewrite read_integer_hex by done.
  destruct (Z.leb_spec (2 ^ 64) (digits_value 16 ds));
    destruct (Z.ltb_spec (digits_value 16 ds) (2 ^ 64)); done || lia.
Qed.

Lemma hexadecimal_line_witness :
  parse_line ("  " +:+ String "0" (String "X" (numeral (hex_char false) [1; 15]))
                +:+ " " +:+ "# x") = Some 31 ∧
  parse_line ("" +:+ String "0" (String "x" (numeral (hex_char true) []))
                +:+ "" +:+ "") = Some 0.
Proof.
  split.
  - rewrite hexadecimal_line; [reflexivity | by right | | reflexivity
                              | reflexivity |].
    + repeat constructor; lia.
    + right. by eexists.
  - rewrite hexadecimal_line; [reflexivity | by left | | reflexivity
                              | reflexivity |].
    + constructor.
    + by left.
Defined.

Lemma read_integer_negative (ds : list Z) :
  ds ≠ [] → Forall (λ d, 0 ≤ d < 10) ds →
  read_integer 10 (String "-" (numeral digit_char ds))
  = Some (true, digits_value 10 ds).
Proof.
  intros Hne Hall.
  assert (Hdv : Forall (λ d, digit_value 10 (digit_char d) = Some d) ds).
  { eapply Forall_impl; [exact Hall |]. intros d Hd.
    by apply digit_char_facts. }
  rewrite <- (read_digits_all 10 digit_char ds Hdv).
  destruct ds as [| d l]; [done |].
  apply Forall_cons in Hall as [Hd Hl].
  destruct (digit_char_facts d Hd) as (Hv & _).
  unfold read_integer. cbn [skip_spaces].
  change (isspace "-") with false. cbv iota.
  change (Ascii.eqb "-" "-") with true. cbv iota beta.
  cbn [numeral].
  assert (Hpre : match String (digit_char d) (numeral digit_char l) with
                 | String z (String x rest) =>
                     if (10 =? 16) && Ascii.eqb z "0"
                        && (Ascii.eqb x "x" || Ascii.eqb x "X")
                     then Some rest else None
                 | _ => None
                 end = None).
  { by destruct (numeral digit_char l). }
  rewrite Hpre. unfold starts_with_digit. rewrite Hv.
  by rewrite bool_decide_eq_true_2 by eauto.
Qed.

(** X19. A decimal numeral with a minus sign is not rejected: the line
    yields the negated number as a [u64], that is [2^64 - n] for
    [0 < n < 2^64]. *)
Theorem negative_address_wraps (ds : list Z) :
  ds ≠ [] → Forall (λ d, 0 ≤ d < 10) ds →
  parse_line (String "-" (numeral digit_char ds))
  = if digits_value 10 ds <? 2 ^ 64
    then Some (wrap64 (- digits_value 10 ds)) else None.
Proof.
  intros Hne Hall.
  destruct (numeral_solid digit_char ds Hne) as (Hs & Hh & He).
  { eapply Forall_impl; [exact Hall |]. intros d Hd.
    destruct (digit_char_facts d Hd) as (_ & _ & _ & Hb & _ & _ & Hh & _).
    done. }
  assert (Hsolid : solid (String "-" (numeral digit_char ds))).
  { apply solid_cons; [done | by right]. }
  unfold parse_line. rewrite strip_comment_none.
  2: { cbn [find_char]. change (Ascii.eqb "-" "#") with false. cbv iota.
       by rewrite Hh. }
  rewrite token_of_solid by done.
  change (String.eqb (String "-" ?s) "") with false. cbv iota.
  change "0x" with (String "0" (String "x" "")).
  change "0X" with (String "0" (String "X" "")).
  rewrite !prefix_two.
  assert (Hnp : ∀ p, match String "-" (numeral digit_char ds) with
                     | String c (String e _) => Ascii.eqb "0" c && Ascii.eqb p e
                     | _ => false
                     end = false).
  { intros p. by destruct (numeral digit_char ds). }
  rewrite !Hnp. cbn [orb]. cbv iota.
  unfold stoull. rewrite read_integer_negative by done.
  destruct (Z.leb_spec (2 ^ 64) (digits_value 10 ds));
    destruct (Z.ltb_spec (digits_value 10 ds) (2 ^ 64)); done || lia.
Qed.

Lemma negative_address_wraps_witness :
  parse_line (String "-" (numeral digit_char [1])) = Some (2 ^ 64 - 1).
Proof.
  rewrite negative_address_wraps; [reflexivity | done |].
  repeat constructor; lia.
Defined.

(** ** The lines of a trace are read independently *)

Lemma split_lines_nonempty (s : string) : split_lines s ≠ [].
Proof.
  induction s as [| c s IH]; [done |]. simpl.
  destruct (Ascii.eqb c "010"); [done |]. by destruct (split_lines s).
Qed.

Lemma split_lines_app (a b : string) :
  split_lines (a +:+ newline +:+ b) = split_lines a ++ split_lines b.
Proof.
  induction a as [| c a IH]; [done |].
  rewrite append_cons. cbn [split_lines]. rewrite IH.
  destruct (Ascii.eqb c "010"); [done |].
  pose proof (split_lines_nonempty a) as Hne.
  by destruct (split_lines a).
Qed.

(** X20. The addresses read from two pieces of text separated by a line
    feed are the addresses of the first piece followed by those of the
    second: no line influences how another one is read. *)
Theorem lines_parsed_independently (a b : string) :
  addresses (a +:+ newline +:+ b) = addresses a ++ addresses b.
Proof. unfold addresses. by rewrite split_lines_app, omap_app. Qed.

(** ** The flag [verbose] *)

Lemma new_with_verbose (cs bs a : Z) (pol : string) (bits : Z)
    (verb verb' : bool) :
  Cache.new cs bs a pol bits verb'
  = c ← Cache.new cs bs a pol bits verb; Ok (with_verbose verb' c).
Proof.
  unfold Cache.new.
  destruct (udiv64 cs bs) as [cap | |]; simpl; [| done | done].
  destruct (bs =? 0); [done |].
  destruct (urem64 _ _) as [r | |]; simpl; [| done | done].
  destruct (negb _); [done |].
  destruct (udiv64 _ _) as [q | |]; simpl; [| done | done].
  destruct (sub_int bits _) as [d | |]; simpl; [| done | done].
  destruct (sub_int d _) as [tb | |]; simpl; [| done | done].
  by destruct (_ <? 0).
Qed.

Lemma access_with_verbose (verb' : bool) (c : Cache.t) (addr : Z) :
  Cache.access (with_verbose verb' c) addr
  = '(c1, o) ← Cache.access c addr; Ok (with_verbose verb' c1, o).
Proof.
  unfold Cache.access, Cache.decompose. simpl.
  destruct (shr64 addr (Cache.offset_bits c)) as [b | |]; simpl; [| done | done].
  destruct (if 1 <? Cache.num_sets c then _ else _) as [idx | |]; simpl;
    [| done | done].
  destruct (shr64 b (Cache.index_bits c)) as [tag | |]; simpl; [| done | done].
  destruct (vec_at (Cache.sets c) idx) as [s | |]; simpl; [| done | done].
  destruct (FullyAssocLRU.access (Cache.fa_sim c) b) as [fa fa_hit].
  destruct (CacheSet.contains s tag); [done |].
  destruct (bool_decide (b ∉ Cache.seen_blocks c)); [| destruct fa_hit];
    by destruct (CacheSet.insert s tag).
Qed.

Lemma run_with_verbose (verb' : bool) (trace : list Z) (c : Cache.t) :
  Cache.run (with_verbose verb' c) trace
  = '(c1, os) ← Cache.run c trace; Ok (with_verbose verb' c1, os).
Proof.
  revert c. induction trace as [| addr trace IH]; intros c; [done |].
  simpl. rewrite access_with_verbose.
  destruct (Cache.access c addr) as [[c1 o] | |]; simpl; [| done | done].
  rewrite IH. by destruct (Cache.run c1 trace) as [[c2 os] | |].
Qed.

Lemma main_verbose (verb verb' : bool) (cs bs a : Z) (pol : string) (bits : Z)
    (trace : string) (open : string → option string) :
  match Cache.new cs bs a pol bits verb with
  | Throw _ => Exit 3 None
  | Undefined why => Undefined_ending why
  | Ok sim =>
      match open trace with
      | None => Exit 2 None
      | Some contents =>
          match Cache.run sim (addresses contents) with
          | Ok (sim', _) => Exit 0 (Some (summary sim'))
          | Throw _ => Exit 3 None
          | Undefined why => Undefined_ending why
          end
      end
  end
  = match Cache.new cs bs a pol bits verb' with
    | Throw _ => Exit 3 None
    | Undefined why => Undefined_ending why
    | Ok sim =>
        match open trace with
        | None => Exit 2 None
        | Some contents =>
            match Cache.run sim (addresses contents) with
            | Ok (sim', _) => Exit 0 (Some (summary sim'))
            | Throw _ => Exit 3 None
            | Undefined why => Undefined_ending why
            end
        end
    end.
Proof.
  rewrite (new_with_verbose cs bs a pol bits verb verb').
  destruct (Cache.new cs bs a pol bits verb) as [c | |]; simpl; [| done | done].
  destruct (open trace) as [contents |]; [| done].
  rewrite run_with_verbose.
  by destruct (Cache.run c (addresses contents)) as [[c' os] | |].
Qed.

(** X21. The flags [-v] and [--verbose] change nothing in how [main]
    ends nor in the summary it prints, wherever they stand and however many
    there are: two command lines with the same other arguments end alike. *)
Theorem verbose_flag_silent (prog trace : string) (rest rest' : list string)
    (open : string → option string) :
  List.filter (λ s, negb (is_verbose_flag s)) rest
  = List.filter (λ s, negb (is_verbose_flag s)) rest' →
  main prog (trace :: rest) open = main prog (trace :: rest') open.
Proof.
  intros H. unfold main. rewrite H.
  destruct (positional (stoull 10) _ 0 32768) as [cs |]; [| done].
  destruct (positional (stoull 10) _ 1 64) as [bs |]; [| done].
  destruct (positional stoi _ 2 4) as [a |]; [| done].
  destruct (positional stoi _ 4 32) as [bits |]; [| done].
  apply main_verbose.
Qed.

Lemma verbose_flag_silent_witness :
  main "sim" ["t"; "-v"; "256"; "--verbose"; "16"] (λ _, Some "0")
  = main "sim" ["t"; "256"; "16"] (λ _, Some "0").
Proof. apply verbose_flag_silent. reflexivity. Defined.

(** ** Missing arguments *)


(** ** How [main] ends *)

Lemma access_no_throw (c : Cache.t) (addr : Z) (m : string) :
  Cache.access c addr ≠ Throw m.
Proof.
  unfold Cache.access, Cache.decompose, shr64, shl64, vec_at, CacheSet.insert.
  repeat (case_match; simpl; try done).
Qed.

Lemma run_no_throw (trace : list Z) (c : Cache.t) (m : string) :
  Cache.run c trace ≠ Throw m.
Proof.
  revert c. induction trace as [| addr trace IH]; intros c; [done |].
  simpl. pose proof (access_no_throw c addr) as Ha.
  destruct (Cache.access c addr) as [[c1 o] | m1 |]; simpl; [| by destruct (Ha m1) | done].
  pose proof (IH c1) as Hr.
  by destruct (Cache.run c1 trace) as [[c2 os] | |].
Qed.

(** X23. An exit with status 3 comes from the constructor alone: no
    access throws, so when [main] exits with 3 it has printed no summary and
    exits with 3 whatever the trace file holds and whether or not it can be
    opened. *)
Theorem fatal_error_before_the_trace (prog : string) (args : list string)
    (open : string → option string) (printed : option report) :
  main prog args open = Exit 3 printed →
  printed = None ∧ ∀ open', main prog args open' = Exit 3 None.
Proof.
  unfold main. destruct args as [| trace rest]; [done |].
  destruct (positional (stoull 10) _ 0 32768) as [cs |]; [| done].
  destruct (positional (stoull 10) _ 1 64) as [bs |]; [| done].
  destruct (positional stoi _ 2 4) as [a |]; [| done].
  destruct (positional stoi _ 4 32) as [bits |]; [| done].
  destruct (Cache.new _ _ _ _ _ _) as [c | msg | why]; [| | done].
  - destruct (open trace) as [contents |]; [| done].
    pose proof (run_no_throw (addresses contents) c) as Hr.
    destruct (Cache.run c (addresses contents)) as [[c' os] | m |];
      [done | by destruct (Hr m) | done].
  - intros H. by inversion H.
Qed.

(** A cache size that the ways do not divide, without and with a trace
    file. *)
Lemma fatal_error_before_the_trace_witness :
  main "sim" ["t"; "100"; "64"; "1"] (λ _, None) = Exit 3 None ∧
  main "sim" ["t"; "100"; "64"; "1"] (λ _, Some "0") = Exit 3 None.
Proof.
  assert (H : main "sim" ["t"; "100"; "64"; "1"] (λ _, None) = Exit 3 None).
  { vm_compute. reflexivity. }
  split; [exact H |].
  exact (proj2 (fatal_error_before_the_trace _ _ _ _ H) (λ _, Some "0")).
Defined.

(** ** What [main] reports *)

(** X24. When [main] exits with 0 it has opened the trace file named by
    its first argument, and the summary it prints counts as accesses the
    lines of that file that hold an address; hits and misses sum to the
    accesses and the three kinds of miss to the misses, in [u64] arithmetic
    and, below 2^64 accesses, as integers. *)
Theorem report_describes_trace (prog : string) (args : list string)
    (open : string → option string) (r : report) :
  main prog args open = Exit 0 (Some r) →
  ∃ trace contents,
    args !! 0%nat = Some trace ∧ open trace = Some contents ∧
    let n := Z.of_nat (length (addresses contents)) in
    r_accesses r = wrap64 n ∧
    wrap64 (r_hits r + r_misses r) = r_accesses r ∧
    wrap64 (r_miss_compulsory r + r_miss_conflict r + r_miss_capacity r)
      = r_misses r ∧
    (n < 2 ^ 64 →
     r_accesses r = n ∧ r_hits r + r_misses r = n ∧
     r_miss_compulsory r + r_miss_conflict r + r_miss_capacity r
       = r_misses r ∧
     0 ≤ r_hits r ∧ 0 ≤ r_miss_compulsory r ∧ 0 ≤ r_miss_conflict r ∧
     0 ≤ r_miss_capacity r).
Proof.
  unfold main. destruct args as [| trace rest]; [done |].
  destruct (positional (stoull 10) _ 0 32768) as [cs |]; [| done].
  destruct (positional (stoull 10) _ 1 64) as [bs |]; [| done].
  destruct (positional stoi _ 2 4) as [a |]; [| done].
  destruct (positional stoi _ 4 32) as [bits |]; [| done].
  destruct (Cache.new _ _ _ _ _ _) as [c | msg | why] eqn:Hnew;
    [| done | done].
  destruct (open trace) as [contents |] eqn:Hopen; [| done].
  destruct (Cache.run c (addresses contents)) as [[c' os] | m |] eqn:Hrun;
    [| done | done].
  intros H. inversion H; subst r. clear H.
  exists trace, contents. split; [done |]. split; [done |].
  apply new_inv in Hnew as (tbits & _ & _ & _ & _ & ->).
  assert (Hw : counters_wrap c').
  { eapply (run_invariant counters_wrap); [| | exact Hrun].
    - intros; eapply access_counters_wrap; eauto.
    - split; reflexivity. }
  destruct Hw as [Hw1 Hw2].
  pose proof Hrun as Hcfg.
  apply (run_configuration _ 0) in Hcfg as (_ & _ & _ & _ & Hacc & _);
    [| done].
  cbn zeta. simpl. split; [done |]. split; [done |]. split; [done |].
  intros Hlen.
  eapply (run_counters_exact _ 0) in Hrun; [| lia | lia |].
  - destruct Hrun as (G1 & G2 & G3 & G4 & G5 & G6 & G7).
    rewrite Z.add_0_l in G7. repeat split; try done. by rewrite G5.
  - unfold counters_exact. simpl. lia.
Qed.

Lemma report_describes_trace_witness :
  ∃ r,
    main "sim" ["t"; "128"; "64"; "1"]
         (λ _, Some ("0" +:+ newline +:+ "0x40 # b" +:+ newline +:+ "junk"
                     +:+ newline +:+ "0"))
    = Exit 0 (Some r) ∧
    r_accesses r = 3 ∧ r_hits r + r_misses r = 3.
Proof.
  destruct (main "sim" ["t"; "128"; "64"; "1"]
              (λ _, Some ("0" +:+ newline +:+ "0x40 # b" +:+ newline +:+ "junk"
                          +:+ newline +:+ "0")))
    as [st [r |] | |] eqn:Hmain; [| vm_compute in Hmain; discriminate Hmain ..].
  assert (st = 0) as -> by (vm_compute in Hmain; by inversion Hmain).
  exists r. split; [reflexivity |].
  destruct (report_describes_trace _ _ _ _ Hmain)
    as (trace & contents & Ht & Ho & Hacc & _ & _ & Hexact).
  inversion Ho; subst contents.
  destruct Hexact as (H1 & H2 & _); [vm_compute; reflexivity |].
  split; [rewrite H1 | rewrite H2]; vm_compute; reflexivity.
Defined.

(** X25. With the trace file as only argument and a file that can be
    opened, [main] always exits with 0 and reports the geometry
    32768/64/4/LRU: 128 sets, 6 offset bits, 7 index bits, 19 tag bits. *)
Theorem default_configuration_completes (prog trace contents : string)
    (open : string → option string) :
  open trace = Some contents →
  ∃ r,
    main prog [trace] open = Exit 0 (Some r) ∧
    r_cache_size r = 32768 ∧ r_block_size r = 64 ∧ r_assoc r = 4 ∧
    r_policy r = "LRU" ∧ r_num_sets r = 128 ∧
    r_offset_bits r = 6 ∧ r_index_bits r = 7 ∧ r_tag_bits r = 19 ∧
    r_accesses r = wrap64 (Z.of_nat (length (addresses contents))).
Proof.
  intros Hopen.
  assert (Hnew : Cache.new 32768 64 4 "LRU" 32 false
                 = Ok (Cache.mk 32768 64 4 "LRU" 128 6 7 19
                         (replicate (Z.to_nat 128) (CacheSet.new 4 true))
                         (FullyAssocLRU.new 512) 0 0 0 0 0 0 ∅ false)).
  { vm_compute. reflexivity. }
  destruct (run_defined _ _ _ _ _ _ _ 7 (addresses contents) Hnew)
    as (c' & os & Hrun); [lia | reflexivity | lia | simpl; lia |].
  destruct (run_fixed _ _ _ _ Hrun) as (Hob & Hib & Hns & Hpol).
  pose proof Hrun as Hcfg.
  apply (run_configuration _ 0) in Hcfg as (Hcs & Hbs & Ha & Htb & Hacc & _);
    [| reflexivity].
  exists (summary c'). unfold main.
  change (positional (stoull 10) _ 0 32768) with (Some 32768).
  change (positional (stoull 10) _ 1 64) with (Some 64).
  change (positional stoi _ 2 4) with (Some 4).
  change (positional stoi _ 4 32) with (Some 32).
  cbv iota beta.
  change (default "LRU" _) with "LRU".
  change (existsb is_verbose_flag []) with false.
  rewrite Hnew, Hopen, Hrun. split; [reflexivity |].
  unfold summary. simpl. repeat split; done.
Qed.

Lemma default_configuration_completes_witness :
  ∃ r,
    main "sim" ["t"] (λ _, Some "0x0") = Exit 0 (Some r) ∧
    r_num_sets r = 128 ∧ r_accesses r = 1.
Proof.
  destruct (default_configuration_completes "sim" "t" "0x0" (λ _, Some "0x0")
              eq_refl)
    as (r & Hmain & _ & _ & _ & _ & Hn & _ & _ & _ & Hacc).
  exists r. split; [exact Hmain |]. split; [exact Hn |]. exact Hacc.
Defined.

(** ** Arguments that are not numbers *)

Lemma positional_None (conv : string → conversion) (pos : list string)
    (i : nat) (d : Z) :
  positional conv pos i d = None ↔ rejected conv pos i.
Proof.
  unfold positional, rejected. destruct (pos !! i) as [s |].
  - destruct (conv s) as [v | |] eqn:Hc; split; try done.
    + intros (s' & Hs & Hv). inversion Hs; subst s'. by destruct (Hv v).
    + intros _. exists s. split; [done |]. intros v. by rewrite Hc.
    + intros _. exists s. split; [done |]. intros v. by rewrite Hc.
  - split; [done |]. by intros (s & Hs & _).
Qed.

(** X26. [main] ends in an uncaught exception exactly when [stoull]
    rejects the cache size or the block size, or [stoi] rejects the
    associativity or the address width, among the arguments that are not
    flags: the conversions stand outside the [try] block, and nothing in it
    lets an exception escape. *)
Theorem unparsable_argument_terminates (prog trace : string)
    (rest : list string) (open : string → option string) :
  let pos := List.filter (λ s, negb (is_verbose_flag s)) rest in
  main prog (trace :: rest) open = Terminate
  ↔ rejected (stoull 10) pos 0 ∨ rejected (stoull 10) pos 1
    ∨ rejected stoi pos 2 ∨ rejected stoi pos 4.
Proof.
  intros pos. unfold main. fold pos.
  rewrite <- (positional_None (stoull 10) pos 0 32768).
  rewrite <- (positional_None (stoull 10) pos 1 64).
  rewrite <- (positional_None stoi pos 2 4).
  rewrite <- (positional_None stoi pos 4 32).
  destruct (positional (stoull 10) pos 0 32768) as [cs |]; [| tauto].
  destruct (positional (stoull 10) pos 1 64) as [bs |];
    [| destruct (positional stoi pos 2 4), (positional stoi pos 4 32);
       tauto].
  destruct (positional stoi pos 2 4) as [a |];
    [| destruct (positional stoi pos 4 32); tauto].
  destruct (positional stoi pos 4 32) as [bits |]; [| tauto].
  split; [| by intros [? | [? | [? | ?]]]].
  destruct (Cache.new _ _ _ _ _ _) as [c | msg | why]; [| done | done].
  destruct (open trace) as [contents |]; [| done].
  by destruct (Cache.run c (addresses contents)) as [[c' os] | m |].
Qed.
